(** * nps-signal-finder: a shallow embedding of the NPS analyzers and parser

    Sources embedded:
    - [src/analyzers/senior_gap.py]: [_calculate_nps], [analyze],
      [_analyze_by_store], [_generate_insights] (its figures);
    - [src/analyzers/period_comparison.py]: [_calculate_nps], [analyze],
      [_aggregate_by_tcrew], [_analyze_by_store], [_generate_insights]
      (its figures);
    - [src/analyzers/simple_filter.py]: [_analyze_by_tcrew],
      [_analyze_by_store], [_get_store_tcrew_detail] ([get_status]),
      [_generate_insights];
    - [src/query_parser.py]: [parse] (the filters derived from the
      question), [_extract_senior_threshold], [_extract_min_responses],
      [_extract_store_name], [_extract_store_code], [_extract_period],
      [_extract_comparison_periods], [_detect_trend],
      [_detect_analysis_type], [get_filter_summary].

    Numbers: pandas/NumPy [float64] values are modelled by exact rationals
    [Q]; a NaN score (failed [pd.to_numeric] coercion) is [None]. The NPS
    metric itself is also given in binary64 arithmetic ([Nps64]), each
    float64 operation rounding its exact result to the nearest float64, and
    so is [float()] on a custom senior threshold.
    Python strings are lists of Unicode code points ([list N]); [\d],
    [int()] and [float()] take the decimal digits of Unicode 14.0 (the
    Unicode database of Python 3.11). *)

From Stdlib Require Import Setoid ZArith QArith Qround Qpower String Ascii List Bool Lia Lqa.
From Stdlib Require Import Permutation Sorted.
Import ListNotations.

Local Open Scope string_scope.
Local Open Scope Z_scope.

(* ------------------------------------------------------------------ *)
(** ** Shared helpers *)

Definition Qltb (a b : Q) : bool := negb (Qle_bool b a).

(** NumPy's [round(x, 2)] on a [float64]: [rint(x * 100) / 100], where
    [rint] rounds half to even. *)
Definition round_half_even (q : Q) : Z :=
  let f := Qfloor q in
  let r := (q - inject_Z f)%Q in
  if Qltb r (1 # 2) then f
  else if Qltb (1 # 2) r then f + 1
  else if Z.even f then f else f + 1.

Definition round2 (q : Q) : Q := round_half_even (q * 100) # 100.

(* ------------------------------------------------------------------ *)
(** ** Metric primitive: [_calculate_nps] (identical in senior_gap.py and
    period_comparison.py) *)

Module Nps.

(** A [추천지수] cell: a number, or NaN when coercion failed. *)
Definition score := option Q.

(** [scores >= 9] and [scores <= 6]; NaN compares false. *)
Definition is_promoter (s : score) : bool :=
  match s with Some v => Qle_bool 9 v | None => false end.
Definition is_detractor (s : score) : bool :=
  match s with Some v => Qle_bool v 6 | None => false end.

Definition promoters (scores : list score) : nat :=
  length (filter is_promoter scores).
Definition detractors (scores : list score) : nat :=
  length (filter is_detractor scores).

(** [total = len(scores); if total == 0: return 0;
     nps = ((promoters - detractors) / total) * 100; return round(nps, 2)]
    in exact arithmetic, as the analyzer models below use it;
    [Nps64.calculate_nps] is the same function in float64 arithmetic. *)
Definition calculate_nps (scores : list score) : Q :=
  let total := length scores in
  if Nat.eqb total 0 then 0%Q
  else round2 (inject_Z (Z.of_nat (promoters scores) - Z.of_nat (detractors scores))
               / inject_Z (Z.of_nat total) * 100)%Q.

End Nps.

(** [_calculate_nps] in float64 arithmetic. [promoters] and [detractors]
    are [numpy.int64] sums, so [(promoters - detractors) / total] is a
    float64 division, [* 100] a float64 product, and [round(nps, 2)] on the
    resulting [numpy.float64] is NumPy's [np.round]: a float64 product by
    100, [rint], and a float64 division by 100. *)
Module Nps64.

(** [2 ^ e] for an integer exponent. *)
Definition pow2 (e : Z) : Q := Qpower (2 # 1) e.

(** [floor(log2 a)] for [a > 0]. *)
Definition flog2 (a : Q) : Z :=
  let k := Z.log2 (Qnum a) - Z.log2 (Zpos (Qden a)) in
  if Qle_bool (pow2 k) a then k else k - 1.

(** The exponent of the last significand bit of a binary64 number of the
    magnitude of [a]: 53-bit significands, subnormals below [2^-1022]. *)
Definition fexp (a : Q) : Z := Z.max (flog2 a - 52) (-1074).

(** Round-to-nearest, ties-to-even, of [a > 0] onto binary64 (the values
    here stay far below the overflow threshold [2^1024]). *)
Definition round_pos (a : Q) : Q :=
  inject_Z (round_half_even (a / pow2 (fexp a))) * pow2 (fexp a).

(** The float64 nearest to an exact rational: the rounding of every
    float64 operation on its exact result. *)
Definition fl64 (q : Q) : Q :=
  if Qltb 0 q then round_pos q
  else if Qltb q 0 then - round_pos (- q)
  else 0.

(** [np.rint]: to the nearest integer, ties to even (exact in float64). *)
Definition rint (q : Q) : Q := inject_Z (round_half_even q).

(** [round(x, 2)] on a [numpy.float64] [x]: [rint(x * 100.0) / 100.0]. *)
Definition round2 (x : Q) : Q := fl64 (rint (fl64 (x * 100)) / 100).

(** [total = len(scores); if total == 0: return 0;
     nps = ((promoters - detractors) / total) * 100; return round(nps, 2)] *)
Definition calculate_nps (scores : list Nps.score) : Q :=
  let total := length scores in
  if Nat.eqb total 0 then 0%Q
  else round2 (fl64 (fl64 (inject_Z (Z.of_nat (Nps.promoters scores) - Z.of_nat (Nps.detractors scores))
                           / inject_Z (Z.of_nat total)) * 100)).

End Nps64.

(* ------------------------------------------------------------------ *)
(** ** Python values used by the parser and the analyzers *)

(** A Python [str] fed to [re]: its sequence of Unicode code points.
    Strings that are only displayed (labels, messages) are Rocq strings. *)
Definition ustr := list N.

(** Python truthiness of a [str]. *)
Definition truthy_str (s : ustr) : bool :=
  match s with [] => false | _ => true end.

(** A call that either raises (the exception's name) or returns. *)
Definition py (A : Type) := (string + A)%type.

Definition bind_py {A B} (x : py A) (f : A -> py B) : py B :=
  match x with inl e => inl e | inr a => f a end.
Notation "x <- e ; k" := (bind_py e (fun x => k)) (at level 60, right associativity).

(** A key of a Python [dict]: missing ([None]) or bound to a value that may
    itself be Python [None]. *)
Definition entry (A : Type) := option (option A).

(** [d.get(k)] *)
Definition get {A} (e : entry A) : option A :=
  match e with Some v => v | None => None end.
(** [d.get(k, default)] *)
Definition get_or {A} (e : entry A) (dflt : A) : option A :=
  match e with Some v => v | None => Some dflt end.

(** Decimal rendering of a non-negative integer ([str(n)] / [f"{n}"]). *)
Fixpoint digits_rev (fuel : nat) (n : nat) : list ascii :=
  match fuel with
  | O => []
  | S f => let d := Nat.modulo n 10 in
           let c := ascii_of_nat (48 + d) in
           if Nat.ltb n 10 then [c] else c :: digits_rev f (Nat.div n 10)
  end.

Definition nat_to_dec (n : nat) : string :=
  string_of_list_ascii (rev (digits_rev (S n) n)).

Definition Z_to_dec (z : Z) : string :=
  if z <? 0 then "-" ++ nat_to_dec (Z.to_nat (- z)) else nat_to_dec (Z.to_nat z).

(* ------------------------------------------------------------------ *)
(** ** A backtracking matcher for the [re] patterns of query_parser.py *)

Module Regex.

Inductive regex : Type :=
| RChar (c : N)              (* a literal code point *)
| RDigit                       (* \d *)
| RSpace                       (* \s *)
| RSeq (r1 r2 : regex)
| RStar (r : regex)            (* greedy * *)
| ROpt (r : regex)             (* greedy ? *)
| RGroup (n : nat) (r : regex). (* capturing group number n *)

Definition RPlus (r : regex) : regex := RSeq r (RStar r).

Fixpoint RSeqs (rs : list regex) : regex :=
  match rs with
  | [] => RStar (RChar 0) (* unused: every pattern below is non-empty *)
  | [r] => r
  | r :: rs' => RSeq r (RSeqs rs')
  end.

(** The first code points of the runs of ten consecutive decimal digits
    (general category Nd, values 0 to 9) of Unicode 14.0. *)
Definition nd_starts : list N :=
  [48; 1632; 1776; 1984; 2406; 2534; 2662; 2790; 2918; 3046; 3174; 3302;
   3430; 3558; 3664; 3792; 3872; 4160; 4240; 6112; 6160; 6470; 6608; 6784;
   6800; 6992; 7088; 7232; 7248; 42528; 43216; 43264; 43472; 43504; 43600;
   44016; 65296; 66720; 68912; 69734; 69872; 69942; 70096; 70384; 70736;
   70864; 71248; 71360; 71472; 71904; 72016; 72784; 73040; 73120; 92768;
   92864; 93008; 120782; 120792; 120802; 120812; 120822; 123200; 123632;
   125264; 130032]%N.

(** The start of the digit run holding [c], if any. *)
Fixpoint digit_run (c : N) (starts : list N) : option N :=
  match starts with
  | [] => None
  | s :: rest => if N.leb s c && N.ltb c (s + 10) then Some s else digit_run c rest
  end.

(** [\d] on [str] patterns: any Unicode decimal digit (category Nd). *)
Definition is_digit (c : N) : bool :=
  match digit_run c nd_starts with Some _ => true | None => false end.

(** The value of a decimal digit, as [int()] and [float()] read it. *)
Definition digit_value (c : N) : N :=
  match digit_run c nd_starts with Some s => c - s | None => 0 end.

(** [\s] on [str] patterns: the characters for which [str.isspace()]. *)
Definition is_space (c : N) : bool :=
  (N.leb 9 c && N.leb c 13) || (N.leb 28 c && N.leb c 32) ||
  N.eqb c 133 || N.eqb c 160 || N.eqb c 5760 ||
  (N.leb 8192 c && N.leb c 8202) || N.eqb c 8232 || N.eqb c 8233 ||
  N.eqb c 8239 || N.eqb c 8287 || N.eqb c 12288.

Definition caps := list (nat * ustr).

(** Continuation-passing backtracking matcher: the first successful path in
    Python's preference order (greedy quantifiers try the longer match
    first). A starred item must consume input to iterate again. *)
Fixpoint rmatch (fuel : nat) (r : regex) (s : ustr) (cs : caps)
         (k : ustr -> caps -> option caps) {struct fuel} : option caps :=
  match fuel with
  | O => None
  | S f =>
    match r with
    | RChar c => match s with x :: s' => if N.eqb x c then k s' cs else None | [] => None end
    | RDigit => match s with x :: s' => if is_digit x then k s' cs else None | [] => None end
    | RSpace => match s with x :: s' => if is_space x then k s' cs else None | [] => None end
    | RSeq r1 r2 => rmatch f r1 s cs (fun s' cs' => rmatch f r2 s' cs' k)
    | RStar r1 =>
        match rmatch f r1 s cs
                (fun s' cs' => if Nat.ltb (length s') (length s)
                               then rmatch f (RStar r1) s' cs' k else None) with
        | Some res => Some res
        | None => k s cs
        end
    | ROpt r1 => match rmatch f r1 s cs k with Some res => Some res | None => k s cs end
    | RGroup n r1 =>
        rmatch f r1 s cs (fun s' cs' => k s' ((n, firstn (length s - length s') s) :: cs'))
    end
  end.

Definition fuel_for (s : ustr) : nat := 100 * S (length s).

(** [re.search]: the leftmost starting position with a match. *)
Fixpoint search (r : regex) (s : ustr) : option caps :=
  match rmatch (fuel_for s) r s [] (fun _ cs => Some cs) with
  | Some cs => Some cs
  | None => match s with [] => None | _ :: t => search r t end
  end.

(** [m.group(n)] *)
Definition group (n : nat) (cs : caps) : option ustr :=
  match find (fun p => Nat.eqb (fst p) n) cs with Some (_, v) => Some v | None => None end.

(** [int(m.group(n))] on a group of decimal digits. *)
Definition digits_value (ds : ustr) : Z :=
  fold_left (fun acc d => acc * 10 + Z.of_N (digit_value d)) ds 0.

Definition int_group (n : nat) (cs : caps) : Z :=
  match group n cs with Some ds => digits_value ds | None => 0 end.

End Regex.

(* ------------------------------------------------------------------ *)
(** ** The filter dictionary passed from the parser to the analyzers *)

(** UTF-8 encoding of a code-point string, for f-string rendering. *)
Definition utf8_char (c : N) : list ascii :=
  let b (n : N) := ascii_of_N n in
  if N.ltb c 128 then [b c]
  else if N.ltb c 2048 then [b (192 + c / 64)%N; b (128 + c mod 64)%N]
  else if N.ltb c 65536 then
    [b (224 + c / 4096)%N; b (128 + (c / 64) mod 64)%N; b (128 + c mod 64)%N]
  else [b (240 + c / 262144)%N; b (128 + (c / 4096) mod 64)%N;
        b (128 + (c / 64) mod 64)%N; b (128 + c mod 64)%N].

Definition render (s : ustr) : string :=
  string_of_list_ascii (flat_map utf8_char s).

Module FS.

(** [nps_comparison]: ['below'] or ['above']. *)
Inductive comparison := Below | Above.

(** [senior_threshold]: ['avg'], ['below_avg'] or ['custom:<v>'] (the text
    [v] after ['custom:'] is kept). *)
Inductive senior_thr := SAvg | SBelowAvg | SCustom (v : ustr).

(** [senior_threshold.split(':')[1]] on ['custom:<v>']: the text of [v] up
    to its first colon. *)
Fixpoint colon_field (v : ustr) : ustr :=
  match v with
  | [] => []
  | c :: v' => if N.eqb c 58 then [] else c :: colon_field v'
  end.

(** [trend]: ['increase'] or ['decrease']. *)
Inductive trend_dir := Increase | Decrease.

(** [analysis_type] *)
Inductive atype := SeniorGap | PeriodComparison | SimpleFilter | StoreAnalysis | General.

(** A calendar date [(year, month, day)] as written into the
    ['YYYY-MM-DD'] strings of a comparison-period dict. *)
Definition ymd := (Z * Z * Z)%type.

Record period_dict := mkPeriods {
  period1_start : ymd; period1_end : ymd;
  period2_start : ymd; period2_end : ymd;
  period1_label : string; period2_label : string }.

(** [comparison_periods]: the dict of the periods or the error dict
    [{'error': msg, 'period1_label': .., 'period2_label': ..}]. *)
Inductive cp := CPPeriods (d : period_dict) | CPError (msg l1 l2 : string).

Record filters := mkFilters {
  analysis_month : entry ustr;
  team : entry ustr;
  dealer_name : entry ustr;
  store_name : entry ustr;
  nps_target : entry Z;
  nps_comparison : entry comparison;
  senior_threshold : entry senior_thr;
  min_responses : entry Z;
  min_responses_period1 : entry Z;
  min_responses_period2 : entry Z;
  trend : entry trend_dir;
  comparison_periods : entry cp;
  analysis_type : entry atype }.

(** A dict with none of these keys. *)
Definition empty_filters : filters :=
  mkFilters None None None None None None None None None None None None None.

End FS.

(* ------------------------------------------------------------------ *)
(** ** query_parser.py *)

Module Parser.
Import Regex FS.

(** Code points of the Korean syllables in the patterns. *)
Definition WOL : N := 50900.   (* 월 *)
Definition DAE : N := 45824.   (* 대 *)
Definition BI : N := 48708.    (* 비 *)
Definition IL : N := 51068.    (* 일 *)
Definition NU : N := 45572.    (* 누 *)
Definition JEOK : N := 51201.  (* 적 *)
Definition NYEON : N := 45380. (* 년 *)
Definition TILDE : N := 126.   (* ~ *)

(** [r'(\d+)월\s*대비\s*(\d+)월'] *)
Definition pattern1 : regex :=
  RSeqs [RGroup 1 (RPlus RDigit); RChar WOL; RStar RSpace; RChar DAE; RChar BI;
         RStar RSpace; RGroup 2 (RPlus RDigit); RChar WOL].

(** [r'(\d+)~(\d+)월\s*대비\s*(\d+)월'] *)
Definition pattern2 : regex :=
  RSeqs [RGroup 1 (RPlus RDigit); RChar TILDE; RGroup 2 (RPlus RDigit); RChar WOL;
         RStar RSpace; RChar DAE; RChar BI; RStar RSpace;
         RGroup 3 (RPlus RDigit); RChar WOL].

(** [r'(\d+)일\s*(?:누적\s*...)?대비\s*(\d+)일']: a group of digits, 일, \s*, an
    optional non-capturing group (누적 then \s* ), 대비, \s*, a group of digits, 일. *)
Definition pattern3 : regex :=
  RSeqs [RGroup 1 (RPlus RDigit); RChar IL; RStar RSpace;
         ROpt (RSeqs [RChar NU; RChar JEOK; RStar RSpace]);
         RChar DAE; RChar BI; RStar RSpace; RGroup 2 (RPlus RDigit); RChar IL].

(** [r'(\d{4})년\s*(\d{1,2})월'] *)
Definition year_month_re : regex :=
  RSeqs [RGroup 1 (RSeqs [RDigit; RDigit; RDigit; RDigit]); RChar NYEON; RStar RSpace;
         RGroup 2 (RSeq RDigit (ROpt RDigit)); RChar WOL].

(** [calendar.monthrange(year, month)[1]]; raises for a month outside 1..12. *)
Definition is_leap (y : Z) : bool :=
  Z.eqb (y mod 4) 0 && (negb (Z.eqb (y mod 100) 0) || Z.eqb (y mod 400) 0).

Definition month_last_day (year month : Z) : py Z :=
  if (1 <=? month) && (month <=? 12) then
    inr (match month with
         | 2 => if is_leap year then 29 else 28
         | 4 | 6 | 9 | 11 => 30
         | _ => 31
         end)
  else inl "IllegalMonthError".

(** [f'{n}월'] *)
Definition month_label (n : Z) : string := Z_to_dec n ++ "월".

Definition error_message : string := "분석월을 선택해주세요".

(** [_extract_comparison_periods(question, analysis_month)] *)
Definition extract_comparison_periods (question : ustr) (analysis_month : option ustr)
  : py (option cp) :=
  match search pattern1 question with
  | Some m1 =>
      let base_month := int_group 1 m1 in
      let compare_month := int_group 2 m1 in
      let base_year := 2025 in
      let compare_year := if compare_month <=? 3 then 2026 else 2025 in
      base_last_day <- month_last_day base_year base_month ;
      compare_last_day <- month_last_day compare_year compare_month ;
      inr (Some (CPPeriods (mkPeriods
        (base_year, base_month, 1) (base_year, base_month, base_last_day)
        (compare_year, compare_month, 1) (compare_year, compare_month, compare_last_day)
        (month_label base_month) (month_label compare_month))))
  | None =>
  match search pattern2 question with
  | Some m2 =>
      let start_month := int_group 1 m2 in
      let end_month := int_group 2 m2 in
      let compare_month := int_group 3 m2 in
      let base_year := 2025 in
      let compare_year := if compare_month <=? 3 then 2026 else 2025 in
      end_last_day <- month_last_day base_year end_month ;
      compare_last_day <- month_last_day compare_year compare_month ;
      inr (Some (CPPeriods (mkPeriods
        (base_year, start_month, 1) (base_year, end_month, end_last_day)
        (compare_year, compare_month, 1) (compare_year, compare_month, compare_last_day)
        (Z_to_dec start_month ++ "~" ++ Z_to_dec end_month ++ "월")
        (month_label compare_month))))
  | None =>
  match search pattern3 question with
  | Some m3 =>
      match analysis_month with
      | Some am =>
          if truthy_str am then
            let base_day := int_group 1 m3 in
            let compare_day := int_group 2 m3 in
            match search year_month_re am with
            | Some ym =>
                let year := int_group 1 ym in
                let month := int_group 2 ym in
                last_day <- month_last_day year month ;
                if (last_day <? base_day) || (last_day <? compare_day) then inr None
                else inr (Some (CPPeriods (mkPeriods
                  (year, month, 1) (year, month, base_day)
                  (year, month, 1) (year, month, compare_day)
                  (Z_to_dec month ++ "월 " ++ Z_to_dec base_day ++ "일 누적")
                  (Z_to_dec month ++ "월 " ++ Z_to_dec compare_day ++ "일 누적"))))
            | None => inr None
            end
          else inr (Some (CPError error_message "오류" "오류"))
      | None => inr (Some (CPError error_message "오류" "오류"))
      end
  | None => inr None
  end end end.

(** [' | '.join(summary)] *)
Fixpoint join_bar (l : list string) : string :=
  match l with
  | [] => ""
  | [x] => x
  | x :: l' => x ++ " | " ++ join_bar l'
  end.

(** [filters[k]]: a missing key raises [KeyError]. *)
Definition subscript {A} (e : entry A) : py (option A) :=
  match e with Some v => inr v | None => inl "KeyError" end.

Definition truthy_opt_str (v : option ustr) : bool :=
  match v with Some s => truthy_str s | None => false end.
Definition truthy_opt_Z (v : option Z) : bool :=
  match v with Some z => negb (Z.eqb z 0) | None => false end.
Definition truthy_opt {A} (v : option A) : bool :=
  match v with Some _ => true | None => false end.

Definition type_name (t : atype) : string :=
  match t with
  | SeniorGap => "시니어 GAP 분석"
  | PeriodComparison => "기간별 비교"
  | SimpleFilter => "단순 필터 분석"
  | StoreAnalysis => "매장 분석"
  | General => "일반 분석"
  end.

Definition when (b : bool) (x : string) : list string := if b then [x] else [].

(** [get_filter_summary(filters)]: reads [filters], assigns nothing. *)
Definition get_filter_summary (f : filters) : py string :=
  team_v <- subscript (team f) ;
  min_v <- subscript (min_responses f) ;
  store_v <- subscript (store_name f) ;
  atype_v <- subscript (analysis_type f) ;
  let seg_month :=
    match get (analysis_month f) with
    | Some am => when (truthy_str am) ("분석월: " ++ render am)
    | None => []
    end in
  let seg_team :=
    match team_v with Some t => when (truthy_str t) ("팀: " ++ render t) | None => [] end in
  nps_seg <-
    (if truthy_opt_Z (get (nps_target f)) then
       cmp_v <- subscript (nps_comparison f) ;
       let comparison_text :=
         match cmp_v with Some Below => "미만" | _ => "이상" end in
       let t := match get (nps_target f) with Some t => t | None => 0 end in
       inr ["NPS 목표: " ++ Z_to_dec t ++ "% " ++ comparison_text]
     else inr []) ;
  let seg_senior :=
    match get (senior_threshold f) with
    | Some SAvg => ["시니어 비중: 평균 이상"]
    | Some SBelowAvg => ["시니어 비중: 평균 이하"]
    | Some (SCustom v) => ["시니어 비중: " ++ render (colon_field v) ++ "% 이상"]
    | None => []
    end in
  let seg_min :=
    match min_v with
    | Some n => when (negb (Z.eqb n 0)) ("최소 응답수: " ++ Z_to_dec n ++ "건")
    | None => []
    end in
  let seg_store :=
    match store_v with Some st => when (truthy_str st) ("매장: " ++ render st) | None => [] end in
  let seg_type :=
    match atype_v with Some t => ["분석 유형: " ++ type_name t] | None => [] end in
  let summary := (seg_month ++ seg_team ++ nps_seg ++ seg_senior ++ seg_min
                  ++ seg_store ++ seg_type)%list in
  inr (match summary with [] => "조건 없음" | _ => join_bar summary end).

End Parser.

(* ------------------------------------------------------------------ *)
(** ** The survey table and the pandas operations the analyzers use *)

Module Table.

(** One row of the NPS RAW DATA frame. [proc_date] is [처리일] after
    [pd.to_datetime(..., errors='coerce')] ([None] is NaT). *)
Record row := mkRow {
  proc_date : option FS.ymd;  (* 처리일 *)
  score : Nps.score;          (* 추천지수 *)
  tcrew : ustr;               (* 담당자 *)
  tcrew_id : ustr;            (* 담당자ID *)
  dealer : ustr;              (* 대리점명 *)
  store : ustr;               (* 매장명 *)
  mteam : ustr;               (* 마케팅팀명 *)
  senior_flag : ustr }.       (* 시니어여부 *)

(** Python's [str] ordering and equality: code point by code point. *)
Fixpoint ustr_eqb (a b : ustr) : bool :=
  match a, b with
  | [], [] => true
  | x :: a', y :: b' => N.eqb x y && ustr_eqb a' b'
  | _, _ => false
  end.

Fixpoint ustr_ltb (a b : ustr) : bool :=
  match a, b with
  | [], [] => false
  | [], _ :: _ => true
  | _ :: _, [] => false
  | x :: a', y :: b' => N.ltb x y || (N.eqb x y && ustr_ltb a' b')
  end.

(** Tuples of strings (groupby keys), compared lexicographically. *)
Fixpoint key_eqb (a b : list ustr) : bool :=
  match a, b with
  | [], [] => true
  | x :: a', y :: b' => ustr_eqb x y && key_eqb a' b'
  | _, _ => false
  end.

Fixpoint key_ltb (a b : list ustr) : bool :=
  match a, b with
  | [], [] => false
  | [], _ :: _ => true
  | _ :: _, [] => false
  | x :: a', y :: b' => ustr_ltb x y || (ustr_eqb x y && key_ltb a' b')
  end.

(** Stable sort by a boolean [<=]: each element is inserted after every
    element already placed that is [<=] it. *)
Fixpoint insert_by {A} (le : A -> A -> bool) (x : A) (l : list A) : list A :=
  match l with
  | [] => [x]
  | y :: l' => if le y x then y :: insert_by le x l' else x :: l
  end.

Definition sort_by {A} (le : A -> A -> bool) (l : list A) : list A :=
  fold_left (fun acc x => insert_by le x acc) l [].

(** The distinct keys in ascending order, as [DataFrame.groupby] visits them. *)
Definition group_keys (key : row -> list ustr) (rows : list row) : list (list ustr) :=
  let uniq := fold_left (fun acc r => if existsb (key_eqb (key r)) acc then acc
                                      else (acc ++ [key r])%list) rows [] in
  sort_by (fun a b => negb (key_ltb b a)) uniq.

(** [df.groupby(cols)]: each key with its rows, in frame order. *)
Definition groupby (key : row -> list ustr) (rows : list row) : list (list ustr * list row) :=
  map (fun k => (k, filter (fun r => key_eqb (key r) k) rows)) (group_keys key rows).

Definition scores (rows : list row) : list Nps.score := map score rows.

(** [Series.count()]: the non-NaN scores. *)
Definition count_valid (rows : list row) : nat :=
  length (filter (fun r => match score r with Some _ => true | None => false end) rows).

(** NumPy [round(x, 1)]. *)
Definition round1 (q : Q) : Q := round_half_even (q * 10) # 10.

(** [NaN]-aware [<=] for [sort_values] ([na_position='last']). *)
Definition le_nan (a b : option Q) : bool :=
  match a, b with
  | Some x, Some y => Qle_bool x y
  | Some _, None => true
  | None, Some _ => false
  | None, None => true
  end.

(** [x / y] on counts: [0 / 0] is NaN, [n / 0] never arises below. *)
Definition div_q (x : Z) (y : nat) : option Q :=
  if Nat.eqb y 0 then None else Some (inject_Z x / inject_Z (Z.of_nat y))%Q.

End Table.

(* ------------------------------------------------------------------ *)
(** ** simple_filter.py *)

Module SimpleFilter.
Import Table FS.

(** A row of [grouped] in [_analyze_by_tcrew]. *)
Record tcrew_row := mkTcrewRow {
  t_team : ustr; t_dealer : ustr; t_store : ustr; t_tcrew : ustr;
  t_count : nat;            (* 응답수 *)
  t_promoters : nat;        (* 추천고객 *)
  t_detractors : nat;       (* 비추천고객 *)
  t_nps : option Q;         (* NPS_value; NPS(%) is its rendering *)
  t_share : option Q }.     (* 매장내_모수_비중_value *)

(** [((추천고객 - 비추천고객) / 응답수 * 100).round(1)] *)
Definition nps_value (p d c : nat) : option Q :=
  option_map (fun x => round1 (x * 100)%Q) (div_q (Z.of_nat p - Z.of_nat d) c).

(** The NPS target filter shared by both tables: applied only when
    [nps_target] is not None, with [filters.get('nps_comparison', 'below')]. *)
Definition target_keep (f : filters) (nps : option Q) : bool :=
  match get (nps_target f) with
  | None => true
  | Some t =>
      match get_or (nps_comparison f) Below, nps with
      | Some Below, Some v => Qltb v (inject_Z t)
      | Some Above, Some v => Qle_bool (inject_Z t) v
      | Some _, None => false
      | None, _ => true
      end
  end.

(** [grouped[grouped['응답수'] >= min_responses]] with
    [min_responses = filters.get('min_responses_period1', 5)]; a value of
    None makes the comparison raise. *)
Definition min_filter {A} (f : filters) (cnt : A -> nat) (l : list A) : py (list A) :=
  match get_or (min_responses_period1 f) 5 with
  | Some m => inr (filter (fun x => m <=? Z.of_nat (cnt x)) l)
  | None => inl "TypeError"
  end.

(** [_analyze_by_tcrew(filters)]: the per-agent table. *)
Definition analyze_by_tcrew (df : list row) (f : filters) : py (list tcrew_row) :=
  let store_total (k : list ustr) :=
    count_valid (filter (fun r => key_eqb [mteam r; dealer r; store r] k) df) in
  let grouped :=
    map (fun '(k, g) =>
           let c := count_valid g in
           let p := Nps.promoters (scores g) in
           let d := Nps.detractors (scores g) in
           match k with
           | [tm; dl; st; tc] =>
               mkTcrewRow tm dl st tc c p d (nps_value p d c)
                 (option_map (fun x => round1 (x * 100)%Q)
                    (div_q (Z.of_nat c) (store_total [tm; dl; st])))
           | _ => mkTcrewRow [] [] [] [] c p d (nps_value p d c) None
           end)
        (groupby (fun r => [mteam r; dealer r; store r; tcrew r]) df) in
  kept <- min_filter f t_count grouped ;
  let kept := filter (fun x => target_keep f (t_nps x)) kept in
  inr (sort_by (fun a b =>
                  let ka := [t_team a; t_dealer a; t_store a] in
                  let kb := [t_team b; t_dealer b; t_store b] in
                  key_ltb ka kb || (key_eqb ka kb && le_nan (t_nps a) (t_nps b)))
               kept).

(** [get_status(diff)] in [_get_store_tcrew_detail]. *)
Definition get_status (diff : option Q) : string :=
  match diff with
  | Some d =>
      if Qle_bool 5 d then "🟢 우수"
      else if Qle_bool 0 d then "🟢 양호"
      else if Qle_bool (-5) d then "🟠 주의"
      else "🔴 개선필요"
  | None => "🔴 개선필요"
  end.

(** The worst-agent insight of [_generate_insights] (message template and
    its arguments). *)
Inductive insight :=
| WorstOne (name store : ustr) (nps : option Q)
| WorstTie (name store : ustr) (others : nat) (nps : option Q).

(** [Series.min()] skipping NaN; NaN when no value is a number. *)
Definition nan_min (l : list (option Q)) : option Q :=
  fold_left (fun acc x => match acc, x with
                          | None, _ => x
                          | Some a, Some b => Some (if Qle_bool a b then a else b)
                          | Some a, None => Some a
                          end) l None.

(** [NPS_numeric == min_nps]: NaN equals nothing. *)
Definition eq_nan (a b : option Q) : bool :=
  match a, b with Some x, Some y => Qeq_bool x y | _, _ => false end.

(** The first block of [_generate_insights] for a non-empty table;
    [iloc[0]] of an empty frame raises. *)
Definition worst_tcrew_insight (result : list tcrew_row) : py (option insight) :=
  match result with
  | [] => inr None
  | _ =>
      let min_nps := nan_min (map t_nps result) in
      let worst := filter (fun x => eq_nan (t_nps x) min_nps) result in
      match worst with
      | [w] => inr (Some (WorstOne (t_tcrew w) (t_store w) (t_nps w)))
      | w :: _ => inr (Some (WorstTie (t_tcrew w) (t_store w) (length worst - 1) (t_nps w)))
      | [] => inl "IndexError"
      end
  end.

End SimpleFilter.

(* ------------------------------------------------------------------ *)
(** ** [float()] on a string (the custom senior threshold) *)

Module PyFloat.
Import Regex.

(** Leading whitespace ([str.isspace]), which [float()] ignores. *)
Fixpoint lstrip (s : ustr) : ustr :=
  match s with c :: s' => if is_space c then lstrip s' else s | [] => [] end.

(** [text.strip()] *)
Definition strip (s : ustr) : ustr := rev (lstrip (rev (lstrip s))).

(** An optional ASCII sign [+] or [-]. *)
Definition sign (s : ustr) : Z * ustr :=
  match s with
  | c :: s' => if N.eqb c 43 then (1, s') else if N.eqb c 45 then (-1, s') else (1, s)
  | [] => (1, [])
  end.

(** The rest of a [digitpart ::= digit (["_"] digit)*] after its first
    digit: the digits, and the text after them. *)
Fixpoint digits_tail (s : ustr) : ustr * ustr :=
  match s with
  | c :: s' =>
      if is_digit c then let '(ds, r) := digits_tail s' in (c :: ds, r)
      else if N.eqb c 95 then
        match s' with
        | d :: s'' => if is_digit d then let '(ds, r) := digits_tail s'' in (d :: ds, r)
                      else ([], s)
        | [] => ([], s)
        end
      else ([], s)
  | [] => ([], [])
  end.

(** [digitpart]: its digits and the text after it. *)
Definition digitpart (s : ustr) : option (ustr * ustr) :=
  match s with
  | c :: s' => if is_digit c then let '(ds, r) := digits_tail s' in Some (c :: ds, r) else None
  | [] => None
  end.

(** [number ::= digitpart "." [digitpart] | ["."] digitpart]: the integer
    digits, the fraction digits and the text after them. *)
Definition number (s : ustr) : option (ustr * ustr * ustr) :=
  let '(ip, r1) := match digitpart s with Some p => p | None => ([], s) end in
  let '(fp, r2) :=
    match r1 with
    | c :: r1' =>
        if N.eqb c 46 then match digitpart r1' with Some p => p | None => ([], r1') end
        else ([], r1)
    | [] => ([], [])
    end in
  match ip, fp with [], [] => None | _, _ => Some (ip, fp, r2) end.

(** [[exponent]] with [exponent ::= ("e" | "E") [sign] digitpart], ending
    the text. *)
Definition exponent (s : ustr) : option Z :=
  match s with
  | [] => Some 0
  | c :: s' =>
      if N.eqb c 101 || N.eqb c 69 then
        let '(sg, r) := sign s' in
        match digitpart r with
        | Some (ds, []) => Some (sg * digits_value ds)
        | _ => None
        end
      else None
  end.

(** [float(text)] on a decimal literal: the float64 nearest to its value,
    any other text raising [ValueError]. The spellings ['inf'],
    ['infinity'] and ['nan'] are not modelled (they raise here), and a
    literal of magnitude [2^1024] or more, an infinity for [float()], keeps
    its rounded finite value here. *)
Definition py_float (text : ustr) : py Q :=
  let '(sg, r) := sign (strip text) in
  match number r with
  | Some (ip, fp, r') =>
      match exponent r' with
      | Some e =>
          inr (Nps64.fl64 (inject_Z (sg * digits_value (ip ++ fp)%list)
                           * Qpower (10 # 1) (e - Z.of_nat (length fp))))
      | None => inl "ValueError"
      end
  | None => inl "ValueError"
  end.

End PyFloat.

(* ------------------------------------------------------------------ *)
(** ** senior_gap.py *)

Module SeniorGap.
Import Table FS.

Definition ALL : ustr := [51204; 52404]%N.  (* "전체" *)
Definition Y : ustr := [89]%N.              (* "Y" *)

(** [strftime('%Y년 %m월')] of a date. *)
Definition pad (width : nat) (n : Z) : ustr :=
  let ds := map (fun a => N.of_nat (nat_of_ascii a)) (list_ascii_of_string (Z_to_dec n)) in
  (repeat 48%N (width - length ds) ++ ds)%list.

Definition year_month_label (d : ymd) : ustr :=
  let '(y, m, _) := d in (pad 4 y ++ [Parser.NYEON; 32%N] ++ pad 2 m ++ [Parser.WOL])%list.

Definition truthy_get (e : entry ustr) : option ustr :=
  match get e with Some s => if truthy_str s then Some s else None | None => None end.

(** The scope filters at the top of [analyze]: analysis month (unless
    "전체"), team, dealer name, store name. *)
Definition scope_filter (f : filters) (df : list row) : list row :=
  let df := match truthy_get (analysis_month f) with
            | Some am => if ustr_eqb am ALL then df
                         else filter (fun r => match proc_date r with
                                               | Some d => ustr_eqb (year_month_label d) am
                                               | None => false
                                               end) df
            | None => df
            end in
  let df := match truthy_get (team f) with
            | Some t => filter (fun r => ustr_eqb (mteam r) t) df | None => df end in
  let df := match truthy_get (dealer_name f) with
            | Some t => filter (fun r => ustr_eqb (dealer r) t) df | None => df end in
  match truthy_get (store_name f) with
  | Some t => filter (fun r => ustr_eqb (store r) t) df | None => df
  end.

(** A row of [tcrew_stats]. *)
Record agent := mkAgent {
  a_tcrew : ustr; a_tcrew_id : ustr; a_dealer : ustr; a_store : ustr;
  a_total : nat;            (* 총응답수 *)
  a_promoters : nat; a_detractors : nat;
  a_senior : nat;           (* 시니어응답수 *)
  a_nps : Q;                (* NPS_value *)
  a_senior_rate : Q;        (* 시니어비중_value *)
  a_senior_nps : Q }.       (* the value rendered into 시니어NPS *)

Definition is_senior (r : row) : bool := ustr_eqb (senior_flag r) Y.

(** [f"{x:.1f}"] read back with [float(...)]: the value rounded to one
    decimal (half to even on the exact value). *)
Definition fmt1 (q : Q) : Q := round1 q.

(** The per-agent loop over [df_filtered.groupby(['담당자', '담당자ID'])]. *)
Definition tcrew_stats (dff : list row) : list agent :=
  map (fun '(k, g) =>
         let total := length g in
         let sen := filter is_senior g in
         let senior_nps := match sen with [] => 0%Q | _ => Nps.calculate_nps (scores sen) end in
         let senior_rate := if Nat.ltb 0 total
                            then (inject_Z (Z.of_nat (length sen)) / inject_Z (Z.of_nat total) * 100)%Q
                            else 0%Q in
         let '(dl, st) := match g with r :: _ => (dealer r, store r) | [] => ([], []) end in
         let '(nm, id) := match k with [nm; id] => (nm, id) | _ => ([], []) end in
         mkAgent nm id dl st total (Nps.promoters (scores g)) (Nps.detractors (scores g))
                 (length sen) (Nps.calculate_nps (scores g)) senior_rate senior_nps)
      (groupby (fun r => [tcrew r; tcrew_id r]) dff).

(** Population baseline: [avg_senior_rate] over the whole [df_filtered]. *)
Definition avg_senior_rate (dff : list row) : Q :=
  let total := length dff in
  if Nat.ltb 0 total
  then (inject_Z (Z.of_nat (length (filter is_senior dff))) / inject_Z (Z.of_nat total) * 100)%Q
  else 0%Q.

(** [Series.mean()] *)
Definition mean (l : list Q) : Q :=
  (fold_right Qplus 0 l / inject_Z (Z.of_nat (length l)))%Q.

(** [avg_senior_nps]: mean of the (formatted) senior NPS over the agents of
    [tcrew_stats] with a senior response; 0 when there is none. *)
Definition avg_senior_nps (stats : list agent) : Q :=
  match filter (fun a => Nat.ltb 0 (a_senior a)) stats with
  | [] => 0%Q
  | ws => mean (map (fun a => fmt1 (a_senior_nps a)) ws)
  end.

(** [float(senior_threshold.split(':')[1])] on ['custom:<v>']. *)
Definition float_of_digits (v : ustr) : py Q := PyFloat.py_float (colon_field v).

(** Step 2: the senior-proportion filter (default: at least the average). *)
Definition step2 (f : filters) (avg_rate : Q) (result : list agent) : py (list agent) :=
  match get (senior_threshold f) with
  | Some SAvg => inr (filter (fun a => Qle_bool avg_rate (a_senior_rate a)) result)
  | Some SBelowAvg => inr (filter (fun a => Qltb (a_senior_rate a) avg_rate) result)
  | Some (SCustom v) =>
      c <- float_of_digits v ;
      inr (filter (fun a => Qle_bool c (a_senior_rate a)) result)
  | None => inr (filter (fun a => Qle_bool avg_rate (a_senior_rate a)) result)
  end.

(** Step 3: [if len(result) > 0:] keep agents with a senior response whose
    senior NPS is below [avg_senior_nps]. *)
Definition step3 (avg_sn : Q) (result : list agent) : list agent :=
  match result with
  | [] => result
  | _ => filter (fun a => Qltb (fmt1 (a_senior_nps a)) avg_sn)
                (filter (fun a => Nat.ltb 0 (a_senior a)) result)
  end.

(** Step 4: the NPS target, default [87] / ['below']. *)
Definition step4 (f : filters) (result : list agent) : list agent :=
  match get (nps_target f) with
  | Some t =>
      match get_or (nps_comparison f) Below with
      | Some Below => filter (fun a => Qltb (a_nps a) (inject_Z t)) result
      | _ => filter (fun a => Qle_bool (inject_Z t) (a_nps a)) result
      end
  | None => filter (fun a => Qltb (a_nps a) 87) result
  end.

(** Step 5: [min_responses] (default 5) and at least one senior response. *)
Definition step5 (f : filters) (result : list agent) : py (list agent) :=
  match get_or (min_responses f) 5 with
  | Some m => inr (filter (fun a => Nat.leb 1 (a_senior a))
                     (filter (fun a => m <=? Z.of_nat (a_total a)) result))
  | None => inl "TypeError"
  end.

(** [sort_values(['시니어비중_value', 'NPS_value'], ascending=[False, True])] *)
Definition sort_result (result : list agent) : list agent :=
  sort_by (fun a b => Qltb (a_senior_rate b) (a_senior_rate a)
                      || (Qeq_bool (a_senior_rate a) (a_senior_rate b)
                          && Qle_bool (a_nps a) (a_nps b))) result.

(** The agent table after step 3, as [analyze] computes it. *)
Definition after_step3 (df : list row) (f : filters) : py (list agent) :=
  let dff := scope_filter f df in
  let stats := tcrew_stats dff in
  r2 <- step2 f (avg_senior_rate dff) stats ;
  inr (step3 (avg_senior_nps stats) r2).

(** What [analyze] returns that the claims read: the agent table
    ([by_tcrew]) and the summary's senior-proportion baseline
    (['필터 조건Y 시니어 비중'], [None] where the summary shows "N/A"). *)
Record result := mkResult { by_tcrew : list agent; summary_senior_rate : option Q }.

Definition analyze (df : list row) (f : filters) : py result :=
  let dff := scope_filter f df in
  let stats := tcrew_stats dff in
  match stats with
  | [] => inr (mkResult [] None)
  | _ =>
      let avg_rate := avg_senior_rate dff in
      r3 <- after_step3 df f ;
      r5 <- step5 f (step4 f r3) ;
      inr (mkResult (sort_result r5) (Some avg_rate))
  end.

Definition with_min_responses (f : filters) (m : entry Z) : filters :=
  mkFilters (analysis_month f) (team f) (dealer_name f) (store_name f) (nps_target f)
            (nps_comparison f) (senior_threshold f) m (min_responses_period1 f)
            (min_responses_period2 f) (trend f) (comparison_periods f) (analysis_type f).

End SeniorGap.

(* ------------------------------------------------------------------ *)
(** ** period_comparison.py *)

Module PeriodComparison.
Import Table FS.

(** The input frame: whether it has a [처리일] column, and its rows. *)
Record frame := mkFrame { has_proc_date : bool; rows : list row }.

(** Day number of a proleptic Gregorian date (days since 1970-01-01). *)
Definition days_from_civil (d : ymd) : Z :=
  let '(y0, m, dd) := d in
  let y := if m <=? 2 then y0 - 1 else y0 in
  let era := y / 400 in
  let yoe := y - era * 400 in
  let mp := if 2 <? m then m - 3 else m + 9 in
  let doy := (153 * mp + 2) / 5 + dd - 1 in
  let doe := yoe * 365 + yoe / 4 - yoe / 100 + doy in
  era * 146097 + doe - 719468.

(** [pd.Timestamp('YYYY-MM-DD')]: raises on a day that does not exist. *)
Definition timestamp (d : ymd) : py Z :=
  let '(y, m, dd) := d in
  last <- Parser.month_last_day y m ;
  if (1 <=? dd) && (dd <=? last) then inr (days_from_civil d) else inl "ValueError".

(** [(처리일 >= start) & (처리일 < end + 1 day)]; NaT compares false. *)
Definition in_period (start end_ : Z) (r : row) : bool :=
  match proc_date r with
  | Some d => (start <=? days_from_civil d) && (days_from_civil d <? end_ + 1)
  | None => false
  end.

(** A row of [_aggregate_by_tcrew]. *)
Record tstat := mkTstat {
  s_tcrew : ustr; s_tcrew_id : ustr; s_dealer : ustr; s_store : ustr;
  s_total : nat; s_nps : Q }.

Definition aggregate_by_tcrew (df : list row) : list tstat :=
  map (fun '(k, g) =>
         let '(dl, st) := match g with r :: _ => (dealer r, store r) | [] => ([], []) end in
         let '(nm, id) := match k with [nm; id] => (nm, id) | _ => ([], []) end in
         mkTstat nm id dl st (length g) (Nps.calculate_nps (scores g)))
      (groupby (fun r => [tcrew r; tcrew_id r]) df).

Definition join_key (s : tstat) : list ustr :=
  [s_tcrew s; s_tcrew_id s; s_dealer s; s_store s].

(** A row of the merged frame, with [NPS증감_value]. *)
Record joined := mkJoined {
  j_tcrew : ustr; j_tcrew_id : ustr; j_dealer : ustr; j_store : ustr;
  j_nps1 : Q; j_count1 : nat;    (* 기준기간_NPS_value, 기준기간_응답수 *)
  j_nps2 : Q; j_count2 : nat;    (* 비교기간_NPS_value, 비교기간_응답수 *)
  j_delta : Q }.                 (* NPS증감_value *)

Definition j_key (j : joined) : list ustr := [j_tcrew j; j_tcrew_id j; j_dealer j; j_store j].

(** [pd.merge(p1, p2, on=[담당자, 담당자ID, 대리점명, 매장명], how='inner')]
    followed by [NPS증감_value = 비교기간 - 기준기간]. *)
Definition merge_inner (p1 p2 : list tstat) : list joined :=
  flat_map (fun a =>
              map (fun b => mkJoined (s_tcrew a) (s_tcrew_id a) (s_dealer a) (s_store a)
                                     (s_nps a) (s_total a) (s_nps b) (s_total b)
                                     (s_nps b - s_nps a)%Q)
                  (filter (fun b => key_eqb (join_key a) (join_key b)) p2))
           p1.

(** Insights: a fixed message, or the list [_generate_insights(result, trend)]
    renders from the final table. *)
Inductive insight := Msg (s : string) | Generated (t : option trend_dir) (result : list joined).

Record result := mkResult {
  by_tcrew : list joined;
  insights : list insight;
  period_labels : option (string * string) }.

Definition empty_result (msgs : list string) (labels : option (string * string)) : result :=
  mkResult [] (map Msg msgs) labels.

Definition Qabs_ (q : Q) : Q := if Qle_bool 0 q then q else (- q)%Q.

Definition trend_filter (t : option trend_dir) (l : list joined) : list joined :=
  match t with
  | Some Decrease => filter (fun j => Qltb (j_delta j) 0) l
  | Some Increase => filter (fun j => Qltb 0 (j_delta j)) l
  | None => l
  end.

Definition target_filter (f : filters) (l : list joined) : list joined :=
  match get (nps_target f) with
  | Some t =>
      match get_or (nps_comparison f) Below with
      | Some Below => filter (fun j => Qltb (j_nps2 j) (inject_Z t)) l
      | _ => filter (fun j => Qle_bool (inject_Z t) (j_nps2 j)) l
      end
  | None => l
  end.

(** [filters.get('min_responses_periodN', filters.get('min_responses', 5))] *)
Definition min_for (e : entry Z) (f : filters) : option Z :=
  match e with Some v => v | None => get_or (min_responses f) 5 end.

Definition min_filter (f : filters) (l : list joined) : py (list joined) :=
  match min_for (min_responses_period1 f) f, min_for (min_responses_period2 f) f with
  | Some m1, Some m2 =>
      inr (filter (fun j => (m1 <=? Z.of_nat (j_count1 j)) && (m2 <=? Z.of_nat (j_count2 j))) l)
  | _, _ => inl "TypeError"
  end.

(** The final [sort_values] on [NPS증감_value] (modelled as a stable sort). *)
Definition sort_result (t : option trend_dir) (l : list joined) : list joined :=
  match t with
  | Some Decrease => sort_by (fun a b => Qle_bool (j_delta a) (j_delta b)) l
  | Some Increase => sort_by (fun a b => Qle_bool (j_delta b) (j_delta a)) l
  | None => sort_by (fun a b => Qle_bool (Qabs_ (j_delta b)) (Qabs_ (j_delta a))) l
  end.

(** The status in [_get_store_tcrew_detail] from [vs_store]. *)
Definition status_of_vs_store (vs_store : Q) : string :=
  if Qle_bool 5 vs_store then "🟢 우수"
  else if Qle_bool 0 vs_store then "🟢 양호"
  else if Qle_bool (-5) vs_store then "🟠 주의"
  else "🔴 개선필요".

Definition cp_get_error (c : cp) : option string :=
  match c with CPError msg _ _ => if String.eqb msg "" then None else Some msg | CPPeriods _ => None end.

(** The two windows: from [comparison_periods], or the fixed fallback
    (Sep 1 - Dec 31 2025 against Jan 2026) when it is absent. *)
Definition periods_of (f : filters) : py (Z * Z * Z * Z * string * string) :=
  match get (comparison_periods f) with
  | Some (CPPeriods d) =>
      s1 <- timestamp (period1_start d) ; e1 <- timestamp (period1_end d) ;
      s2 <- timestamp (period2_start d) ; e2 <- timestamp (period2_end d) ;
      inr (s1, e1, s2, e2, period1_label d, period2_label d)
  | Some (CPError _ _ _) => inl "KeyError"
  | None =>
      inr (days_from_civil (2025, 9, 1), days_from_civil (2025, 12, 31),
           days_from_civil (2026, 1, 1), days_from_civil (2026, 1, 31), "9~12월", "1월")
  end.

(** [period1_stats] and [period2_stats]: the agent aggregates of the rows
    of each window. *)
Definition period_aggregates (df : frame) (f : filters) : py (list tstat * list tstat) :=
  periods <- periods_of f ;
  let '(s1, e1, s2, e2, _, _) := periods in
  inr (aggregate_by_tcrew (filter (in_period s1 e1) (rows df)),
       aggregate_by_tcrew (filter (in_period s2 e2) (rows df))).

(** [analyze(filters)] *)
Definition analyze (df : frame) (f : filters) : py result :=
  if negb (has_proc_date df) then inr (empty_result ["⚠️ 처리일 컬럼이 없습니다."] None)
  else
  match match get (comparison_periods f) with Some c => cp_get_error c | None => None end with
  | Some msg => inr (empty_result ["⚠️ " ++ msg] None)
  | None =>
  periods <- periods_of f ;
  let '(_, _, _, _, l1, l2) := periods in
  aggs <- period_aggregates df f ;
  let '(p1, p2) := aggs in
  match p1, p2 with
  | [], _ => inr (empty_result ["⚠️ 기준 기간(" ++ l1 ++ ")에 응답 데이터가 없습니다.";
                                "💡 분석월 필터를 '전체'로 변경해보세요."] (Some (l1, l2)))
  | _, [] => inr (empty_result ["⚠️ 비교 기간(" ++ l2 ++ ")에 응답 데이터가 없습니다.";
                                "💡 분석월 필터를 '전체'로 변경해보세요."] (Some (l1, l2)))
  | _, _ =>
      match merge_inner p1 p2 with
      | [] => inr (empty_result ["⚠️ 두 기간 모두 데이터가 있는 T크루가 없습니다.";
                                 "💡 분석월 필터를 '전체'로 변경해보세요."] (Some (l1, l2)))
      | merged =>
          let t := get (trend f) in
          r <- min_filter f (target_filter f (trend_filter t merged)) ;
          let r := sort_result t r in
          inr (mkResult r [Generated t r] (Some (l1, l2)))
      end
  end
  end.

End PeriodComparison.

(* ------------------------------------------------------------------ *)
(** ** The remaining [re] patterns of query_parser.py: character classes
    and alternation *)

Module XRegex.
Import Regex.

(** Patterns with one-character classes ([[^\d]], [[가-힣]], literals, [\d],
    [\s]) and alternation [r1|r2]. *)
Inductive xregex : Type :=
| XClass (p : N -> bool)         (* one character of the class p *)
| XSeq (r1 r2 : xregex)
| XStar (r : xregex)             (* greedy * *)
| XOpt (r : xregex)              (* greedy ? *)
| XAlt (r1 r2 : xregex)          (* r1|r2: the left branch is tried first *)
| XGroup (n : nat) (r : xregex).  (* capturing group number n *)

(** The same backtracking matcher as [Regex.rmatch], with alternation. *)
Fixpoint xmatch (fuel : nat) (r : xregex) (s : ustr) (cs : caps)
         (k : ustr -> caps -> option caps) {struct fuel} : option caps :=
  match fuel with
  | O => None
  | S f =>
    match r with
    | XClass p => match s with x :: s' => if p x then k s' cs else None | [] => None end
    | XSeq r1 r2 => xmatch f r1 s cs (fun s' cs' => xmatch f r2 s' cs' k)
    | XStar r1 =>
        match xmatch f r1 s cs
                (fun s' cs' => if Nat.ltb (length s') (length s)
                               then xmatch f (XStar r1) s' cs' k else None) with
        | Some res => Some res
        | None => k s cs
        end
    | XOpt r1 => match xmatch f r1 s cs k with Some res => Some res | None => k s cs end
    | XAlt r1 r2 => match xmatch f r1 s cs k with Some res => Some res | None => xmatch f r2 s cs k end
    | XGroup n r1 =>
        xmatch f r1 s cs (fun s' cs' => k s' ((n, firstn (length s - length s') s) :: cs'))
    end
  end.

(** [re.search] *)
Fixpoint xsearch (r : xregex) (s : ustr) : option caps :=
  match xmatch (fuel_for s) r s [] (fun _ cs => Some cs) with
  | Some cs => Some cs
  | None => match s with [] => None | _ :: t => xsearch r t end
  end.

(** The patterns of [Regex] in this syntax. *)
Fixpoint of_regex (r : regex) : xregex :=
  match r with
  | RChar c => XClass (fun x => N.eqb x c)
  | RDigit => XClass is_digit
  | RSpace => XClass is_space
  | RSeq r1 r2 => XSeq (of_regex r1) (of_regex r2)
  | RStar r1 => XStar (of_regex r1)
  | ROpt r1 => XOpt (of_regex r1)
  | RGroup n r1 => XGroup n (of_regex r1)
  end.

Definition XChar (c : N) : xregex := XClass (fun x => N.eqb x c).
Definition XDigit : xregex := XClass is_digit.
Definition XNotDigit : xregex := XClass (fun x => negb (is_digit x)).  (* [^\d] *)
Definition XSpace : xregex := XClass is_space.
Definition XPlus (r : xregex) : xregex := XSeq r (XStar r).

Fixpoint XSeqs (rs : list xregex) : xregex :=
  match rs with
  | [] => XStar (XChar 0) (* unused: every pattern below is non-empty *)
  | [r] => r
  | r :: rs' => XSeq r (XSeqs rs')
  end.

(** A literal word. *)
Definition XLit (w : ustr) : xregex := XSeqs (map XChar w).

(** [(w1|w2|...)] over literal words. *)
Fixpoint XAlts (ws : list ustr) : xregex :=
  match ws with
  | [] => XClass (fun _ => false)
  | [w] => XLit w
  | w :: ws' => XAlt (XLit w) (XAlts ws')
  end.

(** Relational reading of a pattern: [xm r s s'] when [r] can consume the
    prefix of [s] that leaves [s']; a starred item consumes input at every
    iteration, as in the matcher. *)
Inductive xm : xregex -> ustr -> ustr -> Prop :=
| xm_class : forall p x s, p x = true -> xm (XClass p) (x :: s) s
| xm_seq : forall r1 r2 s s1 s2, xm r1 s s1 -> xm r2 s1 s2 -> xm (XSeq r1 r2) s s2
| xm_star_nil : forall r s, xm (XStar r) s s
| xm_star_step : forall r s s1 s2,
    xm r s s1 -> (length s1 < length s)%nat -> xm (XStar r) s1 s2 -> xm (XStar r) s s2
| xm_opt_nil : forall r s, xm (XOpt r) s s
| xm_opt_some : forall r s s1, xm r s s1 -> xm (XOpt r) s s1
| xm_alt_l : forall r1 r2 s s1, xm r1 s s1 -> xm (XAlt r1 r2) s s1
| xm_alt_r : forall r1 r2 s s1, xm r2 s s1 -> xm (XAlt r1 r2) s s1
| xm_group : forall n r s s1, xm r s s1 -> xm (XGroup n r) s s1.

(** Every capture of group [n] of [r] has the property [P n]. *)
Fixpoint groups_ok (P : nat -> ustr -> Prop) (r : xregex) : Prop :=
  match r with
  | XClass _ => True
  | XSeq r1 r2 | XAlt r1 r2 => groups_ok P r1 /\ groups_ok P r2
  | XStar r1 | XOpt r1 => groups_ok P r1
  | XGroup n r1 =>
      groups_ok P r1 /\ forall s s', xm r1 s s' -> P n (firstn (length s - length s') s)
  end.

(** Group [n] is entered on every successful path through [r]. *)
Fixpoint mandatory (n : nat) (r : xregex) : bool :=
  match r with
  | XClass _ | XStar _ | XOpt _ => false
  | XSeq r1 r2 => mandatory n r1 || mandatory n r2
  | XAlt r1 r2 => mandatory n r1 && mandatory n r2
  | XGroup m r1 => Nat.eqb m n || mandatory n r1
  end.

(** Size of a pattern: [cst r * S (length s)] steps of fuel suffice for [r]
    on [s]. *)
Fixpoint cst (r : xregex) : nat :=
  match r with
  | XClass _ => 1
  | XSeq r1 r2 | XAlt r1 r2 => S (cst r1 + cst r2)
  | XStar r1 | XOpt r1 | XGroup _ r1 => S (cst r1)
  end.

(** Group numbers forgotten. *)
Fixpoint erase (r : xregex) : xregex :=
  match r with
  | XClass p => XClass p
  | XSeq r1 r2 => XSeq (erase r1) (erase r2)
  | XStar r1 => XStar (erase r1)
  | XOpt r1 => XOpt (erase r1)
  | XAlt r1 r2 => XAlt (erase r1) (erase r2)
  | XGroup _ r1 => XGroup 0 (erase r1)
  end.

Definition suffix (t s : ustr) : Prop := exists p, (p ++ t)%list = s.

End XRegex.

(* ------------------------------------------------------------------ *)
(** ** query_parser.py: the single-field extractors *)

Module ParserX.
Import Regex XRegex FS.

(** [needle in hay] on [str] *)
Fixpoint is_prefix (p s : ustr) : bool :=
  match p, s with
  | [], _ => true
  | x :: p', y :: s' => N.eqb x y && is_prefix p' s'
  | _ :: _, [] => false
  end.

Fixpoint contains (needle hay : ustr) : bool :=
  is_prefix needle hay || match hay with [] => false | _ :: hay' => contains needle hay' end.

(** [any(keyword in question for keyword in kws)] *)
Definition any_in (kws : list ustr) (question : ustr) : bool :=
  existsb (fun kw => contains kw question) kws.

(** [m.group(n)] of a group the pattern always sets. *)
Definition group_str (n : nat) (m : caps) : ustr :=
  match group n m with Some v => v | None => [] end.

(** A non-empty run of [\d] characters. *)
Definition digit_word (w : ustr) : Prop := w <> [] /\ Forall (fun c => is_digit c = true) w.

(** [r'(\d+)월'] *)
Definition month_re : xregex := XSeq (XGroup 1 (XPlus XDigit)) (XChar Parser.WOL).

(** [r'(\d+)월\s*(\d+)일'] *)
Definition date_re : xregex :=
  XSeqs [XGroup 1 (XPlus XDigit); XChar Parser.WOL; XStar XSpace;
         XGroup 2 (XPlus XDigit); XChar Parser.IL].

(** [f'{n:02d}'] *)
Definition fmt02 (n : Z) : string :=
  if (0 <=? n) && (n <? 10) then "0" ++ Z_to_dec n else Z_to_dec n.

(** [_extract_period(question)] *)
Definition extract_period (question : ustr) : option (string * string) :=
  match xsearch month_re question with
  | Some m =>
      let month := int_group 1 m in
      Some ("2025-" ++ fmt02 month ++ "-01", "2025-" ++ fmt02 month ++ "-31")
  | None =>
      match xsearch date_re question with
      | Some m =>
          let month := int_group 1 m in
          let day := int_group 2 m in
          Some ("2025-" ++ fmt02 month ++ "-" ++ fmt02 day,
                "2025-" ++ fmt02 month ++ "-" ++ fmt02 day)
      | None => None
      end
  end.

Definition SENIOR : ustr := [49884; 45768; 50612]%N.  (* 시니어 *)
Definition RATIO : ustr := [48708; 51473]%N.          (* 비중 *)

(** [r'시니어[^\d]*비중[^\d]*(\d+)%?[^\d]*(이상|넘는)'] *)
Definition senior_re : xregex :=
  XSeqs [XLit SENIOR; XStar XNotDigit; XLit RATIO; XStar XNotDigit;
         XGroup 1 (XPlus XDigit); XOpt (XChar 37); XStar XNotDigit;
         XGroup 2 (XAlts [[51060; 49345]; [45336; 45716]]%N)].  (* 이상|넘는 *)

(** ['비중이 높은', '비중 높은', '많은', '높고', '높으면서'] *)
Definition high_keywords : list ustr :=
  [[48708; 51473; 51060; 32; 45458; 51008]; [48708; 51473; 32; 45458; 51008];
   [47566; 51008]; [45458; 44256]; [45458; 51004; 47732; 49436]]%N.

(** ['비중이 낮은', '비중 낮은', '적은', '낮으면서'] *)
Definition low_keywords : list ustr :=
  [[48708; 51473; 51060; 32; 45230; 51008]; [48708; 51473; 32; 45230; 51008];
   [51201; 51008]; [45230; 51004; 47732; 49436]]%N.

(** [_extract_senior_threshold(question)]; ['custom:<v>'] keeps the text
    [v] of group 1. [parse] stores the result as it is (every returned
    string is truthy). *)
Definition extract_senior_threshold (question : ustr) : option senior_thr :=
  if negb (contains SENIOR question) then None
  else match xsearch senior_re question with
       | Some m => Some (SCustom (group_str 1 m))
       | None =>
           if any_in high_keywords question then Some SAvg
           else if any_in low_keywords question then Some SBelowAvg
           else Some SAvg
       end.

(** [r'응답[^\d]*(\d+)건'] *)
Definition min_resp_re : xregex :=
  XSeqs [XLit [51025; 45813]%N; XStar XNotDigit; XGroup 1 (XPlus XDigit); XChar 44148].

(** [_extract_min_responses(question)] *)
Definition extract_min_responses (question : ustr) : Z :=
  match xsearch min_resp_re question with
  | Some m => int_group 1 m
  | None => 5
  end.

(** [parse]: ['min_responses': 5], then
    [min_resp = self._extract_min_responses(question); if min_resp: filters['min_responses'] = min_resp]. *)
Definition parse_min_responses (question : ustr) : Z :=
  let min_resp := extract_min_responses question in
  if Z.eqb min_resp 0 then 5 else min_resp.

(** [r'매장[^\d]*(\d{4})'] *)
Definition store_code_re : xregex :=
  XSeqs [XLit [47588; 51109]%N; XStar XNotDigit;
         XGroup 1 (XSeqs [XDigit; XDigit; XDigit; XDigit])].

(** [_extract_store_code(question)] *)
Definition extract_store_code (question : ustr) : option ustr :=
  match xsearch store_code_re question with Some m => group 1 m | None => None end.

(** [[가-힣]] *)
Definition is_hangul (c : N) : bool := N.leb 44032 c && N.leb c 55203.

Definition JEOM : N := 51216.  (* 점 *)

(** [r'([가-힣]+점)'] *)
Definition store_name_re : xregex :=
  XGroup 1 (XSeq (XPlus (XClass is_hangul)) (XChar JEOM)).

(** [_extract_store_name(question)] *)
Definition extract_store_name (question : ustr) : option ustr :=
  match xsearch store_name_re question with Some m => group 1 m | None => None end.

End ParserX.

(* ------------------------------------------------------------------ *)
(** ** A second reading of step 3 of the Senior Gap filter *)

Module SpecReading.
Import SeniorGap.

(** Step 3 with the mean senior NPS taken over the agents that survive
    step 2 and have a senior response (instead of [avg_senior_nps] of the
    whole [tcrew_stats]). *)
Definition after_step3_survivor_mean (df : list Table.row) (f : FS.filters) : py (list agent) :=
  let dff := scope_filter f df in
  let stats := tcrew_stats dff in
  r2 <- step2 f (avg_senior_rate dff) stats ;
  let ws := filter (fun a => Nat.ltb 0 (a_senior a)) r2 in
  let m := mean (map (fun a => fmt1 (a_senior_nps a)) ws) in
  inr (filter (fun a => Qltb (fmt1 (a_senior_nps a)) m) ws).

End SpecReading.

(* ------------------------------------------------------------------ *)
(** ** Concrete inputs *)

Module Inputs.
Import Table FS.

(** A response of agent [nm] (whose id is also [nm]) at one store of one
    team, dated [d], with senior flag [sen] and score [s]. *)
Definition resp (d : ymd) (nm : ustr) (sen : ustr) (s : Q) : row :=
  mkRow (Some d) (Some s) nm nm [68%N] [83%N] [84%N] sen.

Definition A : ustr := [65%N].
Definition B : ustr := [66%N].
Definition C : ustr := [67%N].
Definition N_ : ustr := [78%N].  (* "N": not a senior response *)
Definition Y_ : ustr := [89%N].  (* "Y" *)

(** "9~12월 대비 1월" *)
Definition q_range : ustr := [57; 126; 49; 50; 50900; 32; 45824; 48708; 32; 49; 50900]%N.
(** "2일 대비 5일" *)
Definition q_days : ustr := [50; 51068; 32; 45824; 48708; 32; 53; 51068]%N.
(** "12월 대비 1월 2일 대비 5일" *)
Definition q_month_and_days : ustr :=
  ([49; 50; 50900; 32; 45824; 48708; 32; 49; 50900; 32]%N ++ q_days)%list.

(** The error dict [_extract_comparison_periods] returns for [q_days]. *)
Definition error_cp : cp := CPError Parser.error_message "오류" "오류".
Definition error_filters : filters :=
  mkFilters None None None None None None None None None None None (Some (Some error_cp)) None.

(** An agent with seven responses (six promoters, one detractor). *)
Definition seven_rows : list row :=
  map (resp (2026, 1, 5) A N_) [10; 10; 10; 10; 10; 9; 3]%Q.
(** [{'min_responses': 10}] *)
Definition min10_filters : filters :=
  mkFilters None None None None None None None (Some (Some 10)) None None None None None.

(** A dict as [parse] builds it, with [nps_target] 0 ("NPS 0% 미만"). *)
Definition target0_filters : filters :=
  mkFilters None (Some None) None (Some None) (Some (Some 0)) (Some (Some Below)) None
            (Some (Some 5)) None None None None (Some (Some SimpleFilter)).

(** Senior Gap: agent A has five senior responses (10, 10, 0, 0, 7: senior
    NPS 0), agent B five senior responses of 10 (senior NPS 100), agent C
    one senior 0 and nine non-senior 10s (senior proportion 10%). *)
Definition senior_rows : list row :=
  (map (resp (2026, 1, 5) A Y_) [10; 10; 0; 0; 7]%Q ++
   map (resp (2026, 1, 5) B Y_) [10; 10; 10; 10; 10]%Q ++
   [resp (2026, 1, 5) C Y_ 0%Q] ++
   map (resp (2026, 1, 5) C N_) [10; 10; 10; 10; 10; 10; 10; 10; 10]%Q)%list.

(** Period Comparison: A answers in both default windows, B only in the
    first one. *)
Definition period_frame : PeriodComparison.frame :=
  PeriodComparison.mkFrame true
    [resp (2025, 10, 1) A N_ 10%Q; resp (2026, 1, 10) A N_ 3%Q; resp (2025, 11, 2) B N_ 9%Q].
Definition min1_filters : filters :=
  mkFilters None None None None None None None None (Some (Some 1)) (Some (Some 1)) None None None.

(** Simple Filter: A and C tie at the minimum NPS (-100), B is at 100. *)
Definition tie_rows : list row :=
  [resp (2026, 1, 5) A N_ 2%Q; resp (2026, 1, 6) B N_ 10%Q; resp (2026, 1, 7) C N_ 5%Q].

(** What the Period Comparison analyzer computes on [period_frame]. *)
Definition period_result : PeriodComparison.result :=
  match PeriodComparison.analyze period_frame min1_filters with
  | inr r => r | inl _ => PeriodComparison.empty_result [] None
  end.
Definition period_aggs : list PeriodComparison.tstat * list PeriodComparison.tstat :=
  match PeriodComparison.period_aggregates period_frame min1_filters with
  | inr p => p | inl _ => ([], [])
  end.
(** B's join key (agent, agent id, dealer, store). *)
Definition key_B : list ustr := [B; B; [68%N]; [83%N]].

(** What the Senior Gap analyzer returns on [senior_rows]. *)
Definition senior_result (f : filters) : SeniorGap.result :=
  match SeniorGap.analyze senior_rows f with
  | inr r => r | inl _ => SeniorGap.mkResult [] None
  end.
Definition min10 : entry Z := Some (Some 10).

(** What step 2 keeps of [senior_rows] (agents A and B). *)
Definition senior_step2 : list SeniorGap.agent :=
  match SeniorGap.step2 empty_filters (SeniorGap.avg_senior_rate senior_rows)
                        (SeniorGap.tcrew_stats senior_rows) with
  | inr r => r | inl _ => []
  end.

Definition agent_A : SeniorGap.agent :=
  hd (SeniorGap.mkAgent [] [] [] [] 0 0 0 0 0 0 0) senior_step2.

(** The Simple Filter table of [tie_rows] with a floor of one response. *)
Definition tie_table : list SimpleFilter.tcrew_row :=
  match SimpleFilter.analyze_by_tcrew tie_rows min1_filters with
  | inr t => t | inl _ => []
  end.

End Inputs.

(* ------------------------------------------------------------------ *)
(** ** The per-store tables and the insight figures *)

(** [SimpleFilterAnalyzer._analyze_by_store]. *)
Module SimpleStore.
Import Table FS SimpleFilter.

(** A row of [grouped] in [_analyze_by_store]. *)
Record store_row := mkStoreRow {
  s_team : ustr; s_dealer : ustr; s_store : ustr;
  s_count : nat;            (* 응답수 *)
  s_promoters : nat;        (* 추천고객 *)
  s_detractors : nat;       (* 비추천고객 *)
  s_nps : option Q }.       (* NPS_value *)

Definition store_key (x : store_row) : list ustr := [s_team x; s_dealer x; s_store x].

(** [_analyze_by_store(filters)]: the same floor and NPS target as the
    per-agent table, on [groupby(['마케팅팀명', '대리점명', '매장명'])]. *)
Definition analyze_by_store (df : list row) (f : filters) : py (list store_row) :=
  let grouped :=
    map (fun '(k, g) =>
           let c := count_valid g in
           let p := Nps.promoters (scores g) in
           let d := Nps.detractors (scores g) in
           match k with
           | [tm; dl; st] => mkStoreRow tm dl st c p d (nps_value p d c)
           | _ => mkStoreRow [] [] [] c p d (nps_value p d c)
           end)
        (groupby (fun r => [mteam r; dealer r; store r]) df) in
  kept <- min_filter f s_count grouped ;
  let kept := filter (fun x => target_keep f (s_nps x)) kept in
  inr (sort_by (fun a b => key_ltb (store_key a) (store_key b)
                           || (key_eqb (store_key a) (store_key b) && le_nan (s_nps a) (s_nps b)))
               kept).

End SimpleStore.

(** [SeniorGapAnalyzer._analyze_by_store] and the figures of
    [SeniorGapAnalyzer._generate_insights]. *)
Module SeniorStore.
Import Table FS SeniorGap.

(** A row of [store_stats]. *)
Record store_row := mkStoreRow {
  st_team : ustr; st_dealer : ustr; st_store : ustr;
  st_total : nat;           (* 총응답수 *)
  st_promoters : nat; st_detractors : nat;
  st_senior : nat;          (* 시니어응답수 *)
  st_nps : Q;               (* NPS_value *)
  st_senior_rate : Q;       (* 시니어비중_value *)
  st_senior_nps : Q }.      (* the value rendered into 시니어NPS *)

Definition store_key (x : store_row) : list ustr := [st_team x; st_dealer x; st_store x].

(** The loop over [df_satisfied.groupby(['마케팅팀명', '대리점명', '매장명'])]. *)
Definition store_stats (ds : list row) : list store_row :=
  map (fun '(k, g) =>
         let total := length g in
         let sen := filter is_senior g in
         let senior_nps := match sen with [] => 0%Q | _ => Nps.calculate_nps (scores sen) end in
         let senior_rate := if Nat.ltb 0 total
                            then (inject_Z (Z.of_nat (length sen)) / inject_Z (Z.of_nat total) * 100)%Q
                            else 0%Q in
         let '(tm, dl, st) := match k with [tm; dl; st] => (tm, dl, st) | _ => ([], [], []) end in
         mkStoreRow tm dl st total (Nps.promoters (scores g)) (Nps.detractors (scores g))
                    (length sen) (Nps.calculate_nps (scores g)) senior_rate senior_nps)
      (groupby (fun r => [mteam r; dealer r; store r]) ds).

(** [_analyze_by_store(df_filtered, filters, avg_senior_rate, avg_nps,
    nps_target, nps_comparison, result_tcrew)]; an empty frame is [[]]. *)
Definition analyze_by_store (dff : list row) (f : filters) (avg_rate : Q)
    (nps_t : Z) (cmp : option comparison) (result_tcrew : list agent) : py (list store_row) :=
  let ids := map a_tcrew_id result_tcrew in
  let ds := filter (fun r => existsb (ustr_eqb (tcrew_id r)) ids) dff in
  match ds with
  | [] => inr []
  | _ =>
      let s := store_stats ds in
      let s := match cmp with
               | Some Below => filter (fun x => Qltb (st_nps x) (inject_Z nps_t)) s
               | _ => filter (fun x => Qle_bool (inject_Z nps_t) (st_nps x)) s
               end in
      s <- match get (senior_threshold f) with
           | Some SAvg => inr (filter (fun x => Qle_bool avg_rate (st_senior_rate x)) s)
           | Some SBelowAvg => inr (filter (fun x => Qltb (st_senior_rate x) avg_rate) s)
           | Some (SCustom v) =>
               c <- float_of_digits v ;
               inr (filter (fun x => Qle_bool c (st_senior_rate x)) s)
           | None => inr (filter (fun x => Qle_bool avg_rate (st_senior_rate x)) s)
           end ;
      match get_or (min_responses f) 5 with
      | Some m =>
          let s := filter (fun x => Nat.leb 1 (st_senior x))
                          (filter (fun x => m <=? Z.of_nat (st_total x)) s) in
          inr (sort_by (fun a b => Qltb (st_senior_rate b) (st_senior_rate a)
                                   || (Qeq_bool (st_senior_rate a) (st_senior_rate b)
                                       && Qle_bool (st_nps a) (st_nps b))) s)
      | None => inl "TypeError"
      end
  end.

(** The NPS target and comparison [analyze] hands on after step 4. *)
Definition target_of (f : filters) : Z * option comparison :=
  match get (nps_target f) with
  | Some t => (t, get_or (nps_comparison f) Below)
  | None => (87, Some Below)
  end.

(** [by_store] of [analyze(filters)]: [None] for the early return (no
    agent at all), which has no store table. *)
Definition by_store (df : list row) (f : filters) : py (option (list store_row)) :=
  let dff := scope_filter f df in
  match tcrew_stats dff with
  | [] => inr None
  | _ =>
      r <- analyze df f ;
      let '(t, cmp) := target_of f in
      s <- analyze_by_store dff f (avg_senior_rate dff) t cmp (by_tcrew r) ;
      inr (Some s)
  end.

(** The figures [_generate_insights] reports for a non-empty table: the
    count, the mean senior proportion and NPS, the first row (TOP 1), the
    agents with a senior proportion of at least 30, and those whose NPS and
    (formatted) senior NPS differ by at least 10. *)
Record report := mkReport {
  rp_count : nat;
  rp_mean_rate : Q;
  rp_mean_nps : Q;
  rp_top : agent;
  rp_high_senior : nat;
  rp_large_gap : nat }.

Definition insight_figures (result : list agent) : option report :=
  match result with
  | [] => None
  | top :: _ =>
      Some (mkReport (length result)
              (mean (map a_senior_rate result)) (mean (map a_nps result)) top
              (length (filter (fun a => Qle_bool 30 (a_senior_rate a)) result))
              (length (filter (fun a => Qle_bool 10 (PeriodComparison.Qabs_ (a_nps a - fmt1 (a_senior_nps a))))
                              result)))
  end.

End SeniorStore.

(** [PeriodComparisonAnalyzer._analyze_by_store] and the figures of
    [PeriodComparisonAnalyzer._generate_insights]. *)
Module PeriodStore.
Import Table FS PeriodComparison.

(** A row of [period1_store] or [period2_store]. *)
Record sstat := mkSstat {
  ss_team : ustr; ss_dealer : ustr; ss_store : ustr;
  ss_total : nat; ss_nps : Q }.

Definition sstat_key (s : sstat) : list ustr := [ss_team s; ss_dealer s; ss_store s].

(** The loop over [groupby(['마케팅팀명', '대리점명', '매장명'])] of a window. *)
Definition aggregate_by_store (df : list row) : list sstat :=
  map (fun '(k, g) =>
         let '(tm, dl, st) := match k with [tm; dl; st] => (tm, dl, st) | _ => ([], [], []) end in
         mkSstat tm dl st (length g) (Nps.calculate_nps (scores g)))
      (groupby (fun r => [mteam r; dealer r; store r]) df).

(** A row of the merged store frame, with [NPS증감_value]. *)
Record sjoined := mkSjoined {
  sj_team : ustr; sj_dealer : ustr; sj_store : ustr;
  sj_nps1 : Q; sj_count1 : nat;
  sj_nps2 : Q; sj_count2 : nat;
  sj_delta : Q }.

Definition sj_key (j : sjoined) : list ustr := [sj_team j; sj_dealer j; sj_store j].

(** [pd.merge(..., on=['마케팅팀명', '대리점명', '매장명'], how='inner')]. *)
Definition merge_stores (p1 p2 : list sstat) : list sjoined :=
  flat_map (fun a =>
              map (fun b => mkSjoined (ss_team a) (ss_dealer a) (ss_store a)
                                      (ss_nps a) (ss_total a) (ss_nps b) (ss_total b)
                                      (ss_nps b - ss_nps a)%Q)
                  (filter (fun b => key_eqb (sstat_key a) (sstat_key b)) p2))
           p1.

(** [_analyze_by_store(df_period1, df_period2, ..., filters, trend)]; an
    empty frame is [[]]. *)
Definition analyze_by_store (d1 d2 : list row) (f : filters) (t : option trend_dir)
    : py (list sjoined) :=
  match aggregate_by_store d1 with
  | [] => inr []
  | p1 =>
  match aggregate_by_store d2 with
  | [] => inr []
  | p2 =>
  match merge_stores p1 p2 with
  | [] => inr []
  | merged =>
      let r := match t with
               | Some Decrease => filter (fun j => Qltb (sj_delta j) 0) merged
               | Some Increase => filter (fun j => Qltb 0 (sj_delta j)) merged
               | None => merged
               end in
      let r := match get (nps_target f) with
               | Some tg =>
                   match get_or (nps_comparison f) Below with
                   | Some Below => filter (fun j => Qltb (sj_nps2 j) (inject_Z tg)) r
                   | _ => filter (fun j => Qle_bool (inject_Z tg) (sj_nps2 j)) r
                   end
               | None => r
               end in
      match min_for (min_responses_period1 f) f, min_for (min_responses_period2 f) f with
      | Some m1, Some m2 =>
          let r := filter (fun j => (m1 <=? Z.of_nat (sj_count1 j))
                                    && (m2 <=? Z.of_nat (sj_count2 j))) r in
          inr (match t with
               | Some Decrease => sort_by (fun a b => Qle_bool (sj_delta a) (sj_delta b)) r
               | Some Increase => sort_by (fun a b => Qle_bool (sj_delta b) (sj_delta a)) r
               | None => sort_by (fun a b => Qle_bool (Qabs_ (sj_delta b)) (Qabs_ (sj_delta a))) r
               end)
      | _, _ => inl "TypeError"
      end
  end
  end
  end.

(** The figures [_generate_insights(result, trend)] reports for a
    non-empty table: the count, the mean change, the first row (TOP 1)
    and, under a trend, the rows that moved by at least 10 points. *)
Record report := mkReport {
  pr_count : nat;
  pr_avg_change : Q;
  pr_top : joined;
  pr_large : nat }.

Definition insight_figures (t : option trend_dir) (result : list joined) : option report :=
  match result with
  | [] => None
  | top :: _ =>
      Some (mkReport (length result) (SeniorGap.mean (map j_delta result)) top
              (match t with
               | Some Decrease => length (filter (fun j => Qle_bool (j_delta j) (-10)) result)
               | Some Increase => length (filter (fun j => Qle_bool 10 (j_delta j)) result)
               | None => 0
               end))
  end.


End PeriodStore.

(** [QueryParser._detect_trend] and [QueryParser._detect_analysis_type]. *)
Module ParserKind.
Import FS ParserX.

Definition NPS_L : ustr := [110; 112; 115]%N.            (* nps *)
Definition NPS_U : ustr := [78; 80; 83]%N.               (* NPS *)
Definition DAEBI : ustr := [45824; 48708]%N.             (* 대비 *)
Definition BIGYO : ustr := [48708; 44368]%N.             (* 비교 *)
Definition GIGAN : ustr := [44592; 44036]%N.             (* 기간 *)
Definition SANGSEUNG : ustr := [49345; 49849]%N.         (* 상승 *)
Definition HARAK : ustr := [54616; 46973]%N.             (* 하락 *)
Definition MAEJANG : ustr := [47588; 51109]%N.           (* 매장 *)
Definition DAERIJEOM : ustr := [45824; 47532; 51216]%N.  (* 대리점 *)
Definition GAP_L : ustr := [103; 97; 112]%N.             (* gap *)
Definition GAP_U : ustr := [71; 65; 80]%N.               (* GAP *)
Definition CHAI : ustr := [52264; 51060]%N.              (* 차이 *)

(** ['비중', '높은', '높고', '높으면서', '낮은', '낮고', '낮으면서', '많은', '적은'] *)
Definition senior_keywords : list ustr :=
  [[48708; 51473]; [45458; 51008]; [45458; 44256]; [45458; 51004; 47732; 49436];
   [45230; 51008]; [45230; 44256]; [45230; 51004; 47732; 49436];
   [47566; 51008]; [51201; 51008]]%N.

(** [_detect_trend(question)]: ['하락', '낮아진', '떨어진'] before
    ['상승', '높아진', '올라간']. *)
Definition detect_trend (question : ustr) : option trend_dir :=
  if contains HARAK question || contains [45230; 50500; 51652]%N question
     || contains [46504; 50612; 51652]%N question
  then Some Decrease
  else if contains SANGSEUNG question || contains [45458; 50500; 51652]%N question
          || contains [50732; 46972; 44036]%N question
  then Some Increase
  else None.

(** [_detect_analysis_type(question)]: each nested [if] that does not
    return falls through to the next rule. *)
Definition detect_analysis_type (question : ustr) : atype :=
  let has_nps := contains NPS_L question || contains NPS_U question in
  if has_nps && negb (contains SENIOR question) && negb (contains DAEBI question)
     && negb (contains BIGYO question)
  then SimpleFilter
  else if contains SENIOR question && has_nps
          && (any_in senior_keywords question || contains GAP_L question
              || contains GAP_U question || contains CHAI question)
  then SeniorGap
  else if (contains GIGAN question || contains DAEBI question || contains BIGYO question)
          && (contains SANGSEUNG question || contains HARAK question)
  then PeriodComparison
  else if contains MAEJANG question || contains DAERIJEOM question
  then StoreAnalysis
  else General.

(** [str.lower()] as a map on characters. *)
Definition lower_with (lower_char : N -> ustr) (question : ustr) : ustr :=
  flat_map lower_char question.

(** Lower-casing of ASCII letters only. *)
Definition ascii_lower (c : N) : ustr :=
  if N.leb 65 c && N.leb c 90 then [c + 32]%N else [c].

End ParserKind.

(** [SimpleFilterAnalyzer._get_store_tcrew_detail(filters)]: for each
    store, its agents with their share of the store's responses and their
    NPS against the store's. *)
Module SimpleDetail.
Import Table SimpleFilter.

(** A row of [grouped], with its [매장명]: 담당자, 응답수, NPS_value,
    매장내_모수_비중_value, vs매장_value and 상태. *)
Record detail_row := mkDetailRow {
  d_store : ustr; d_tcrew : ustr; d_count : nat;
  d_nps : option Q; d_share : option Q; d_vs : option Q; d_status : string }.

(** [Series.unique()]: the first occurrences, in order. *)
Fixpoint unique_from (seen : list ustr) (l : list ustr) : list ustr :=
  match l with
  | [] => []
  | x :: l' => if existsb (ustr_eqb x) seen then unique_from seen l'
               else x :: unique_from (x :: seen) l'
  end.

Definition store_tcrew_detail (df : list row) : list (ustr * list detail_row) :=
  let store_rows (s : ustr) := filter (fun r => ustr_eqb (store r) s) df in
  (* store_total: groupby('매장명')['추천지수'].count() *)
  let store_total (s : ustr) := count_valid (store_rows s) in
  (* store_nps: (추천고객.sum() - 비추천고객.sum()) / len(x) * 100 *)
  let store_nps (s : ustr) :=
    let g := store_rows s in
    option_map (fun x => (x * 100)%Q)
      (div_q (Z.of_nat (Nps.promoters (scores g)) - Z.of_nat (Nps.detractors (scores g)))
             (length g)) in
  let grouped :=
    map (fun '(k, g) =>
           let '(st, tc) := match k with [st; tc] => (st, tc) | _ => ([], []) end in
           let c := count_valid g in
           let nps := nps_value (Nps.promoters (scores g)) (Nps.detractors (scores g)) c in
           let share := option_map (fun x => round1 (x * 100)%Q)
                                   (div_q (Z.of_nat c) (store_total st)) in
           let vs := match nps, store_nps st with
                     | Some a, Some b => Some (round1 (a - b))
                     | _, _ => None
                     end in
           mkDetailRow st tc c nps share vs (get_status vs))
        (groupby (fun r => [store r; tcrew r]) df) in
  map (fun s => (s, sort_by (fun a b => le_nan (d_nps a) (d_nps b))
                            (filter (fun x => ustr_eqb (d_store x) s) grouped)))
      (unique_from [] (map d_store grouped)).

End SimpleDetail.

(** Further concrete inputs. *)
Module MoreInputs.
Import Table FS Inputs.

(** Senior Gap: A and B answer only as seniors, A with five 0s (senior
    NPS -100), B with five 10s (senior NPS 100). *)
Definition senior_pass_rows : list row :=
  (map (resp (2026, 1, 5) A Y_) [0; 0; 0; 0; 0]%Q ++
   map (resp (2026, 1, 5) B Y_) [10; 10; 10; 10; 10]%Q)%list.

Definition senior_pass_result : SeniorGap.result :=
  match SeniorGap.analyze senior_pass_rows empty_filters with
  | inr r => r | inl _ => SeniorGap.mkResult [] None
  end.

(** Two stores of one dealer: agent A at store "S", agent B at store "R",
    each with one response in the autumn of 2025 and one in January 2026. *)
Definition at_store (st : ustr) (d : ymd) (nm : ustr) (s : Q) : row :=
  mkRow (Some d) (Some s) nm nm [68%N] st [84%N] N_.

Definition store_rows1 : list row :=
  [at_store [83%N] (2025, 10, 1) A 10%Q; at_store [82%N] (2025, 11, 2) B 2%Q].
Definition store_rows2 : list row :=
  [at_store [83%N] (2026, 1, 10) A 3%Q; at_store [82%N] (2026, 1, 11) B 9%Q].

(** The Simple Filter store table of both windows together. *)
Definition simple_store_table : list SimpleStore.store_row :=
  match SimpleStore.analyze_by_store (store_rows1 ++ store_rows2) min1_filters with
  | inr t => t | inl _ => []
  end.

(** The Period Comparison store table of the two windows, no trend. *)
Definition period_store_table : list PeriodStore.sjoined :=
  match PeriodStore.analyze_by_store store_rows1 store_rows2 min1_filters None with
  | inr t => t | inl _ => []
  end.

(** The Senior Gap store table of [senior_pass_rows]. *)
Definition senior_store_table : list SeniorStore.store_row :=
  match SeniorStore.by_store senior_pass_rows empty_filters with
  | inr (Some s) => s | _ => []
  end.



(** "NPS 12월 대비 1월 하락" *)
Definition q_period_drop : ustr :=
  [78; 80; 83; 32; 49; 50; 50900; 32; 45824; 48708; 32; 49; 50900; 32; 54616; 46973]%N.

(** Store "S" with agents A (two responses) and B (one), store "R" with
    agent B. *)
Definition detail_rows : list row :=
  (store_rows1 ++ store_rows2 ++ [at_store [83%N] (2026, 1, 12) B 7%Q])%list.

Definition detail_table : list (ustr * list SimpleDetail.detail_row) :=
  SimpleDetail.store_tcrew_detail detail_rows.

(** "１２월 NPS", with full-width digits. *)
Definition q_fw_month : ustr := [65297; 65298; 50900; 32; 78; 80; 83]%N.
(** "시니어 비중 ３０% 이상", with full-width digits. *)
Definition q_fw_senior : ustr :=
  [49884; 45768; 50612; 32; 48708; 51473; 32; 65299; 65296; 37; 32; 51060; 49345]%N.
(** "매장 １２３４５", with full-width digits. *)
Definition q_fw_store : ustr := [47588; 51109; 32; 65297; 65298; 65299; 65300; 65301]%N.
(** A dict holding the threshold ['custom:３０'] parsed from [q_fw_senior]. *)
Definition fw_senior_filters : filters :=
  mkFilters None None None None None None (Some (Some (SCustom [65299; 65296]%N)))
            None None None None None None.

End MoreInputs.

(* ================================================================== *)
(** * Proofs *)

Lemma Qltb_iff : forall a b, Qltb a b = true <-> (a < b)%Q.
Proof.
  intros a b; unfold Qltb; rewrite negb_true_iff; split; intro H.
  - apply Qnot_le_lt; intro H'; apply Qle_bool_iff in H'; congruence.
  - destruct (Qle_bool b a) eqn:E; [|reflexivity].
    apply Qle_bool_iff in E; exfalso; apply (Qlt_not_le _ _ H E).
Qed.


(** ** Rounding *)

Lemma round_half_even_int : forall q z, (q == inject_Z z)%Q -> round_half_even q = z.
Proof.
  intros q z Hq; unfold round_half_even.
  assert (Hf : Qfloor q = z).
  { pose proof (Qfloor_resp_le q (inject_Z z) (proj2 (Qle_lteq _ _) (or_intror Hq))).
    pose proof (Qfloor_resp_le (inject_Z z) q (proj2 (Qle_lteq _ _) (or_intror (Qeq_sym _ _ Hq)))).
    rewrite Qfloor_Z in *; lia. }
  rewrite Hf.
  assert (Hr : Qltb (q - inject_Z z) (1 # 2) = true).
  { apply Qltb_iff; rewrite Hq; unfold Qminus; rewrite Qplus_opp_r; reflexivity. }
  now rewrite Hr.
Qed.

Lemma round_half_even_bounds : forall (a b : Z) q,
  (inject_Z a <= q <= inject_Z b)%Q -> a <= round_half_even q <= b.
Proof.
  intros a b q [Ha Hb].
  pose proof (Qfloor_resp_le _ _ Ha) as Fa; rewrite Qfloor_Z in Fa.
  pose proof (Qfloor_resp_le _ _ Hb) as Fb; rewrite Qfloor_Z in Fb.
  unfold round_half_even.
  set (f := Qfloor q) in *.
  assert (Hup : f = b -> (q - inject_Z f <= 0)%Q).
  { intros ->; apply (Qplus_le_l _ _ (inject_Z b)); ring_simplify; exact Hb. }
  destruct (Qltb (q - inject_Z f) (1 # 2)) eqn:E1; [lia|].
  assert (Hpos : ~ (q - inject_Z f <= 0)%Q).
  { intro H; apply negb_false_iff in E1; apply Qle_bool_iff in E1.
    apply (Qle_trans _ _ _ E1) in H; unfold Qle in H; simpl in H; lia. }
  assert (f <> b) by (intro Hfb; exact (Hpos (Hup Hfb))).
  destruct (Qltb (1 # 2) (q - inject_Z f)); [lia|].
  destruct (Z.even f); lia.
Qed.

(** ** Binary64 rounding *)
Section Float64.
Import Nps64.

Lemma pow2_pos : forall e, (0 < pow2 e)%Q.
Proof. intro e; apply Qpower_0_lt; reflexivity. Qed.

Lemma pow2_le : forall a b, a <= b -> (pow2 a <= pow2 b)%Q.
Proof. intros a b H; apply Qpower_le_compat_l; [exact H|unfold Qle; simpl; lia]. Qed.

Lemma pow2_lt_inv : forall a b, (pow2 a < pow2 b)%Q -> a < b.
Proof. intros a b H; apply (Qpower_lt_compat_l_inv (2 # 1)); [exact H|reflexivity]. Qed.

Lemma pow2_plus : forall a b, (pow2 (a + b) == pow2 a * pow2 b)%Q.
Proof. intros a b; apply Qpower_plus; discriminate. Qed.

Lemma pow2_Z : forall n, 0 <= n -> (pow2 n == inject_Z (2 ^ n))%Q.
Proof. intros n Hn; unfold pow2; rewrite Zpower_Qpower by exact Hn; reflexivity. Qed.

Lemma pow2_diff : forall x y, 0 <= x -> 0 <= y ->
  (pow2 (x - y) == inject_Z (2 ^ x) / inject_Z (2 ^ y))%Q.
Proof.
  intros x y Hx Hy; unfold pow2; rewrite Qpower_minus by discriminate.
  rewrite !Zpower_Qpower by assumption; reflexivity.
Qed.

Lemma flog2_spec : forall a, (0 < a)%Q ->
  (pow2 (flog2 a) <= a < pow2 (flog2 a + 1))%Q.
Proof.
  intros [n d] Ha; unfold Qlt in Ha; simpl in Ha.
  assert (Hn : 0 < n) by lia.
  destruct (Z.log2_spec n Hn) as [Ln1 Ln2].
  destruct (Z.log2_spec (Zpos d) eq_refl) as [Ld1 Ld2].
  pose proof (Z.log2_nonneg n); pose proof (Z.log2_nonneg (Zpos d)).
  rewrite Z.pow_succ_r in Ln2, Ld2 by assumption.
  set (ln := Z.log2 n) in *; set (ld := Z.log2 (Zpos d)) in *.
  pose proof (Z.pow_pos_nonneg 2 ln eq_refl ltac:(lia)).
  pose proof (Z.pow_pos_nonneg 2 ld eq_refl ltac:(lia)).
  assert (Hhi : ((n # d) < pow2 (ln - ld + 1))%Q).
  { replace (ln - ld + 1) with (ln + 1 - ld) by lia.
    rewrite pow2_diff by lia; apply Qlt_shift_div_l; [unfold Qlt; simpl; lia|].
    rewrite Z.pow_add_r by lia; unfold Qlt; simpl; nia. }
  assert (Hlo : (pow2 (ln - ld - 1) < (n # d))%Q).
  { replace (ln - ld - 1) with (ln - (ld + 1)) by lia.
    rewrite pow2_diff by lia; apply Qlt_shift_div_r; [unfold Qlt; simpl; lia|].
    rewrite Z.pow_add_r by lia; unfold Qlt; simpl; nia. }
  unfold flog2; simpl Qnum; simpl Qden; fold ln ld.
  destruct (Qle_bool (pow2 (ln - ld)) (n # d)) eqn:E.
  - apply Qle_bool_iff in E; split; assumption.
  - split; [apply Qlt_le_weak; exact Hlo|].
    replace (ln - ld - 1 + 1) with (ln - ld) by lia.
    apply Qnot_le_lt; intro Hc; apply Qle_bool_iff in Hc; congruence.
Qed.

Lemma flog2_mono : forall x y, (0 < x)%Q -> (x <= y)%Q -> flog2 x <= flog2 y.
Proof.
  intros x y Hx Hxy.
  destruct (flog2_spec x Hx) as [H1 _].
  destruct (flog2_spec y (Qlt_le_trans _ _ _ Hx Hxy)) as [_ H2].
  assert (flog2 x < flog2 y + 1); [|lia].
  apply pow2_lt_inv.
  apply (Qle_lt_trans _ _ _ H1), (Qle_lt_trans _ _ _ Hxy), H2.
Qed.

Lemma fexp_mono : forall x y, (0 < x)%Q -> (x <= y)%Q -> fexp x <= fexp y.
Proof. intros x y Hx Hxy; pose proof (flog2_mono x y Hx Hxy); unfold fexp; lia. Qed.

(** The two cases of a rounding to nearest, ties to even. *)
Lemma round_half_even_cases : forall q,
  (round_half_even q = Qfloor q /\ (q - inject_Z (Qfloor q) <= 1 # 2)%Q /\
     ((q - inject_Z (Qfloor q) == 1 # 2)%Q -> Z.even (Qfloor q) = true)) \/
  (round_half_even q = Qfloor q + 1 /\ (1 # 2 <= q - inject_Z (Qfloor q))%Q /\
     ((q - inject_Z (Qfloor q) == 1 # 2)%Q -> Z.even (Qfloor q) = false)).
Proof.
  intro q; unfold round_half_even.
  set (f := Qfloor q); set (r := (q - inject_Z f)%Q).
  destruct (Qltb r (1 # 2)) eqn:E1.
  - apply Qltb_iff in E1; left; split; [reflexivity|split; [lra|]].
    intro H; rewrite H in E1; discriminate.
  - assert (H1 : (1 # 2 <= r)%Q).
    { apply Qnot_lt_le; intro H; apply Qltb_iff in H; congruence. }
    destruct (Qltb (1 # 2) r) eqn:E2.
    + apply Qltb_iff in E2; right; split; [reflexivity|split; [exact H1|]].
      intro H; rewrite H in E2; discriminate.
    + assert (H2 : (r <= 1 # 2)%Q).
      { apply Qnot_lt_le; intro H; apply Qltb_iff in H; congruence. }
      destruct (Z.even f) eqn:Ev; [left|right]; repeat split; auto.
Qed.

Lemma round_half_even_mono : forall x y, (x <= y)%Q ->
  round_half_even x <= round_half_even y.
Proof.
  intros x y Hxy.
  pose proof (Qfloor_resp_le _ _ Hxy) as Hf.
  destruct (round_half_even_cases x) as [[Ex [Rx Tx]]|[Ex [Rx Tx]]];
    destruct (round_half_even_cases y) as [[Ey [Ry Ty]]|[Ey [Ry Ty]]];
    rewrite Ex, Ey; try lia.
  destruct (Z.eq_dec (Qfloor x) (Qfloor y)) as [Eq|Ne]; [|lia].
  exfalso; rewrite <- Eq in Ry, Ty.
  assert (Hx : (x - inject_Z (Qfloor x) == 1 # 2)%Q) by lra.
  assert (Hy : (y - inject_Z (Qfloor x) == 1 # 2)%Q) by lra.
  specialize (Tx Hx); specialize (Ty Hy); congruence.
Qed.

Lemma round_half_even_le : forall q z, (q <= inject_Z z)%Q -> round_half_even q <= z.
Proof.
  intros q z H; rewrite <- (round_half_even_int (inject_Z z) z (Qeq_refl _)).
  apply round_half_even_mono, H.
Qed.

Lemma round_half_even_ge : forall q z, (inject_Z z <= q)%Q -> z <= round_half_even q.
Proof.
  intros q z H; rewrite <- (round_half_even_int (inject_Z z) z (Qeq_refl _)) at 1.
  apply round_half_even_mono, H.
Qed.

Lemma round_pos_nonneg : forall a, (0 < a)%Q -> (0 <= round_pos a)%Q.
Proof.
  intros a Ha; unfold round_pos.
  pose proof (pow2_pos (fexp a)) as Hp.
  apply Qmult_le_0_compat; [|lra].
  change 0%Q with (inject_Z 0); rewrite <- Zle_Qle.
  apply round_half_even_ge; apply Qle_shift_div_l; [exact Hp|].
  rewrite Qmult_0_l; lra.
Qed.

Lemma round_pos_mono : forall x y, (0 < x)%Q -> (x <= y)%Q ->
  (round_pos x <= round_pos y)%Q.
Proof.
  intros x y Hx Hxy.
  pose proof (fexp_mono x y Hx Hxy) as He.
  pose proof (pow2_pos (fexp x)) as Px; pose proof (pow2_pos (fexp y)) as Py.
  unfold round_pos.
  destruct (Z.eq_dec (fexp x) (fexp y)) as [Eq|Ne].
  - rewrite <- Eq.
    apply Qmult_le_compat_r; [|lra].
    rewrite <- Zle_Qle; apply round_half_even_mono.
    apply Qmult_le_compat_r; [exact Hxy|].
    apply Qlt_le_weak, Qinv_lt_0_compat, Px.
  - assert (Hy0 : (0 < y)%Q) by lra.
    assert (Ey : fexp y = flog2 y - 52) by (unfold fexp in *; lia).
    assert (Ex : flog2 x - 52 <= fexp x) by (unfold fexp; lia).
    destruct (flog2_spec x Hx) as [_ Hx2]; destruct (flog2_spec y Hy0) as [Hy1 _].
    (* round_pos x <= 2^(53 + fexp x) <= 2^(52 + fexp y) <= round_pos y *)
    apply Qle_trans with (pow2 (53 + fexp x)).
    { rewrite pow2_plus, (pow2_Z 53) by lia.
      apply Qmult_le_compat_r; [|lra].
      rewrite <- Zle_Qle; apply round_half_even_le.
      apply Qle_shift_div_r; [exact Px|].
      rewrite <- (pow2_Z 53), <- pow2_plus by lia.
      apply Qlt_le_weak, (Qlt_le_trans _ _ _ Hx2), pow2_le; lia. }
    apply Qle_trans with (pow2 (52 + fexp y)); [apply pow2_le; lia|].
    rewrite pow2_plus, (pow2_Z 52) by lia.
    apply Qmult_le_compat_r; [|lra].
    rewrite <- Zle_Qle; apply round_half_even_ge.
    apply Qle_shift_div_l; [exact Py|].
    rewrite <- (pow2_Z 52), <- pow2_plus by lia.
    replace (52 + fexp y) with (flog2 y) by lia; exact Hy1.
Qed.

(** Rounding to the nearest float64 is monotone. *)
Lemma fl64_mono : forall x y, (x <= y)%Q -> (fl64 x <= fl64 y)%Q.
Proof.
  intros x y Hxy; unfold fl64.
  destruct (Qltb 0 x) eqn:A; [apply Qltb_iff in A|];
  destruct (Qltb 0 y) eqn:B; try apply Qltb_iff in B.
  - apply round_pos_mono; assumption.
  - exfalso; assert (~ (0 < y)%Q) by (intro Hc; apply Qltb_iff in Hc; congruence); lra.
  - assert (~ (0 < x)%Q) by (intro Hc; apply Qltb_iff in Hc; congruence).
    pose proof (round_pos_nonneg y B).
    destruct (Qltb x 0) eqn:C; [apply Qltb_iff in C|lra].
    pose proof (round_pos_nonneg (- x) ltac:(lra)); lra.
  - assert (~ (0 < x)%Q) by (intro Hc; apply Qltb_iff in Hc; congruence).
    assert (~ (0 < y)%Q) by (intro Hc; apply Qltb_iff in Hc; congruence).
    destruct (Qltb x 0) eqn:C; [apply Qltb_iff in C|];
    destruct (Qltb y 0) eqn:D; try apply Qltb_iff in D.
    + assert (round_pos (- y) <= round_pos (- x))%Q
        by (apply round_pos_mono; lra); lra.
    + pose proof (round_pos_nonneg (- x) ltac:(lra)); lra.
    + exfalso; assert (~ (x < 0)%Q) by (intro Hc; apply Qltb_iff in Hc; congruence); lra.
    + lra.
Qed.

Lemma fl64_proper : forall x y, (x == y)%Q -> (fl64 x == fl64 y)%Q.
Proof. intros x y H; apply Qle_antisym; apply fl64_mono; lra. Qed.

(** The integers met by the NPS bounds are float64 numbers. *)
Lemma fl64_exact : forall z : Z, In z [1; -1; 100; -100; 10000; -10000] ->
  (fl64 (inject_Z z) == inject_Z z)%Q.
Proof.
  intros z H; simpl in H.
  destruct H as [<-|[<-|[<-|[<-|[<-|[<-|[]]]]]]]; vm_compute; reflexivity.
Qed.

Lemma fl64_between : forall a b x : Z, In a [1; -1; 100; -100; 10000; -10000] ->
  In b [1; -1; 100; -100; 10000; -10000] ->
  forall q, (inject_Z a <= q <= inject_Z b)%Q ->
  (inject_Z a <= fl64 q <= inject_Z b)%Q.
Proof.
  intros a b _ Ha Hb q [H1 H2].
  rewrite <- (fl64_exact a Ha) at 1; rewrite <- (fl64_exact b Hb).
  split; apply fl64_mono; assumption.
Qed.

Lemma round2_64_bounds : forall x, (-100 <= x <= 100)%Q ->
  (-100 <= round2 x <= 100)%Q.
Proof.
  intros x Hx; unfold round2, rint.
  assert (H1 : (inject_Z (-10000) <= fl64 (x * 100) <= inject_Z 10000)%Q).
  { apply (fl64_between _ _ 0); simpl; auto 7.
    change (inject_Z (-10000)) with (-100 * 100)%Q; change (inject_Z 10000) with (100 * 100)%Q.
    split; apply Qmult_le_compat_r; lra. }
  apply round_half_even_bounds in H1.
  apply (fl64_between (-100) 100 0); simpl; auto 7.
  split; [apply Qle_shift_div_l|apply Qle_shift_div_r]; try reflexivity;
    unfold Qle; simpl; lia.
Qed.

Lemma round2_64_exact : forall x (z : Z), In z [1; -1; 100; -100] ->
  (x == inject_Z z)%Q -> (round2 x == inject_Z z)%Q.
Proof.
  intros x z Hz Hx; unfold round2, rint.
  assert (E : (fl64 (x * 100) == inject_Z (z * 100))%Q).
  { rewrite (fl64_proper (x * 100) (inject_Z (z * 100)))
      by (rewrite inject_Z_mult, Hx; reflexivity).
    apply fl64_exact; simpl in Hz; simpl.
    destruct Hz as [<-|[<-|[<-|[<-|[]]]]]; simpl; auto 7. }
  rewrite (round_half_even_int _ _ E).
  rewrite <- (fl64_exact z) by (simpl in *; intuition).
  apply fl64_proper; rewrite inject_Z_mult; field.
Qed.

End Float64.

(** ** The NPS metric *)

Section NpsProofs.
Import Nps.

Lemma promoter_detractor_le : forall s : list score,
  (promoters s + detractors s <= length s)%nat.
Proof.
  unfold promoters, detractors; induction s as [|x s IH]; simpl; [lia|].
  destruct x as [v|]; simpl; [|lia].
  destruct (Qle_bool 9 v) eqn:E9; destruct (Qle_bool v 6) eqn:E6; simpl; try lia.
  apply Qle_bool_iff in E9, E6.
  pose proof (Qle_trans _ _ _ E9 E6) as H; unfold Qle in H; simpl in H; lia.
Qed.

Lemma promoters_le : forall s : list score, (promoters s <= length s)%nat.
Proof. intro s; pose proof (promoter_detractor_le s); lia. Qed.

Lemma all_promoters : forall s : list score,
  Forall (fun x => exists v, x = Some v /\ (9 <= v)%Q) s ->
  promoters s = length s /\ detractors s = 0%nat.
Proof.
  unfold promoters, detractors; intros s H; induction H as [|x s [v [-> Hv]] _ [IH1 IH2]];
    simpl; [auto|].
  apply Qle_bool_iff in Hv as Hv'; rewrite Hv'; simpl.
  destruct (Qle_bool v 6) eqn:E6; simpl; [|lia].
  apply Qle_bool_iff in E6; pose proof (Qle_trans _ _ _ Hv E6) as H;
    unfold Qle in H; simpl in H; lia.
Qed.

Lemma all_detractors : forall s : list score,
  Forall (fun x => exists v, x = Some v /\ (v <= 6)%Q) s ->
  promoters s = 0%nat /\ detractors s = length s.
Proof.
  unfold promoters, detractors; intros s H; induction H as [|x s [v [-> Hv]] _ [IH1 IH2]];
    simpl; [auto|].
  apply Qle_bool_iff in Hv as Hv'; rewrite Hv'; simpl.
  destruct (Qle_bool 9 v) eqn:E9; simpl; [|lia].
  apply Qle_bool_iff in E9; pose proof (Qle_trans _ _ _ E9 Hv) as H;
    unfold Qle in H; simpl in H; lia.
Qed.

(** The unrounded percentage, scaled by the 100 of [round(x, 2)]. *)
Lemma nps_scaled : forall (p d t : Z), 0 < t ->
  (inject_Z (p - d) / inject_Z t * 100 * 100 == inject_Z ((p - d) * 10000) / inject_Z t)%Q.
Proof.
  intros p d t Ht; rewrite inject_Z_mult.
  field; intro H; unfold Qeq in H; simpl in H; lia.
Qed.

Lemma round2_bounds : forall z, -10000 <= z <= 10000 -> (-100 <= z # 100 <= 100)%Q.
Proof. intros z Hz; unfold Qle; simpl; lia. Qed.

Lemma calculate_nps_cons : forall s : list score, s <> [] ->
  calculate_nps s =
  round2 (inject_Z (Z.of_nat (promoters s) - Z.of_nat (detractors s))
          / inject_Z (Z.of_nat (length s)) * 100)%Q.
Proof.
  intros s Hs; unfold calculate_nps; destruct s; [congruence|reflexivity].
Qed.

Lemma scaled_bounds : forall p d t, 0 < t -> 0 <= p -> 0 <= d -> p + d <= t ->
  (inject_Z (-10000) <= inject_Z ((p - d) * 10000) / inject_Z t <= inject_Z 10000)%Q.
Proof.
  intros p d t Ht Hp Hd Hpd; split;
    [apply Qle_shift_div_l | apply Qle_shift_div_r];
    try (unfold Qlt; simpl; lia);
    rewrite <- inject_Z_mult, <- Zle_Qle; nia.
Qed.

Lemma scaled_exact : forall t, 0 < t ->
  (inject_Z (t * 10000) / inject_Z t == inject_Z 10000)%Q.
Proof.
  intros t Ht; rewrite inject_Z_mult; field.
  intro H; unfold Qeq in H; simpl in H; lia.
Qed.

Lemma scaled_exact_neg : forall t, 0 < t ->
  (inject_Z (- t * 10000) / inject_Z t == inject_Z (-10000))%Q.
Proof.
  intros t Ht; rewrite inject_Z_mult, inject_Z_opp; field.
  intro H; unfold Qeq in H; simpl in H; lia.
Qed.

Lemma calculate_nps64_cons : forall s : list score, s <> [] ->
  Nps64.calculate_nps s =
  Nps64.round2 (Nps64.fl64 (Nps64.fl64 (inject_Z (Z.of_nat (promoters s) - Z.of_nat (detractors s))
                                        / inject_Z (Z.of_nat (length s))) * 100)).
Proof.
  intros s Hs; unfold Nps64.calculate_nps; destruct s; [congruence|reflexivity].
Qed.

Lemma nps_ratio_bounds : forall p d t, 0 < t -> 0 <= p -> 0 <= d -> p + d <= t ->
  (-1 <= inject_Z (p - d) / inject_Z t <= 1)%Q.
Proof.
  intros p d t Ht Hp Hd Hpd; split;
    [apply Qle_shift_div_l | apply Qle_shift_div_r];
    try (unfold Qlt; simpl; lia); unfold Qle; simpl; destruct t; lia.
Qed.

Lemma nps_ratio_exact : forall t, 0 < t ->
  (inject_Z (t - 0) / inject_Z t == 1)%Q /\ (inject_Z (0 - t) / inject_Z t == -1)%Q.
Proof.
  intros t Ht; rewrite Z.sub_0_r, Z.sub_0_l, inject_Z_opp.
  split; field; intro H; unfold Qeq in H; simpl in H; lia.
Qed.

End NpsProofs.

(** C1: [_calculate_nps] returns 0 on the empty sequence and otherwise
    [round((promoters - detractors) / total * 100, 2)] in float64 arithmetic,
    with promoters the scores [>= 9] and detractors the scores [<= 6]; its
    value always lies in [[-100, 100]]; a non-empty sequence of scores all
    [>= 9] gives 100 and a non-empty sequence of scores all [<= 6] gives
    -100. *)
Theorem nps_metric_spec : forall scores : list Nps.score,
  Nps64.calculate_nps [] = 0%Q /\
  (scores <> [] ->
     Nps64.calculate_nps scores =
     Nps64.round2 (Nps64.fl64 (Nps64.fl64 (inject_Z (Z.of_nat (Nps.promoters scores)
                                                     - Z.of_nat (Nps.detractors scores))
                                           / inject_Z (Z.of_nat (length scores))) * 100))) /\
  (-100 <= Nps64.calculate_nps scores <= 100)%Q /\
  (scores <> [] -> Forall (fun x => exists v, x = Some v /\ (9 <= v)%Q) scores ->
     (Nps64.calculate_nps scores == 100)%Q) /\
  (scores <> [] -> Forall (fun x => exists v, x = Some v /\ (v <= 6)%Q) scores ->
     (Nps64.calculate_nps scores == -100)%Q).
Proof.
  intros scores.
  assert (Hlen : scores <> [] -> 0 < Z.of_nat (length scores)).
  { destruct scores; [congruence|simpl; lia]. }
  split; [reflexivity|].
  split; [apply calculate_nps64_cons|].
  split.
  - destruct scores as [|x r] eqn:Es; [unfold Nps64.calculate_nps; simpl; split; discriminate|].
    rewrite <- Es; rewrite calculate_nps64_cons by (subst; discriminate).
    assert (Ht : 0 < Z.of_nat (length scores)) by (subst; apply Hlen; discriminate).
    pose proof (promoter_detractor_le scores).
    apply round2_64_bounds.
    apply (fl64_between (-100) 100 0); simpl; auto 7.
    assert (H1 : (inject_Z (-1) <= Nps64.fl64 (inject_Z (Z.of_nat (Nps.promoters scores)
                   - Z.of_nat (Nps.detractors scores)) / inject_Z (Z.of_nat (length scores)))
                  <= inject_Z 1)%Q).
    { apply (fl64_between (-1) 1 0); simpl; auto 7.
      apply nps_ratio_bounds; lia. }
    change (inject_Z (-100)) with (-1 * 100)%Q; change (inject_Z 100) with (1 * 100)%Q.
    destruct H1; split; apply Qmult_le_compat_r; (assumption || discriminate).
  - split; intros Hne Hall; rewrite calculate_nps64_cons by exact Hne;
      destruct (nps_ratio_exact _ (Hlen Hne)) as [E1 E2].
    + destruct (all_promoters _ Hall) as [Hp Hd]; rewrite Hp, Hd.
      apply (round2_64_exact _ 100); [simpl; auto|].
      transitivity (Nps64.fl64 (inject_Z 100)); [|apply fl64_exact; simpl; auto].
      apply fl64_proper; rewrite (fl64_proper _ 1 E1).
      pose proof (fl64_exact 1 ltac:(simpl; auto)) as F; change (inject_Z 1) with 1%Q in F.
      rewrite F; reflexivity.
    + destruct (all_detractors _ Hall) as [Hp Hd]; rewrite Hp, Hd.
      apply (round2_64_exact _ (-100)); [simpl; auto 7|].
      transitivity (Nps64.fl64 (inject_Z (-100))); [|apply fl64_exact; simpl; auto 7].
      apply fl64_proper; rewrite (fl64_proper _ (-1) E2).
      pose proof (fl64_exact (-1) ltac:(simpl; auto)) as F; change (inject_Z (-1)) with (-1)%Q in F.
      rewrite F; reflexivity.
Qed.

Lemma nps_metric_spec_witness :
  (Nps64.calculate_nps [Some 9%Q; Some 10%Q] == 100)%Q /\
  (Nps64.calculate_nps [Some 3%Q; Some 6%Q] == -100)%Q.
Proof.
  destruct (nps_metric_spec [Some 9%Q; Some 10%Q]) as [_ [_ [_ [H _]]]].
  destruct (nps_metric_spec [Some 3%Q; Some 6%Q]) as [_ [_ [_ [_ H']]]].
  split; [apply H|apply H']; [discriminate| |discriminate|];
    repeat constructor; eexists; (split; [reflexivity|unfold Qle; simpl; lia]).
Defined.

(** Ties follow the float64 values: 23 detractors out of 160 scores give
    -14.375 exactly, whose float64 product by 100 is just below -1437.5, so
    the metric is -14.37 (the float64 nearest to it). *)
Lemma nps_metric_float_tie :
  Nps64.calculate_nps (repeat (Some 3%Q) 23 ++ repeat (Some 7%Q) 137) = Nps64.fl64 (-1437 # 100).
Proof. vm_compute; reflexivity. Qed.

(** ** Status bands of the store-to-agent detail *)

Lemma Qle_bool_false_lt : forall a b, Qle_bool a b = false -> (b < a)%Q.
Proof.
  intros a b H; apply Qnot_le_lt; intro H'; apply Qle_bool_iff in H'; congruence.
Qed.

Lemma get_status_cases : forall d : Q,
  (SimpleFilter.get_status (Some d) = "🟢 우수" /\ (5 <= d)%Q) \/
  (SimpleFilter.get_status (Some d) = "🟢 양호" /\ (0 <= d < 5)%Q) \/
  (SimpleFilter.get_status (Some d) = "🟠 주의" /\ (-5 <= d < 0)%Q) \/
  (SimpleFilter.get_status (Some d) = "🔴 개선필요" /\ (d < -5)%Q).
Proof.
  intro d; unfold SimpleFilter.get_status.
  destruct (Qle_bool 5 d) eqn:E5; [left; split; [reflexivity|now apply Qle_bool_iff]|].
  apply Qle_bool_false_lt in E5.
  destruct (Qle_bool 0 d) eqn:E0;
    [right; left; split; [reflexivity|split; [now apply Qle_bool_iff|exact E5]]|].
  apply Qle_bool_false_lt in E0.
  destruct (Qle_bool (-5) d) eqn:E4;
    [right; right; left; split; [reflexivity|split; [now apply Qle_bool_iff|exact E0]]|].
  apply Qle_bool_false_lt in E4; right; right; right; split; [reflexivity|exact E4].
Qed.

(** C8: the status of a delta [d] in [_get_store_tcrew_detail] is
    "🟢 우수" exactly when [d >= 5], "🟢 양호" exactly when [0 <= d < 5],
    "🟠 주의" exactly when [-5 <= d < 0] and "🔴 개선필요" exactly when
    [d < -5] (so every delta gets exactly one of the four labels); at the
    boundaries 5, 0 and -5 it is 우수, 양호 and 주의; the period analyzer's
    [status_of_vs_store] agrees with it on every delta. *)
Theorem status_bands_total_disjoint : forall d : Q,
  (SimpleFilter.get_status (Some d) = "🟢 우수" <-> (5 <= d)%Q) /\
  (SimpleFilter.get_status (Some d) = "🟢 양호" <-> (0 <= d < 5)%Q) /\
  (SimpleFilter.get_status (Some d) = "🟠 주의" <-> (-5 <= d < 0)%Q) /\
  (SimpleFilter.get_status (Some d) = "🔴 개선필요" <-> (d < -5)%Q) /\
  SimpleFilter.get_status (Some 5%Q) = "🟢 우수" /\
  SimpleFilter.get_status (Some 0%Q) = "🟢 양호" /\
  SimpleFilter.get_status (Some (-5)%Q) = "🟠 주의" /\
  PeriodComparison.status_of_vs_store d = SimpleFilter.get_status (Some d).
Proof.
  intro d.
  assert (Hs : PeriodComparison.status_of_vs_store d = SimpleFilter.get_status (Some d))
    by reflexivity.
  rewrite Hs.
  destruct (get_status_cases d) as [[E H]|[[E H]|[[E H]|[E H]]]]; rewrite E;
    repeat split; try reflexivity; try discriminate; intros;
    try (first [lra | exfalso; lra]).
Qed.

(** ** Evaluation of the parser and the filters on concrete inputs *)

(** C3: the question "9~12월 대비 1월" (the example of the code's own
    comment for the month-range form) matches the month-range pattern, but
    the single-month pattern, tried first, also matches its tail
    "12월 대비 1월"; the extraction therefore returns December 2025 against
    January 2026 labelled "12월" and "1월", not a first range from
    September 1 to December 31 labelled "9~12월". *)
Theorem month_range_shadowed_by_single_month :
  Regex.search Parser.pattern2 Inputs.q_range <> None /\
  Regex.search Parser.pattern1 Inputs.q_range <> None /\
  Parser.extract_comparison_periods Inputs.q_range None =
    inr (Some (FS.CPPeriods (FS.mkPeriods (2025, 12, 1) (2025, 12, 31)
                                          (2026, 1, 1) (2026, 1, 31) "12월" "1월"))).
Proof.
  split; [|split].
  - vm_compute; discriminate.
  - vm_compute; discriminate.
  - vm_compute; reflexivity.
Qed.

(** C4: the Simple Filter per-agent table does not read [min_responses]
    at all (any value of it gives the same table); with
    [{'min_responses': 10}] and no [min_responses_period1] it keeps an agent
    with 7 responses (the default floor 5 applies), while the Period
    Comparison analyzer, for the same dict, uses 10 as its floor. *)
Theorem simple_filter_ignores_min_responses :
  (forall df f m, SimpleFilter.analyze_by_tcrew df (SeniorGap.with_min_responses f m) =
                  SimpleFilter.analyze_by_tcrew df f) /\
  match SimpleFilter.analyze_by_tcrew Inputs.seven_rows Inputs.min10_filters with
  | inr tbl => map SimpleFilter.t_count tbl = [7%nat]
  | inl _ => False
  end /\
  PeriodComparison.min_for (FS.min_responses_period1 Inputs.min10_filters) Inputs.min10_filters
    = Some 10.
Proof.
  split; [|split].
  - intros df f m; destruct f; reflexivity.
  - vm_compute; reflexivity.
  - reflexivity.
Qed.

(** C10 (helper): [get_filter_summary] on a dict with [nps_target] 0 gives
    exactly what it gives with the key absent. *)
Lemma filter_summary_target0_as_absent : forall f : FS.filters,
  get (FS.nps_target f) = Some 0 ->
  Parser.get_filter_summary f =
  Parser.get_filter_summary
    (FS.mkFilters (FS.analysis_month f) (FS.team f) (FS.dealer_name f) (FS.store_name f) None
       (FS.nps_comparison f) (FS.senior_threshold f) (FS.min_responses f)
       (FS.min_responses_period1 f) (FS.min_responses_period2 f) (FS.trend f)
       (FS.comparison_periods f) (FS.analysis_type f)).
Proof.
  intros [am tm dn sn nt nc st mr m1 m2 tr cp0 at0] H; simpl in H.
  unfold Parser.get_filter_summary; simpl; rewrite H; reflexivity.
Qed.

(** C10: a dict whose [nps_target] is present with the value 0 is
    summarised without any "NPS 목표" segment: the summary is the one of the
    same dict with [nps_target] absent; for the dict [parse] builds from
    "NPS 0% 미만" (team and store None, 5 responses, simple filter) it is
    "최소 응답수: 5건 | 분석 유형: 단순 필터 분석", while a target of 80 is
    rendered. *)
Theorem filter_summary_drops_zero_target : forall f : FS.filters,
  get (FS.nps_target f) = Some 0 ->
  Parser.get_filter_summary f =
  Parser.get_filter_summary
    (FS.mkFilters (FS.analysis_month f) (FS.team f) (FS.dealer_name f) (FS.store_name f) None
       (FS.nps_comparison f) (FS.senior_threshold f) (FS.min_responses f)
       (FS.min_responses_period1 f) (FS.min_responses_period2 f) (FS.trend f)
       (FS.comparison_periods f) (FS.analysis_type f)) /\
  Parser.get_filter_summary Inputs.target0_filters =
    inr "최소 응답수: 5건 | 분석 유형: 단순 필터 분석" /\
  Parser.get_filter_summary
    (FS.mkFilters None (Some None) None (Some None) (Some (Some 80)) (Some (Some FS.Below)) None
       (Some (Some 5)) None None None None (Some (Some FS.SimpleFilter))) =
    inr "NPS 목표: 80% 미만 | 최소 응답수: 5건 | 분석 유형: 단순 필터 분석".
Proof.
  intros f H; split; [now apply filter_summary_target0_as_absent|].
  split; vm_compute; reflexivity.
Qed.

Lemma filter_summary_drops_zero_target_witness :
  get (FS.nps_target Inputs.target0_filters) = Some 0 /\
  Parser.get_filter_summary Inputs.target0_filters =
    inr "최소 응답수: 5건 | 분석 유형: 단순 필터 분석".
Proof.
  split; [reflexivity|].
  pose proof (filter_summary_drops_zero_target Inputs.target0_filters eq_refl) as [_ [H _]].
  exact H.
Defined.

(** ** The day-range error sentinel *)

(** C5 (as the code behaves): when neither month pattern matches, the
    day-range pattern matches and no analysis month is given (None or the
    empty string), the extraction returns the error dict with the message
    "분석월을 선택해주세요" (not None and not a period dict); and the Period
    Comparison analyzer, given a frame that has the [처리일] column and a dict
    carrying that error, returns the empty result whose only insight is
    "⚠️ 분석월을 선택해주세요", with no period labels. *)
Theorem day_range_without_month_is_error : forall (q : ustr) (am : option ustr),
  Regex.search Parser.pattern1 q = None ->
  Regex.search Parser.pattern2 q = None ->
  Regex.search Parser.pattern3 q <> None ->
  (am = None \/ am = Some []) ->
  Parser.extract_comparison_periods q am =
    inr (Some (FS.CPError Parser.error_message "오류" "오류")) /\
  (forall (df : PeriodComparison.frame) (f : FS.filters),
     PeriodComparison.has_proc_date df = true ->
     get (FS.comparison_periods f) = Some (FS.CPError Parser.error_message "오류" "오류") ->
     PeriodComparison.analyze df f =
       inr (PeriodComparison.empty_result ["⚠️ " ++ Parser.error_message] None)).
Proof.
  intros q am H1 H2 H3 Ham; split.
  - unfold Parser.extract_comparison_periods; rewrite H1, H2.
    destruct (Regex.search Parser.pattern3 q); [|contradiction].
    destruct Ham; subst; reflexivity.
  - intros df f Hd Hc; unfold PeriodComparison.analyze; rewrite Hd, Hc; reflexivity.
Qed.

Lemma day_range_without_month_is_error_witness :
  Parser.extract_comparison_periods Inputs.q_days None = inr (Some Inputs.error_cp) /\
  PeriodComparison.analyze Inputs.period_frame Inputs.error_filters =
    inr (PeriodComparison.empty_result ["⚠️ " ++ Parser.error_message] None).
Proof.
  assert (H : Regex.search Parser.pattern1 Inputs.q_days = None /\
              Regex.search Parser.pattern2 Inputs.q_days = None /\
              Regex.search Parser.pattern3 Inputs.q_days <> None)
    by (split; [vm_compute; reflexivity|split; [vm_compute; reflexivity|vm_compute; discriminate]]).
  destruct H as [H1 [H2 H3]].
  destruct (day_range_without_month_is_error Inputs.q_days None H1 H2 H3 (or_introl eq_refl))
    as [E A].
  split; [exact E|apply A; reflexivity].
Defined.

(** C5 (counterexample): the question "12월 대비 1월 2일 대비 5일" matches
    the day-range pattern and no analysis month is given, yet the
    extraction returns the periods of December against January (the
    month pattern is tried first); and a frame without a [처리일] column
    given the error dict gets the missing-column message instead of
    the error's message. *)
Lemma day_range_error_counterexample :
  Regex.search Parser.pattern3 Inputs.q_month_and_days <> None /\
  Parser.extract_comparison_periods Inputs.q_month_and_days None =
    inr (Some (FS.CPPeriods (FS.mkPeriods (2025, 12, 1) (2025, 12, 31)
                                          (2026, 1, 1) (2026, 1, 31) "12월" "1월"))) /\
  PeriodComparison.analyze (PeriodComparison.mkFrame false []) Inputs.error_filters =
    inr (PeriodComparison.empty_result ["⚠️ 처리일 컬럼이 없습니다."] None) /\
  PeriodComparison.analyze (PeriodComparison.mkFrame false []) Inputs.error_filters <>
    inr (PeriodComparison.empty_result ["⚠️ " ++ Parser.error_message] None).
Proof.
  split; [vm_compute; discriminate|].
  split; [vm_compute; reflexivity|].
  split; [reflexivity|].
  vm_compute; discriminate.
Qed.

(** ** Lists: sorting and filtering keep a subset of the rows *)

Lemma insert_by_in : forall {A} (le : A -> A -> bool) x y l,
  In x (Table.insert_by le y l) <-> y = x \/ In x l.
Proof.
  intros A le x y l; induction l as [|z l IH]; simpl.
  - tauto.
  - destruct (le z y); simpl; rewrite ?IH; tauto.
Qed.

Lemma sort_by_in : forall {A} (le : A -> A -> bool) x l,
  In x (Table.sort_by le l) <-> In x l.
Proof.
  intros A le x l; unfold Table.sort_by.
  assert (G : forall acc, In x (fold_left (fun acc y => Table.insert_by le y acc) l acc)
                          <-> In x acc \/ In x l).
  { induction l as [|y l IH]; intro acc; simpl; [tauto|].
    rewrite IH, insert_by_in; tauto. }
  rewrite G; simpl; tauto.
Qed.

Lemma ustr_eqb_eq : forall a b, Table.ustr_eqb a b = true <-> a = b.
Proof.
  induction a as [|x a IH]; intros [|y b]; simpl; split; try discriminate; try congruence.
  - rewrite andb_true_iff, N.eqb_eq, IH; intros [-> ->]; reflexivity.
  - intro H; injection H as -> ->; rewrite N.eqb_refl; simpl; apply IH; reflexivity.
Qed.

Lemma key_eqb_eq : forall a b, Table.key_eqb a b = true <-> a = b.
Proof.
  induction a as [|x a IH]; intros [|y b]; simpl; split; try discriminate; try congruence.
  - rewrite andb_true_iff, ustr_eqb_eq, IH; intros [-> ->]; reflexivity.
  - intro H; injection H as -> ->; apply andb_true_iff; split;
      [apply ustr_eqb_eq | apply IH]; reflexivity.
Qed.

(** ** Period Comparison: the inner join *)

Section PeriodJoin.
Import PeriodComparison.

Lemma merge_inner_in : forall p1 p2 j,
  In j (merge_inner p1 p2) ->
  exists a b, In a p1 /\ In b p2 /\ j_key j = join_key a /\ join_key a = join_key b.
Proof.
  intros p1 p2 j H; unfold merge_inner in H.
  apply in_flat_map in H as [a [Ha Hj]].
  apply in_map_iff in Hj as [b [<- Hb]].
  apply filter_In in Hb as [Hb Hk]; apply key_eqb_eq in Hk.
  exists a, b; repeat split; auto.
Qed.

Lemma trend_filter_incl : forall t l j, In j (trend_filter t l) -> In j l.
Proof.
  intros [[|]|] l j H; simpl in H; try (apply filter_In in H; tauto); exact H.
Qed.

Lemma target_filter_incl : forall f l j, In j (target_filter f l) -> In j l.
Proof.
  intros f l j H; unfold target_filter in H.
  destruct (get (FS.nps_target f)); [|exact H].
  destruct (get_or (FS.nps_comparison f) FS.Below) as [[|]|];
    apply filter_In in H; tauto.
Qed.

Lemma min_filter_incl : forall f l r j, min_filter f l = inr r -> In j r -> In j l.
Proof.
  intros f l r j H Hj; unfold min_filter in H.
  destruct (min_for (FS.min_responses_period1 f) f), (min_for (FS.min_responses_period2 f) f);
    try discriminate.
  injection H as <-; apply filter_In in Hj; tauto.
Qed.

Lemma sort_result_in : forall t l j, In j (sort_result t l) <-> In j l.
Proof. intros [[|]|] l j; apply sort_by_in. Qed.

(** Every row of the final table comes from the join of the two
    aggregates and so has its key in both. *)
Lemma joined_row_keys : forall df f r p1 p2 j,
  analyze df f = inr r -> period_aggregates df f = inr (p1, p2) ->
  In j (by_tcrew r) -> In (j_key j) (map join_key p1) /\ In (j_key j) (map join_key p2).
Proof.
  intros df f r p1 p2 j H Hagg Hj.
  unfold analyze in H.
  destruct (has_proc_date df); simpl in H;
    [|injection H as <-; simpl in Hj; contradiction].
  destruct (match get (FS.comparison_periods f) with
            | Some c => cp_get_error c | None => None end);
    [injection H as <-; simpl in Hj; contradiction|].
  unfold bind_py at 1 in H.
  destruct (periods_of f) as [e|[[[[[s1 e1] s2] e2] l1] l2]]; [discriminate|].
  rewrite Hagg in H; simpl in H.
  destruct p1 as [|a1 p1']; [injection H as <-; simpl in Hj; contradiction|].
  destruct p2 as [|a2 p2']; [injection H as <-; simpl in Hj; contradiction|].
  destruct (merge_inner (a1 :: p1') (a2 :: p2')) as [|m ms] eqn:Em;
    [injection H as <-; simpl in Hj; contradiction|].
  destruct (min_filter f (target_filter f (trend_filter (get (FS.trend f)) (m :: ms))))
    as [e|r0] eqn:Emin; simpl in H; [discriminate|].
  injection H as <-; simpl in Hj.
  apply sort_result_in in Hj.
  eapply min_filter_incl in Hj; [|exact Emin].
  apply target_filter_incl, trend_filter_incl in Hj.
  rewrite <- Em in Hj.
  destruct (merge_inner_in _ _ _ Hj) as [a [b [Ha [Hb [Hk Hab]]]]].
  split; rewrite Hk; [apply in_map, Ha|rewrite Hab; apply in_map, Hb].
Qed.

End PeriodJoin.

(** C6: for every input frame and every filter dict (periods from
    [comparison_periods] or the fallback, any trend, NPS target and
    minimum-response settings), a key (agent, agent id, dealer, store) that
    is in period 1's aggregate but not in period 2's, or in period 2's but
    not in period 1's, is the key of no row of the analyzer's [by_tcrew]. *)
Theorem inner_join_exclusive : forall df f r p1 p2,
  PeriodComparison.analyze df f = inr r ->
  PeriodComparison.period_aggregates df f = inr (p1, p2) ->
  forall k,
    (In k (map PeriodComparison.join_key p1) -> ~ In k (map PeriodComparison.join_key p2) ->
     ~ In k (map PeriodComparison.j_key (PeriodComparison.by_tcrew r))) /\
    (In k (map PeriodComparison.join_key p2) -> ~ In k (map PeriodComparison.join_key p1) ->
     ~ In k (map PeriodComparison.j_key (PeriodComparison.by_tcrew r))).
Proof.
  intros df f r p1 p2 H Hagg k; split; intros _ Hn Hk;
    apply in_map_iff in Hk as [j [<- Hj]];
    destruct (joined_row_keys df f r p1 p2 j H Hagg Hj); contradiction.
Qed.

Lemma inner_join_exclusive_witness :
  PeriodComparison.analyze Inputs.period_frame Inputs.min1_filters = inr Inputs.period_result /\
  PeriodComparison.period_aggregates Inputs.period_frame Inputs.min1_filters =
    inr (fst Inputs.period_aggs, snd Inputs.period_aggs) /\
  In Inputs.key_B (map PeriodComparison.join_key (fst Inputs.period_aggs)) /\
  ~ In Inputs.key_B (map PeriodComparison.join_key (snd Inputs.period_aggs)) /\
  ~ In Inputs.key_B (map PeriodComparison.j_key (PeriodComparison.by_tcrew Inputs.period_result)).
Proof.
  assert (H1 : PeriodComparison.analyze Inputs.period_frame Inputs.min1_filters =
               inr Inputs.period_result) by (vm_compute; reflexivity).
  assert (H2 : PeriodComparison.period_aggregates Inputs.period_frame Inputs.min1_filters =
               inr (fst Inputs.period_aggs, snd Inputs.period_aggs)) by (vm_compute; reflexivity).
  assert (H3 : In Inputs.key_B (map PeriodComparison.join_key (fst Inputs.period_aggs)))
    by (vm_compute; right; left; reflexivity).
  assert (H4 : ~ In Inputs.key_B (map PeriodComparison.join_key (snd Inputs.period_aggs)))
    by (vm_compute; intros [H|[]]; discriminate).
  split; [exact H1|split; [exact H2|split; [exact H3|split; [exact H4|]]]].
  exact (proj1 (inner_join_exclusive _ _ _ _ _ H1 H2 Inputs.key_B) H3 H4).
Defined.

(** ** Senior Gap: the population baseline *)

Section SeniorBaseline.
Import SeniorGap.

Lemma scope_filter_with_min_responses : forall f m df,
  scope_filter (with_min_responses f m) df = scope_filter f df.
Proof. intros [] m df; reflexivity. Qed.

Lemma after_step3_with_min_responses : forall df f m,
  after_step3 df (with_min_responses f m) = after_step3 df f.
Proof. intros df [] m; reflexivity. Qed.

Lemma analyze_summary_rate : forall df f r,
  analyze df f = inr r ->
  summary_senior_rate r =
  match tcrew_stats (scope_filter f df) with
  | [] => None
  | _ => Some (avg_senior_rate (scope_filter f df))
  end.
Proof.
  intros df f r H; unfold analyze in H.
  destruct (tcrew_stats (scope_filter f df)) as [|a l];
    [injection H as <-; reflexivity|].
  unfold bind_py in H.
  destruct (after_step3 df f) as [e|r3]; [discriminate|].
  destruct (step5 f (step4 f r3)) as [e|r5]; [discriminate|].
  injection H as <-; reflexivity.
Qed.

End SeniorBaseline.

(** C7: for the same input table, two filter dicts that differ only in
    [min_responses] give the same senior-proportion baseline in the
    summary of [analyze] (when both runs return); that baseline is the
    senior proportion of the whole scope-filtered table, and the agent
    table after steps 2 and 3 (which use the baselines) is the same for
    both dicts. *)
Theorem senior_baseline_independent_of_min_responses : forall df f m r1 r2,
  SeniorGap.analyze df f = inr r1 ->
  SeniorGap.analyze df (SeniorGap.with_min_responses f m) = inr r2 ->
  SeniorGap.summary_senior_rate r1 = SeniorGap.summary_senior_rate r2 /\
  (SeniorGap.tcrew_stats (SeniorGap.scope_filter f df) <> [] ->
   SeniorGap.summary_senior_rate r1 =
     Some (SeniorGap.avg_senior_rate (SeniorGap.scope_filter f df))) /\
  SeniorGap.after_step3 df (SeniorGap.with_min_responses f m) = SeniorGap.after_step3 df f.
Proof.
  intros df f m r1 r2 H1 H2.
  rewrite (analyze_summary_rate _ _ _ H1), (analyze_summary_rate _ _ _ H2).
  rewrite scope_filter_with_min_responses.
  split; [reflexivity|split; [|apply after_step3_with_min_responses]].
  intro Hne; destruct (SeniorGap.tcrew_stats (SeniorGap.scope_filter f df));
    [contradiction|reflexivity].
Qed.

Lemma senior_baseline_independent_of_min_responses_witness :
  SeniorGap.analyze Inputs.senior_rows FS.empty_filters =
    inr (Inputs.senior_result FS.empty_filters) /\
  SeniorGap.analyze Inputs.senior_rows (SeniorGap.with_min_responses FS.empty_filters Inputs.min10) =
    inr (Inputs.senior_result (SeniorGap.with_min_responses FS.empty_filters Inputs.min10)) /\
  SeniorGap.summary_senior_rate (Inputs.senior_result FS.empty_filters) =
  SeniorGap.summary_senior_rate
    (Inputs.senior_result (SeniorGap.with_min_responses FS.empty_filters Inputs.min10)).
Proof.
  assert (H1 : SeniorGap.analyze Inputs.senior_rows FS.empty_filters =
               inr (Inputs.senior_result FS.empty_filters)) by (vm_compute; reflexivity).
  assert (H2 : SeniorGap.analyze Inputs.senior_rows
                 (SeniorGap.with_min_responses FS.empty_filters Inputs.min10) =
               inr (Inputs.senior_result
                      (SeniorGap.with_min_responses FS.empty_filters Inputs.min10)))
    by (vm_compute; reflexivity).
  split; [exact H1|split; [exact H2|]].
  exact (proj1 (senior_baseline_independent_of_min_responses _ _ _ _ _ H1 H2)).
Defined.

(** ** Senior Gap: step 3 *)

Section SeniorStep3.
Import SeniorGap.

Lemma step2_incl : forall f avg l r a, step2 f avg l = inr r -> In a r -> In a l.
Proof.
  intros f avg l r a H Ha; unfold step2 in H.
  destruct (get (FS.senior_threshold f)) as [[| |v]|].
  - injection H as <-; apply filter_In in Ha; tauto.
  - injection H as <-; apply filter_In in Ha; tauto.
  - destruct (float_of_digits v); [discriminate|].
    injection H as <-; apply filter_In in Ha; tauto.
  - injection H as <-; apply filter_In in Ha; tauto.
Qed.

Lemma avg_senior_nps_eq : forall stats a,
  In a stats -> (0 < a_senior a)%nat ->
  avg_senior_nps stats =
  mean (map (fun x => fmt1 (a_senior_nps x)) (filter (fun x => Nat.ltb 0 (a_senior x)) stats)).
Proof.
  intros stats a Ha Hs; unfold avg_senior_nps.
  destruct (filter (fun x => Nat.ltb 0 (a_senior x)) stats) eqn:E; [|reflexivity].
  assert (Hin : In a (filter (fun x => Nat.ltb 0 (a_senior x)) stats))
    by (apply filter_In; split; [exact Ha|apply Nat.ltb_lt, Hs]).
  rewrite E in Hin; contradiction.
Qed.

Lemma step3_in : forall avg r a, r <> [] ->
  In a (step3 avg r) <-> (In a r /\ (0 < a_senior a)%nat) /\ (fmt1 (a_senior_nps a) < avg)%Q.
Proof.
  intros avg [|b r] a Hr; [congruence|].
  unfold step3; rewrite !filter_In, Nat.ltb_lt, Qltb_iff; reflexivity.
Qed.

End SeniorStep3.

(** C2 (counterexample): on [senior_rows] (agents A, B, C; baseline senior
    proportion 55%, so step 2 keeps A with senior NPS 0 and B with senior
    NPS 100) the code's step 3 compares against the mean 0 of the senior
    NPS of A, B and C (C has senior NPS -100 and was dropped by step 2)
    and keeps nobody, while the mean over the step-2 survivors, 50, would
    keep A. *)
Lemma step3_baseline_counterexample :
  SeniorGap.after_step3 Inputs.senior_rows FS.empty_filters = inr [] /\
  (match SpecReading.after_step3_survivor_mean Inputs.senior_rows FS.empty_filters with
   | inr l => map SeniorGap.a_tcrew l = [Inputs.A]
   | inl _ => False
   end) /\
  (SeniorGap.avg_senior_nps (SeniorGap.tcrew_stats Inputs.senior_rows) == 0)%Q /\
  map SeniorGap.a_tcrew Inputs.senior_step2 = [Inputs.A; Inputs.B].
Proof.
  split; [vm_compute; reflexivity|].
  split; [vm_compute; reflexivity|].
  split; vm_compute; reflexivity.
Qed.

(** C2 (as the code behaves): after step 3 an agent is kept exactly when
    step 2 kept it, it has at least one senior response, and its senior
    NPS (as formatted with one decimal) is strictly below the mean of the
    formatted senior NPS over all agents of the scope-filtered table that
    have a senior response, whether or not step 2 kept them. *)
Theorem step3_mean_over_all_agents : forall df f r2 r3,
  SeniorGap.step2 f (SeniorGap.avg_senior_rate (SeniorGap.scope_filter f df))
                  (SeniorGap.tcrew_stats (SeniorGap.scope_filter f df)) = inr r2 ->
  SeniorGap.after_step3 df f = inr r3 ->
  forall a, In a r3 <->
    In a r2 /\ (0 < SeniorGap.a_senior a)%nat /\
    (SeniorGap.fmt1 (SeniorGap.a_senior_nps a) <
     SeniorGap.mean (map (fun x => SeniorGap.fmt1 (SeniorGap.a_senior_nps x))
                         (filter (fun x => Nat.ltb 0 (SeniorGap.a_senior x))
                                 (SeniorGap.tcrew_stats (SeniorGap.scope_filter f df)))))%Q.
Proof.
  intros df f r2 r3 H2 H3 a.
  unfold SeniorGap.after_step3 in H3; cbv zeta in H3; rewrite H2 in H3; cbn [bind_py] in H3.
  injection H3 as <-.
  destruct r2 as [|b r2'] eqn:Er.
  - split; [intro H; simpl in H; contradiction|intros [[] _]].
  - rewrite <- Er in *; rewrite step3_in by (subst; discriminate).
    split.
    + intros [[Hin Hs] Hlt]; repeat split; auto.
      erewrite <- avg_senior_nps_eq; [exact Hlt| |exact Hs].
      eapply step2_incl; eauto.
    + intros [Hin [Hs Hlt]]; repeat split; auto.
      erewrite avg_senior_nps_eq; [exact Hlt| |exact Hs].
      eapply step2_incl; eauto.
Qed.

Lemma step3_mean_over_all_agents_witness :
  SeniorGap.step2 FS.empty_filters
    (SeniorGap.avg_senior_rate (SeniorGap.scope_filter FS.empty_filters Inputs.senior_rows))
    (SeniorGap.tcrew_stats (SeniorGap.scope_filter FS.empty_filters Inputs.senior_rows)) =
    inr Inputs.senior_step2 /\
  SeniorGap.after_step3 Inputs.senior_rows FS.empty_filters = inr [] /\
  (In Inputs.agent_A [] <->
   In Inputs.agent_A Inputs.senior_step2 /\ (0 < SeniorGap.a_senior Inputs.agent_A)%nat /\
   (SeniorGap.fmt1 (SeniorGap.a_senior_nps Inputs.agent_A) <
    SeniorGap.mean (map (fun x => SeniorGap.fmt1 (SeniorGap.a_senior_nps x))
                        (filter (fun x => Nat.ltb 0 (SeniorGap.a_senior x))
                                (SeniorGap.tcrew_stats
                                   (SeniorGap.scope_filter FS.empty_filters Inputs.senior_rows)))))%Q).
Proof.
  assert (H2 : SeniorGap.step2 FS.empty_filters
                 (SeniorGap.avg_senior_rate (SeniorGap.scope_filter FS.empty_filters Inputs.senior_rows))
                 (SeniorGap.tcrew_stats (SeniorGap.scope_filter FS.empty_filters Inputs.senior_rows)) =
               inr Inputs.senior_step2) by (vm_compute; reflexivity).
  assert (H3 : SeniorGap.after_step3 Inputs.senior_rows FS.empty_filters = inr [])
    by (vm_compute; reflexivity).
  split; [exact H2|split; [exact H3|]].
  exact (step3_mean_over_all_agents Inputs.senior_rows FS.empty_filters _ _ H2 H3 Inputs.agent_A).
Defined.

(** ** Simple Filter: the worst-agent insight *)

Section WorstInsight.
Import SimpleFilter.

Lemma nan_min_some : forall l a,
  Forall (fun o => exists x, o = Some x) l ->
  exists v, nan_min (Some a :: l) = Some v /\ In (Some v) (Some a :: l) /\
            Forall (fun o => exists x, o = Some x /\ (v <= x)%Q) (Some a :: l).
Proof.
  induction l as [|o l IH]; intros a Hl.
  - exists a; split; [reflexivity|split; [left; reflexivity|]].
    constructor; [exists a; split; [reflexivity|apply Qle_refl]|constructor].
  - inversion Hl as [|? ? [y ->] Hl']; subst.
    set (m := if Qle_bool a y then a else y).
    assert (Hm : (m <= a)%Q /\ (m <= y)%Q /\ (m = a \/ m = y)).
    { unfold m; destruct (Qle_bool a y) eqn:E.
      - apply Qle_bool_iff in E; split; [apply Qle_refl|split; [exact E|left; reflexivity]].
      - apply Qle_bool_false_lt, Qlt_le_weak in E.
        split; [exact E|split; [apply Qle_refl|right; reflexivity]]. }
    destruct Hm as [Hma [Hmy Hmeq]].
    destruct (IH m Hl') as [v [Hv [Hin Hall]]].
    exists v; split; [exact Hv|split].
    + destruct Hin as [Hin|Hin]; [|right; right; exact Hin].
      injection Hin as <-; destruct Hmeq as [->| ->]; [left|right; left]; reflexivity.
    + inversion Hall as [|? ? [x [Hx Hvx]] Hall']; subst.
      injection Hx as <-.
      constructor; [exists a; split; [reflexivity|eapply Qle_trans; eassumption]|].
      constructor; [exists y; split; [reflexivity|eapply Qle_trans; eassumption]|exact Hall'].
Qed.

Lemma filter_first : forall {A} (p : A -> bool) l w rest,
  filter p l = w :: rest ->
  exists pre post, l = (pre ++ w :: post)%list /\ Forall (fun x => p x = false) pre /\ p w = true.
Proof.
  intros A p l w rest; induction l as [|x l IH]; simpl; [discriminate|].
  destruct (p x) eqn:E.
  - intro H; injection H as <- _; exists [], l; split; [reflexivity|split; [constructor|exact E]].
  - intro H; destruct (IH H) as [pre [post [-> [Hpre Hw]]]].
    exists (x :: pre), post; split; [reflexivity|split; [constructor; assumption|exact Hw]].
Qed.

(** With a floor of at least one response every agent of the table has a
    numeric NPS. *)
Lemma analyze_by_tcrew_numeric : forall df f tbl,
  analyze_by_tcrew df f = inr tbl ->
  (forall m, get_or (FS.min_responses_period1 f) 5 = Some m -> 1 <= m) ->
  Forall (fun x => exists v, t_nps x = Some v) tbl.
Proof.
  intros df f tbl H Hm; unfold analyze_by_tcrew in H.
  unfold min_filter in H.
  destruct (get_or (FS.min_responses_period1 f) 5) as [m|] eqn:Em; [|discriminate].
  specialize (Hm m eq_refl).
  cbn [bind_py] in H; injection H as <-.
  apply Forall_forall; intros x Hx.
  apply sort_by_in in Hx; apply filter_In in Hx as [Hx _].
  apply filter_In in Hx as [Hx Hc]; apply Z.leb_le in Hc.
  apply in_map_iff in Hx as [[k g] [<- _]].
  assert (Hnps : forall p d c : nat, (1 <= c)%nat -> exists v, nps_value p d c = Some v).
  { intros p d c Hc1; unfold nps_value, Table.div_q.
    destruct (Nat.eqb c 0) eqn:E; [apply Nat.eqb_eq in E; lia|].
    eexists; reflexivity. }
  destruct k as [|k1 [|k2 [|k3 [|k4 [|k5 ks]]]]]; simpl in *; apply Hnps; lia.
Qed.

End WorstInsight.

(** C9: for the Simple Filter table (with a floor of at least one
    response, as the interface enforces) that is not empty, the NPS values
    are all numbers with a minimum [v]; with [k] the number of agents whose
    NPS equals [v], [k >= 1], and the worst-agent insight names the first
    agent [w] of the table (in its sort order) whose NPS is [v]: alone
    ([WorstOne]) when [k = 1], and with the count [k - 1] of the others
    ([WorstTie]) when [k > 1]. *)
Theorem worst_insight_names_first_minimum : forall df f tbl,
  SimpleFilter.analyze_by_tcrew df f = inr tbl ->
  (forall m, get_or (FS.min_responses_period1 f) 5 = Some m -> 1 <= m) ->
  tbl <> [] ->
  exists v pre w post,
    SimpleFilter.nan_min (map SimpleFilter.t_nps tbl) = Some v /\
    (forall x, In x tbl -> exists y, SimpleFilter.t_nps x = Some y /\ (v <= y)%Q) /\
    tbl = (pre ++ w :: post)%list /\
    SimpleFilter.eq_nan (SimpleFilter.t_nps w) (Some v) = true /\
    Forall (fun x => SimpleFilter.eq_nan (SimpleFilter.t_nps x) (Some v) = false) pre /\
    let k := length (filter (fun x => SimpleFilter.eq_nan (SimpleFilter.t_nps x) (Some v)) tbl) in
    (1 <= k)%nat /\
    (k = 1%nat -> SimpleFilter.worst_tcrew_insight tbl =
       inr (Some (SimpleFilter.WorstOne (SimpleFilter.t_tcrew w) (SimpleFilter.t_store w)
                                        (SimpleFilter.t_nps w)))) /\
    ((1 < k)%nat -> SimpleFilter.worst_tcrew_insight tbl =
       inr (Some (SimpleFilter.WorstTie (SimpleFilter.t_tcrew w) (SimpleFilter.t_store w)
                                        (k - 1) (SimpleFilter.t_nps w)))).
Proof.
  intros df f tbl H Hm Hne.
  pose proof (analyze_by_tcrew_numeric df f tbl H Hm) as Hnum.
  destruct tbl as [|t0 ts]; [congruence|].
  inversion Hnum as [|? ? [a Ha] Hts]; subst.
  assert (Hts' : Forall (fun o => exists x, o = Some x) (map SimpleFilter.t_nps ts)).
  { apply Forall_map; eapply Forall_impl; [|exact Hts]; intros x [y Hy]; exists y; exact Hy. }
  destruct (nan_min_some _ a Hts') as [v [Hv [Hin Hall]]].
  assert (Hmap : map SimpleFilter.t_nps (t0 :: ts) = Some a :: map SimpleFilter.t_nps ts)
    by (simpl; rewrite Ha; reflexivity).
  rewrite <- Hmap in Hv, Hin, Hall.
  apply in_map_iff in Hin as [x0 [Hx0 Hx0in]].
  set (p := fun x => SimpleFilter.eq_nan (SimpleFilter.t_nps x) (Some v)).
  assert (Hp0 : In x0 (filter p (t0 :: ts))).
  { apply filter_In; split; [exact Hx0in|]. unfold p; rewrite Hx0; simpl.
    apply Qeq_bool_iff, Qeq_refl. }
  destruct (filter p (t0 :: ts)) as [|w rest] eqn:Ew; [contradiction|].
  destruct (filter_first p _ w rest Ew) as [pre [post [Hsplit [Hpre Hw]]]].
  exists v, pre, w, post.
  split; [exact Hv|].
  split.
  { intros x Hx. rewrite Forall_forall in Hall.
    destruct (Hall (SimpleFilter.t_nps x) (in_map _ _ _ Hx)) as [y [Hy Hvy]].
    exists y; split; assumption. }
  split; [exact Hsplit|].
  split; [exact Hw|].
  split; [exact Hpre|].
  cbv zeta. fold p. rewrite Ew.
  unfold SimpleFilter.worst_tcrew_insight. rewrite Hv. fold p. rewrite Ew.
  split; [simpl; lia|].
  destruct rest as [|r rest]; simpl; split; intro Hk; try lia; reflexivity.
Qed.

Lemma worst_insight_names_first_minimum_witness :
  SimpleFilter.analyze_by_tcrew Inputs.tie_rows Inputs.min1_filters = inr Inputs.tie_table /\
  SimpleFilter.worst_tcrew_insight Inputs.tie_table =
    inr (Some (SimpleFilter.WorstTie Inputs.A [83%N] 1 (Some (-1000 # 10)))) /\
  exists v pre w post,
    SimpleFilter.nan_min (map SimpleFilter.t_nps Inputs.tie_table) = Some v /\
    (forall x, In x Inputs.tie_table ->
               exists y, SimpleFilter.t_nps x = Some y /\ (v <= y)%Q) /\
    Inputs.tie_table = (pre ++ w :: post)%list /\
    SimpleFilter.eq_nan (SimpleFilter.t_nps w) (Some v) = true /\
    Forall (fun x => SimpleFilter.eq_nan (SimpleFilter.t_nps x) (Some v) = false) pre /\
    let k := length (filter (fun x => SimpleFilter.eq_nan (SimpleFilter.t_nps x) (Some v))
                            Inputs.tie_table) in
    (1 <= k)%nat /\
    (k = 1%nat -> SimpleFilter.worst_tcrew_insight Inputs.tie_table =
       inr (Some (SimpleFilter.WorstOne (SimpleFilter.t_tcrew w) (SimpleFilter.t_store w)
                                        (SimpleFilter.t_nps w)))) /\
    ((1 < k)%nat -> SimpleFilter.worst_tcrew_insight Inputs.tie_table =
       inr (Some (SimpleFilter.WorstTie (SimpleFilter.t_tcrew w) (SimpleFilter.t_store w)
                                        (k - 1) (SimpleFilter.t_nps w)))).
Proof.
  assert (H : SimpleFilter.analyze_by_tcrew Inputs.tie_rows Inputs.min1_filters =
              inr Inputs.tie_table) by (vm_compute; reflexivity).
  split; [exact H|].
  split; [vm_compute; reflexivity|].
  apply (worst_insight_names_first_minimum Inputs.tie_rows Inputs.min1_filters _ H).
  - intros m Hm; injection Hm as <-; lia.
  - vm_compute; discriminate.
Defined.

(* ------------------------------------------------------------------ *)
(** ** The matcher against its relational reading *)

Section XRegexProofs.
Import Regex XRegex.

Lemma xm_suffix : forall r s s', xm r s s' -> suffix s' s.
Proof.
  induction 1; unfold suffix in *;
    repeat match goal with H : exists _, _ |- _ => destruct H end; subst.
  - exists [x]; reflexivity.
  - eexists; rewrite <- app_assoc; reflexivity.
  - exists []; reflexivity.
  - eexists; rewrite <- app_assoc; reflexivity.
  - exists []; reflexivity.
  - eexists; reflexivity.
  - eexists; reflexivity.
  - eexists; reflexivity.
  - eexists; reflexivity.
Qed.

Lemma suffix_length : forall t s, suffix t s -> (length t <= length s)%nat.
Proof. intros t s [p <-]; rewrite length_app; lia. Qed.

Lemma suffix_trans : forall a b c, suffix a b -> suffix b c -> suffix a c.
Proof.
  intros a b c [p <-] [q <-]; exists (q ++ p)%list; rewrite app_assoc; reflexivity.
Qed.

Lemma groups_ok_true : forall r, groups_ok (fun _ _ => True) r.
Proof. induction r; simpl; auto. Qed.

(** What a successful run produced: a relational match, the continuation's
    success, captures only added, every new capture satisfying [P], and
    every mandatory group captured. *)
Lemma xmatch_sound : forall P f r s cs k res,
  groups_ok P r -> xmatch f r s cs k = Some res ->
  exists s' cs', xm r s s' /\ k s' cs' = Some res /\
    (forall c, In c cs -> In c cs') /\
    (forall c, In c cs' -> In c cs \/ P (fst c) (snd c)) /\
    (forall n, mandatory n r = true -> exists v, In (n, v) cs').
Proof.
  intros P f; induction f as [|f IH]; intros r s cs k res Hok H; [discriminate|].
  destruct r as [p|r1 r2|r1|r1|r1 r2|m r1]; simpl in H, Hok.
  - destruct s as [|x s]; [discriminate|].
    destruct (p x) eqn:Hp; [|discriminate].
    exists s, cs; repeat split; auto using xm_class; discriminate.
  - destruct Hok as [Hok1 Hok2].
    destruct (IH _ _ _ _ _ Hok1 H) as (s1 & cs1 & Hm1 & Hk1 & Hin1 & Hnew1 & Hmand1).
    destruct (IH _ _ _ _ _ Hok2 Hk1) as (s2 & cs2 & Hm2 & Hk2 & Hin2 & Hnew2 & Hmand2).
    exists s2, cs2; repeat split; eauto using xm_seq.
    + intros c Hc; destruct (Hnew2 c Hc) as [Hc'|Hc']; auto.
    + intros n Hn; simpl in Hn; apply orb_true_iff in Hn as [Hn|Hn].
      * destruct (Hmand1 n Hn) as [v Hv]; eauto.
      * eauto.
  - destruct (xmatch f r1 s cs _) as [res0|] eqn:E.
    + injection H as ->.
      destruct (IH _ _ _ _ _ Hok E) as (s1 & cs1 & Hm1 & Hk1 & Hin1 & Hnew1 & _).
      destruct (Nat.ltb (length s1) (length s)) eqn:Hlt; [|discriminate].
      apply Nat.ltb_lt in Hlt.
      destruct (IH (XStar r1) _ _ _ _ Hok Hk1) as (s2 & cs2 & Hm2 & Hk2 & Hin2 & Hnew2 & _).
      exists s2, cs2; repeat split; eauto using xm_star_step.
      * intros c Hc; destruct (Hnew2 c Hc) as [Hc'|Hc']; auto.
      * discriminate.
    + exists s, cs; repeat split; auto using xm_star_nil; discriminate.
  - destruct (xmatch f r1 s cs k) as [res0|] eqn:E.
    + injection H as ->.
      destruct (IH _ _ _ _ _ Hok E) as (s1 & cs1 & Hm1 & Hk1 & Hin1 & Hnew1 & _).
      exists s1, cs1; repeat split; eauto using xm_opt_some; discriminate.
    + exists s, cs; repeat split; auto using xm_opt_nil; discriminate.
  - destruct Hok as [Hok1 Hok2].
    destruct (xmatch f r1 s cs k) as [res0|] eqn:E.
    + injection H as ->.
      destruct (IH _ _ _ _ _ Hok1 E) as (s1 & cs1 & Hm1 & Hk1 & Hin1 & Hnew1 & Hmand1).
      exists s1, cs1; repeat split; eauto using xm_alt_l.
      intros n Hn; simpl in Hn; apply andb_true_iff in Hn as [Hn _]; auto.
    + destruct (IH _ _ _ _ _ Hok2 H) as (s1 & cs1 & Hm1 & Hk1 & Hin1 & Hnew1 & Hmand1).
      exists s1, cs1; repeat split; eauto using xm_alt_r.
      intros n Hn; simpl in Hn; apply andb_true_iff in Hn as [_ Hn]; auto.
  - destruct Hok as [Hok1 Hcap].
    destruct (IH _ _ _ _ _ Hok1 H) as (s1 & cs1 & Hm1 & Hk1 & Hin1 & Hnew1 & Hmand1).
    exists s1, ((m, firstn (length s - length s1) s) :: cs1); repeat split.
    + now apply xm_group.
    + exact Hk1.
    + intros c Hc; right; auto.
    + intros c [<-|Hc]; [right; apply Hcap, Hm1|].
      destruct (Hnew1 c Hc); auto.
    + intros n Hn; simpl in Hn; apply orb_true_iff in Hn as [Hn|Hn].
      * apply Nat.eqb_eq in Hn; subst; eexists; left; reflexivity.
      * destruct (Hmand1 n Hn) as [v Hv]; exists v; right; exact Hv.
Qed.

(** With enough fuel, a relational match is found. *)
Lemma xmatch_complete : forall r s s', xm r s s' ->
  forall f cs k, (cst r * S (length s) <= f)%nat -> (forall c, k s' c <> None) ->
  xmatch f r s cs k <> None.
Proof.
  induction 1 as [p x s Hp|r1 r2 s s1 s2 H1 IH1 H2 IH2|r s|r s s1 s2 H1 IH1 Hlt H2 IH2
                 |r s|r s s1 H1 IH1|r1 r2 s s1 H1 IH1|r1 r2 s s1 H1 IH1|n r s s1 H1 IH1];
    intros f cs k Hf Hk; (destruct f as [|f]; [simpl in Hf; lia|]); simpl in Hf |- *.
  - rewrite Hp; apply Hk.
  - apply IH1; [nia|].
    intro c; apply IH2; [|exact Hk].
    pose proof (suffix_length _ _ (xm_suffix _ _ _ H1)); nia.
  - destruct (xmatch f r s cs _); [discriminate|apply Hk].
  - enough (xmatch f r s cs (fun s' cs' => if Nat.ltb (length s') (length s)
                                          then xmatch f (XStar r) s' cs' k else None) <> None)
      by (destruct (xmatch f r s cs _); [discriminate|contradiction]).
    apply IH1; [nia|].
    intro c; apply Nat.ltb_lt in Hlt as Hlt'; rewrite Hlt'.
    apply IH2; [simpl; nia|exact Hk].
  - destruct (xmatch f r s cs k); [discriminate|apply Hk].
  - enough (xmatch f r s cs k <> None) by (destruct (xmatch f r s cs k); [discriminate|contradiction]).
    apply IH1; [nia|exact Hk].
  - enough (xmatch f r1 s cs k <> None) by (destruct (xmatch f r1 s cs k); [discriminate|contradiction]).
    apply IH1; [nia|exact Hk].
  - destruct (xmatch f r1 s cs k); [discriminate|].
    apply IH1; [nia|exact Hk].
  - apply IH1; [nia|]; intro c; apply Hk.
Qed.

Lemma xsearch_eq : forall r s,
  xsearch r s = match xmatch (fuel_for s) r s [] (fun _ cs => Some cs) with
                | Some cs => Some cs
                | None => match s with [] => None | _ :: t => xsearch r t end
                end.
Proof. intros r [|x s]; reflexivity. Qed.

Lemma search_eq : forall r s,
  search r s = match rmatch (fuel_for s) r s [] (fun _ cs => Some cs) with
               | Some cs => Some cs
               | None => match s with [] => None | _ :: t => search r t end
               end.
Proof. intros r [|x s]; reflexivity. Qed.

(** A successful search: the pattern matches at some suffix of the input,
    and every capture satisfies [P]. *)
Lemma xsearch_sound : forall P r q m, groups_ok P r -> xsearch r q = Some m ->
  (exists t t', suffix t q /\ xm r t t') /\
  (forall c, In c m -> P (fst c) (snd c)) /\
  (forall n, mandatory n r = true -> exists v, In (n, v) m).
Proof.
  intros P r q; induction q as [|x q IH]; intros m Hok H; rewrite xsearch_eq in H.
  - destruct (xmatch _ r [] [] _) as [cs|] eqn:E; [|discriminate].
    injection H as <-.
    destruct (xmatch_sound _ _ _ _ _ _ _ Hok E) as (s' & cs' & Hm & Hk & _ & Hnew & Hmand).
    injection Hk as ->.
    split; [exists [], s'; split; [exists []; reflexivity|exact Hm]|split; [|exact Hmand]].
    intros c Hc; destruct (Hnew c Hc) as [[]|]; auto.
  - destruct (xmatch _ r (x :: q) [] _) as [cs|] eqn:E.
    + injection H as <-.
      destruct (xmatch_sound _ _ _ _ _ _ _ Hok E) as (s' & cs' & Hm & Hk & _ & Hnew & Hmand).
      injection Hk as ->.
      split; [exists (x :: q), s'; split; [exists []; reflexivity|exact Hm]|split; [|exact Hmand]].
      intros c Hc; destruct (Hnew c Hc) as [[]|]; auto.
    + destruct (IH m Hok H) as [(t & t' & Ht & Hm) Hrest].
      split; [|exact Hrest].
      exists t, t'; split; [|exact Hm].
      destruct Ht as [p <-]; exists (x :: p); reflexivity.
Qed.

Lemma xsearch_complete : forall r q t t', suffix t q -> xm r t t' -> (cst r <= 100)%nat ->
  xsearch r q <> None.
Proof.
  intros r q; induction q as [|x q IH]; intros t t' Ht Hm Hc; rewrite xsearch_eq.
  - destruct Ht as [p Hp]; apply app_eq_nil in Hp as [_ ->].
    assert (xmatch (fuel_for []) r [] [] (fun _ cs => Some cs) <> None)
      by (apply (xmatch_complete _ _ _ Hm); [unfold fuel_for; simpl; lia|discriminate]).
    destruct (xmatch _ r [] [] _); [discriminate|contradiction].
  - destruct (xmatch (fuel_for (x :: q)) r (x :: q) [] _) eqn:E; [discriminate|].
    destruct Ht as [[|y p] Hp]; simpl in Hp.
    + subst t.
      assert (xmatch (fuel_for (x :: q)) r (x :: q) [] (fun _ cs => Some cs) <> None)
        by (apply (xmatch_complete _ _ _ Hm); [unfold fuel_for; nia|discriminate]).
      contradiction.
    + injection Hp as _ Hp; apply (IH t t'); [exists p; exact Hp|exact Hm|exact Hc].
Qed.

Lemma xmatch_ext : forall f r s cs k1 k2, (forall s' c, k1 s' c = k2 s' c) ->
  xmatch f r s cs k1 = xmatch f r s cs k2.
Proof.
  induction f as [|f IH]; intros r s cs k1 k2 Hk; [reflexivity|].
  destruct r; simpl.
  - destruct s; [reflexivity|]; destruct (p n); auto.
  - apply IH; intros; apply IH; exact Hk.
  - rewrite (IH r s cs _ (fun s' cs' => if Nat.ltb (length s') (length s)
                                        then xmatch f (XStar r) s' cs' k2 else None)).
    + destruct (xmatch f r s cs _); auto.
    + intros s' c; destruct (Nat.ltb _ _); auto.
  - rewrite (IH r s cs k1 k2 Hk); destruct (xmatch f r s cs k2); auto.
  - rewrite (IH r1 s cs k1 k2 Hk); destruct (xmatch f r1 s cs k2); auto.
  - apply IH; intros; apply Hk.
Qed.

(** [Regex.rmatch] is [xmatch] on the translated pattern. *)
Lemma rmatch_xmatch : forall f r s cs k, rmatch f r s cs k = xmatch f (of_regex r) s cs k.
Proof.
  induction f as [|f IH]; intros r s cs k; [reflexivity|].
  destruct r; simpl.
  - destruct s; reflexivity.
  - destruct s; reflexivity.
  - destruct s; reflexivity.
  - rewrite IH; apply xmatch_ext; intros; apply IH.
  - rewrite IH.
    rewrite (xmatch_ext f (of_regex r) s cs _
               (fun s' cs' => if Nat.ltb (length s') (length s)
                              then xmatch f (XStar (of_regex r)) s' cs' k else None)).
    + reflexivity.
    + intros s' c; destruct (Nat.ltb _ _); [apply (IH (RStar r))|reflexivity].
  - rewrite IH; reflexivity.
  - rewrite IH; reflexivity.
Qed.

Lemma search_xsearch : forall r s, search r s = xsearch (of_regex r) s.
Proof.
  intros r s; induction s as [|x s IH]; rewrite search_eq, xsearch_eq, rmatch_xmatch;
    [reflexivity|rewrite IH; reflexivity].
Qed.

(** Group numbers do not change what a pattern consumes. *)
Lemma xm_erase : forall r1 s s', xm r1 s s' -> forall r2, erase r1 = erase r2 -> xm r2 s s'.
Proof.
  induction 1; intros r2' He; destruct r2'; simpl in He; try discriminate;
    injection He; intros; subst; econstructor; eauto;
    match goal with IH : forall r2, erase ?r = erase r2 -> _ |- _ => apply IH; simpl; congruence end.
Qed.

(** A run of a one-character class. *)
Lemma xm_star_class : forall p s s', xm (XStar (XClass p)) s s' ->
  exists w, s = (w ++ s')%list /\ Forall (fun c => p c = true) w.
Proof.
  intros p s s' H; remember (XStar (XClass p)) as r eqn:Er; revert Er.
  induction H; intro Er; try discriminate.
  - exists []; auto.
  - injection Er as ->; destruct (IHxm2 eq_refl) as (w & -> & Hw).
    inversion H; subst; exists (x :: w); auto.
Qed.

Lemma xm_plus_class : forall p s s', xm (XPlus (XClass p)) s s' ->
  exists w, s = (w ++ s')%list /\ w <> [] /\ Forall (fun c => p c = true) w.
Proof.
  intros p s s' H; unfold XPlus in H; inversion H; subst.
  match goal with Hc : xm (XClass _) _ _ |- _ => inversion Hc; subst end.
  match goal with Hs : xm (XStar _) _ _ |- _ => destruct (xm_star_class _ _ _ Hs) as (w & -> & Hw) end.
  exists (x :: w); repeat split; auto; discriminate.
Qed.

Lemma firstn_prefix : forall (w s : ustr), firstn (length (w ++ s) - length s) (w ++ s) = w.
Proof.
  intros w s; rewrite length_app, Nat.add_sub, firstn_app, Nat.sub_diag, firstn_O,
    firstn_all, app_nil_r; reflexivity.
Qed.

Lemma group_in : forall n m v, group n m = Some v -> In (n, v) m.
Proof.
  intros n m v; unfold group.
  destruct (find _ m) as [[n' v']|] eqn:E; [|discriminate].
  intro H; injection H as <-.
  apply find_some in E as [Hin Heq]; simpl in Heq; apply Nat.eqb_eq in Heq; subst; exact Hin.
Qed.

Lemma group_some : forall n m v, In (n, v) m -> exists v', group n m = Some v'.
Proof.
  intros n m v Hin; unfold group.
  destruct (find (fun p => Nat.eqb (fst p) n) m) as [[n' v']|] eqn:E; [eauto|].
  apply (find_none _ _ E) in Hin; simpl in Hin; rewrite Nat.eqb_refl in Hin; discriminate.
Qed.

End XRegexProofs.

(** ** The extractors of query_parser.py *)

Section ParserExtractors.
Import Regex XRegex ParserX.

Lemma xm_class_inv : forall p s s', xm (XClass p) s s' -> exists x, s = x :: s' /\ p x = true.
Proof. intros p s s' H; inversion H; subst; eauto. Qed.

Lemma digits_value_nonneg : forall ds acc, 0 <= acc ->
  0 <= fold_left (fun acc d => acc * 10 + Z.of_N (digit_value d)) ds acc.
Proof.
  induction ds as [|d ds IH]; intros acc Hacc; simpl; [exact Hacc|].
  apply IH; pose proof (N2Z.is_nonneg (digit_value d)); lia.
Qed.

Lemma int_group_nonneg : forall n m, 0 <= int_group n m.
Proof.
  intros n m; unfold int_group, digits_value; destruct (group n m); [|lia].
  apply digits_value_nonneg; lia.
Qed.

Lemma digit_run_spec : forall c l s, digit_run c l = Some s ->
  In s l /\ (s <= c < s + 10)%N.
Proof.
  intros c l s; induction l as [|s' l IH]; simpl; [discriminate|].
  destruct (N.leb s' c && N.ltb c (s' + 10)) eqn:E.
  - intro H; injection H as <-; apply andb_true_iff in E as [E1 E2].
    apply N.leb_le in E1; apply N.ltb_lt in E2; auto.
  - intro H; destruct (IH H); auto.
Qed.

(** A property of code points holds of every decimal digit once it is
    checked on the 660 digits of the table. *)
Lemma digit_check : forall P : N -> bool,
  forallb (fun s => forallb (fun k => P (s + N.of_nat k)%N) (seq 0 10)) nd_starts = true ->
  forall c, is_digit c = true -> P c = true.
Proof.
  intros P HP c Hc; unfold is_digit in Hc.
  destruct (digit_run c nd_starts) as [s|] eqn:E; [|discriminate].
  destruct (digit_run_spec _ _ _ E) as [Hs Hr].
  rewrite forallb_forall in HP; specialize (HP s Hs); rewrite forallb_forall in HP.
  specialize (HP (N.to_nat (c - s))).
  rewrite Nnat.N2Nat.id in HP; replace (s + (c - s))%N with c in HP by lia.
  apply HP, in_seq; lia.
Qed.

Lemma digit_not_space : forall c, is_digit c = true -> is_space c = false.
Proof.
  intros c Hc; apply negb_true_iff.
  apply (digit_check (fun c => negb (is_space c))); [vm_compute; reflexivity|exact Hc].
Qed.

(** No decimal digit is [:], [+], [-], [.], [_], [e] or [E]. *)
Lemma digit_not_punct : forall c, is_digit c = true ->
  existsb (N.eqb c) [58; 43; 45; 46; 95; 101; 69]%N = false.
Proof.
  intros c Hc; apply negb_true_iff.
  apply (digit_check (fun c => negb (existsb (N.eqb c) [58; 43; 45; 46; 95; 101; 69]%N)));
    [vm_compute; reflexivity|exact Hc].
Qed.

Lemma colon_field_digits : forall v, Forall (fun c => is_digit c = true) v ->
  FS.colon_field v = v.
Proof.
  intros v Hd; induction Hd as [|c v Hc _ IH]; [reflexivity|].
  pose proof (digit_not_punct c Hc) as Hp; simpl in Hp |- *.
  destruct (N.eqb c 58); [discriminate|now rewrite IH].
Qed.

Lemma lstrip_digit : forall c v, is_digit c = true -> PyFloat.lstrip (c :: v) = c :: v.
Proof. intros c v Hc; simpl; now rewrite digit_not_space. Qed.

Lemma digits_tail_digits : forall v, Forall (fun c => is_digit c = true) v ->
  PyFloat.digits_tail v = (v, []).
Proof.
  intros v Hd; induction Hd as [|c v Hc _ IH]; [reflexivity|].
  simpl; now rewrite Hc, IH.
Qed.

(** [float(...)] reads a non-empty run of decimal digits (of any script)
    as the float64 nearest to its value. *)
Lemma float_of_digits_digits : forall v : ustr, v <> [] ->
  Forall (fun c => is_digit c = true) v ->
  exists c, SeniorGap.float_of_digits v = inr c.
Proof.
  intros v Hne Hd.
  unfold SeniorGap.float_of_digits; rewrite colon_field_digits by exact Hd.
  destruct v as [|c v]; [congruence|].
  pose proof (Forall_inv Hd) as Hc.
  assert (Hs : PyFloat.strip (c :: v) = c :: v).
  { unfold PyFloat.strip; rewrite lstrip_digit by exact Hc.
    destruct (rev (c :: v)) as [|c' w] eqn:Er;
      [apply (f_equal (@rev N)) in Er; rewrite rev_involutive in Er; discriminate|].
    assert (Hc' : is_digit c' = true).
    { rewrite Forall_forall in Hd; apply Hd, in_rev; rewrite Er; left; reflexivity. }
    rewrite lstrip_digit, <- Er, rev_involutive by exact Hc'; reflexivity. }
  pose proof (digit_not_punct c Hc) as Hp; simpl in Hp.
  apply orb_false_iff in Hp as [_ Hp]; apply orb_false_iff in Hp as [H43 Hp];
    apply orb_false_iff in Hp as [H45 _].
  unfold PyFloat.py_float; rewrite Hs; unfold PyFloat.sign; rewrite H43, H45.
  unfold PyFloat.number, PyFloat.digitpart; rewrite Hc, digits_tail_digits by exact (Forall_inv_tail Hd).
  simpl; eauto.
Qed.


Lemma xm_plus_class_intro : forall p (w s : ustr), w <> [] -> Forall (fun c => p c = true) w ->
  xm (XPlus (XClass p)) (w ++ s)%list s.
Proof.
  intros p w s Hne Hw; destruct Hw as [|c w Hc Hw]; [congruence|].
  apply xm_seq with (s1 := (w ++ s)%list); [constructor; exact Hc|].
  clear Hne Hc; induction Hw as [|c' w Hc' _ IH]; [constructor|].
  apply xm_star_step with (s1 := (w ++ s)%list); [constructor; exact Hc'|simpl; lia|exact IH].
Qed.

Lemma digit_word_xm : forall w b, ParserX.digit_word w ->
  xm month_re (w ++ Parser.WOL :: b)%list b.
Proof.
  intros w b [Hne Hw]; unfold month_re.
  apply xm_seq with (s1 := Parser.WOL :: b).
  - apply xm_group, xm_plus_class_intro; assumption.
  - apply xm_class, N.eqb_refl.
Qed.

(** [re.search(r'(\d+)월', q)]: the first [<digits>월] of [q], whose
    digits are group 1. *)
Lemma month_re_search : forall q m, xsearch month_re q = Some m ->
  exists a w b, q = (a ++ w ++ Parser.WOL :: b)%list /\ digit_word w /\
    group 1 m = Some w /\
    (forall a' w' b', q = (a' ++ w' ++ Parser.WOL :: b')%list -> digit_word w' ->
                      (length a <= length a')%nat).
Proof.
  induction q as [|x q IH]; intros m H; rewrite xsearch_eq in H.
  - unfold fuel_for in H; simpl in H; discriminate.
  - destruct (xmatch (fuel_for (x :: q)) month_re (x :: q) [] (fun _ cs => Some cs)) as [cs|] eqn:E.
    + injection H as <-.
      unfold fuel_for in E; simpl Nat.mul in E; unfold month_re in E.
      cbn [xmatch] in E.
      apply (xmatch_sound (fun _ _ => True)) in E; [|simpl; tauto].
      destruct E as (s' & cs' & Hm & Hk & _).
      destruct (xm_plus_class _ _ _ Hm) as (w & Hs & Hne & Hw).
      rewrite Hs, firstn_prefix in Hk.
      destruct s' as [|y b]; [discriminate|].
      unfold XChar in Hk; cbn beta iota in Hk.
      destruct (N.eqb y Parser.WOL) eqn:Ey; [|discriminate].
      apply N.eqb_eq in Ey; subst y; injection Hk as <-.
      exists [], w, b; split; [exact Hs|]; split; [split; assumption|].
      split; [unfold group; simpl; reflexivity|].
      intros; simpl; lia.
    + destruct (IH m H) as (a & w & b & Hq & Hat & Hg & Hmin).
      exists (x :: a), w, b; split; [simpl; congruence|]; split; [exact Hat|]; split; [exact Hg|].
      intros [|y a'] w' b' Hq' Hat'.
      * exfalso; simpl in Hq'; subst.
        assert (xmatch (fuel_for (w' ++ Parser.WOL :: b')%list) month_re (w' ++ Parser.WOL :: b')%list []
                  (fun _ cs => Some cs) <> None).
        { apply (xmatch_complete _ _ _ (digit_word_xm _ _ Hat')); [|discriminate].
          unfold fuel_for; simpl; lia. }
        rewrite <- Hq' in H0; contradiction.
      * injection Hq' as _ Hq'; simpl; specialize (Hmin a' w' b' Hq' Hat'); lia.
Qed.

End ParserExtractors.

(** X1: for every question, whenever the month-range pattern
    [(\d+)~(\d+)월\s*대비\s*(\d+)월] finds a match, the single-month pattern
    [(\d+)월\s*대비\s*(\d+)월] (tried first) finds one too, so the month-range
    branch of [_extract_comparison_periods] is never taken. *)
Theorem month_range_branch_unreachable : forall q : ustr,
  Regex.search Parser.pattern2 q <> None -> Regex.search Parser.pattern1 q <> None.
Proof.
  intros q H; rewrite search_xsearch in H |- *.
  destruct (XRegex.xsearch (XRegex.of_regex Parser.pattern2) q) as [m|] eqn:E; [|contradiction].
  destruct (xsearch_sound _ _ _ _ (groups_ok_true _) E) as [(t & t' & Ht & Hm) _].
  assert (Hshape : exists g tl, XRegex.of_regex Parser.pattern2 =
                                XRegex.XSeq g (XRegex.XSeq (XRegex.XChar Parser.TILDE) tl) /\
                                XRegex.erase tl = XRegex.erase (XRegex.of_regex Parser.pattern1))
    by (do 2 eexists; split; reflexivity).
  destruct Hshape as (g & tl & Hp2 & Her).
  rewrite Hp2 in Hm.
  inversion Hm as [| ? ? ? t1 ? Hg Hrest | | | | | | |]; subst.
  inversion Hrest as [| ? ? ? t2 ? Htilde Htl | | | | | | |]; subst.
  apply (xsearch_complete _ q t2 t').
  - apply (suffix_trans _ t1); [exact (xm_suffix _ _ _ Htilde)|].
    apply (suffix_trans _ t); [exact (xm_suffix _ _ _ Hg)|exact Ht].
  - exact (xm_erase _ _ _ Htl _ Her).
  - vm_compute; lia.
Qed.

Lemma month_range_branch_unreachable_witness :
  Regex.search Parser.pattern2 Inputs.q_range <> None /\
  Regex.search Parser.pattern1 Inputs.q_range <> None.
Proof.
  split; [vm_compute; discriminate|].
  apply (month_range_branch_unreachable Inputs.q_range); vm_compute; discriminate.
Defined.

(** X2: in [_extract_period], whenever the date pattern [(\d+)월\s*(\d+)일]
    matches, the month pattern [(\d+)월] (tried first) matches too, so the
    date branch is never taken. The result is None exactly when the question
    has no [<digits>월] ([\d] being any Unicode decimal digit); otherwise it
    is the pair ['2025-MM-01'], ['2025-MM-31'] for the digits [w] of the
    first [<digits>월] of the question ([MM] = [f'{int(w):02d}']), whatever
    the month's length. *)
Theorem extract_period_whole_month : forall q : ustr,
  (XRegex.xsearch ParserX.date_re q <> None -> XRegex.xsearch ParserX.month_re q <> None) /\
  (ParserX.extract_period q = None <->
   ~ exists a w b, q = (a ++ w ++ Parser.WOL :: b)%list /\ ParserX.digit_word w) /\
  (forall p, ParserX.extract_period q = Some p ->
   exists a w b, q = (a ++ w ++ Parser.WOL :: b)%list /\ ParserX.digit_word w /\
     (forall a' w' b', q = (a' ++ w' ++ Parser.WOL :: b')%list -> ParserX.digit_word w' ->
                       (length a <= length a')%nat) /\
     p = ("2025-" ++ ParserX.fmt02 (Regex.digits_value w) ++ "-01",
          "2025-" ++ ParserX.fmt02 (Regex.digits_value w) ++ "-31")).
Proof.
  intro q.
  assert (Hdead : XRegex.xsearch ParserX.date_re q <> None ->
                  XRegex.xsearch ParserX.month_re q <> None).
  { intro H.
    destruct (XRegex.xsearch ParserX.date_re q) as [m|] eqn:E; [|contradiction].
    destruct (xsearch_sound _ _ _ _ (groups_ok_true _) E) as [(t & t' & Ht & Hm) _].
    unfold ParserX.date_re in Hm; simpl XRegex.XSeqs in Hm.
    inversion Hm as [| ? ? ? t1 ? Hg Hrest | | | | | | |]; subst.
    inversion Hrest as [| ? ? ? t2 ? Hwol Htl | | | | | | |]; subst.
    apply (xsearch_complete _ q t t2 Ht); [econstructor; eassumption|vm_compute; lia]. }
  split; [exact Hdead|].
  unfold ParserX.extract_period.
  destruct (XRegex.xsearch ParserX.month_re q) as [m|] eqn:E1.
  - destruct (month_re_search _ _ E1) as (a & w & b & Hq & Hw & Hg & Hmin).
    split; [split; [discriminate|intro Hn; exfalso; apply Hn; eauto]|].
    intros p Hp; injection Hp as <-.
    exists a, w, b; split; [exact Hq|split; [exact Hw|split; [exact Hmin|]]].
    unfold Regex.int_group; rewrite Hg; reflexivity.
  - assert (Hnone : ~ exists a w b, q = (a ++ w ++ Parser.WOL :: b)%list /\ ParserX.digit_word w).
    { intros (a & w & b & Hq & Hw).
      apply (xsearch_complete ParserX.month_re q (w ++ Parser.WOL :: b)%list b);
        [exists a; symmetry; exact Hq|apply digit_word_xm, Hw|vm_compute; lia|exact E1]. }
    destruct (XRegex.xsearch ParserX.date_re q) eqn:E2.
    + exfalso; apply Hdead; [discriminate|reflexivity].
    + split; [tauto|discriminate].
Qed.

Lemma extract_period_whole_month_witness :
  ParserX.extract_period MoreInputs.q_fw_month = Some ("2025-12-01", "2025-12-31") /\
  exists a w b, MoreInputs.q_fw_month = (a ++ w ++ Parser.WOL :: b)%list /\ ParserX.digit_word w /\
    (forall a' w' b', MoreInputs.q_fw_month = (a' ++ w' ++ Parser.WOL :: b')%list ->
                      ParserX.digit_word w' -> (length a <= length a')%nat) /\
    ("2025-12-01", "2025-12-31") =
    ("2025-" ++ ParserX.fmt02 (Regex.digits_value w) ++ "-01",
     "2025-" ++ ParserX.fmt02 (Regex.digits_value w) ++ "-31").
Proof.
  split; [vm_compute; reflexivity|].
  apply (proj2 (proj2 (extract_period_whole_month MoreInputs.q_fw_month))).
  vm_compute; reflexivity.
Defined.

(** X3: [_extract_senior_threshold] returns None exactly when the question
    does not contain '시니어'; a ['custom:<v>'] threshold it returns always
    carries a non-empty run of [\d] digits (of any script), which [float()]
    reads, so step 2 of the Senior Gap filter never raises on a threshold
    produced by the parser. *)
Theorem senior_threshold_from_parser : forall q : ustr,
  (ParserX.extract_senior_threshold q = None <-> ParserX.contains ParserX.SENIOR q = false) /\
  (forall f avg l, get (FS.senior_threshold f) = ParserX.extract_senior_threshold q ->
                   exists r, SeniorGap.step2 f avg l = inr r).
Proof.
  intro q; split.
  - unfold ParserX.extract_senior_threshold.
    destruct (ParserX.contains ParserX.SENIOR q); cbn [negb]; [|split; reflexivity].
    destruct (XRegex.xsearch _ q); [split; discriminate|].
    destruct (ParserX.any_in ParserX.high_keywords q); [split; discriminate|].
    destruct (ParserX.any_in ParserX.low_keywords q); split; discriminate.
  - intros f avg l Hf; unfold SeniorGap.step2; rewrite Hf.
    unfold ParserX.extract_senior_threshold.
    destruct (ParserX.contains ParserX.SENIOR q); cbn [negb]; [|eauto].
    destruct (XRegex.xsearch ParserX.senior_re q) as [m|] eqn:E.
    + set (P := fun (n : nat) (v : ustr) =>
                  n = 1%nat -> v <> [] /\ Forall (fun c => Regex.is_digit c = true) v).
      assert (Hok : XRegex.groups_ok P ParserX.senior_re).
      { unfold ParserX.senior_re; simpl.
        repeat match goal with |- _ /\ _ => split | |- True => exact I end; intros s0 s1 Hx Hn; [|discriminate Hn].
        destruct (xm_plus_class _ _ _ Hx) as (w & -> & Hw & Hd).
        rewrite firstn_prefix; split; assumption. }
      destruct (xsearch_sound _ _ _ _ Hok E) as (_ & Hcaps & Hmand).
      destruct (Hmand 1%nat eq_refl) as [v0 Hv0].
      destruct (group_some _ _ _ Hv0) as [v Hv].
      destruct (Hcaps _ (group_in _ _ _ Hv) eq_refl) as [Hne Hd].
      unfold ParserX.group_str; rewrite Hv.
      destruct (float_of_digits_digits v Hne Hd) as [c Hc]; rewrite Hc; simpl; eauto.
    + destruct (ParserX.any_in ParserX.high_keywords q); [simpl; eauto|].
      destruct (ParserX.any_in ParserX.low_keywords q); simpl; eauto.
Qed.

Lemma senior_threshold_from_parser_witness :
  ParserX.extract_senior_threshold MoreInputs.q_fw_senior = Some (FS.SCustom [65299; 65296]%N) /\
  exists r, SeniorGap.step2 MoreInputs.fw_senior_filters 0 [] = inr r.
Proof.
  split; [vm_compute; reflexivity|].
  apply (proj2 (senior_threshold_from_parser MoreInputs.q_fw_senior)).
  vm_compute; reflexivity.
Defined.

(** X4: a store code extracted by [_extract_store_code] is exactly four
    [\d] characters, any Unicode decimal digits (a longer run of digits is
    cut after four). *)
Theorem store_code_four_digits : forall (q v : ustr),
  ParserX.extract_store_code q = Some v ->
  length v = 4%nat /\ Forall (fun c => Regex.is_digit c = true) v.
Proof.
  intros q v H; unfold ParserX.extract_store_code in H.
  destruct (XRegex.xsearch ParserX.store_code_re q) as [m|] eqn:E; [|discriminate].
  set (P := fun (n : nat) (w : ustr) =>
              n = 1%nat -> length w = 4%nat /\ Forall (fun c => Regex.is_digit c = true) w).
  assert (Hok : XRegex.groups_ok P ParserX.store_code_re).
  { unfold ParserX.store_code_re; simpl.
    repeat match goal with |- _ /\ _ => split | |- True => exact I end; intros s s' Hx _.
    inversion Hx as [| ? ? ? s1 ? H1 Hx1 | | | | | | |]; subst.
    inversion Hx1 as [| ? ? ? s2 ? H2 Hx2 | | | | | | |]; subst.
    inversion Hx2 as [| ? ? ? s3 ? H3 H4 | | | | | | |]; subst.
    destruct (xm_class_inv _ _ _ H1) as (a & -> & Ha).
    destruct (xm_class_inv _ _ _ H2) as (b & -> & Hb).
    destruct (xm_class_inv _ _ _ H3) as (c & -> & Hc).
    destruct (xm_class_inv _ _ _ H4) as (d & -> & Hd).
    replace (length (a :: b :: c :: d :: s') - length s')%nat with 4%nat by (cbn [length]; lia).
    simpl; split; [reflexivity|repeat constructor; assumption]. }
  destruct (xsearch_sound _ _ _ _ Hok E) as (_ & Hcaps & _).
  exact (Hcaps _ (group_in _ _ _ H) eq_refl).
Qed.

Lemma store_code_four_digits_witness :
  ParserX.extract_store_code MoreInputs.q_fw_store = Some [65297; 65298; 65299; 65300]%N /\
  length [65297; 65298; 65299; 65300]%N = 4%nat /\
  Forall (fun c => Regex.is_digit c = true) [65297; 65298; 65299; 65300]%N.
Proof.
  split; [vm_compute; reflexivity|].
  apply (store_code_four_digits MoreInputs.q_fw_store); vm_compute; reflexivity.
Defined.

(** X5: a store name extracted by [_extract_store_name] is at least two
    Hangul syllables and ends in '점': one or more syllables of [[가-힣]]
    followed by '점'. *)
Theorem store_name_shape : forall (q v : ustr),
  ParserX.extract_store_name q = Some v ->
  exists w, v = (w ++ [ParserX.JEOM])%list /\ w <> [] /\ Forall (fun c => ParserX.is_hangul c = true) w.
Proof.
  intros q v H; unfold ParserX.extract_store_name in H.
  destruct (XRegex.xsearch ParserX.store_name_re q) as [m|] eqn:E; [|discriminate].
  set (P := fun (n : nat) (v : ustr) =>
              exists w, v = (w ++ [ParserX.JEOM])%list /\ w <> [] /\
                        Forall (fun c => ParserX.is_hangul c = true) w).
  assert (Hok : XRegex.groups_ok P ParserX.store_name_re).
  { unfold ParserX.store_name_re; simpl.
    repeat match goal with |- _ /\ _ => split | |- True => exact I end; intros s s' Hx.
    inversion Hx as [| ? ? ? s1 ? H1 H2 | | | | | | |]; subst.
    destruct (xm_plus_class _ _ _ H1) as (w & -> & Hw & Hh).
    destruct (xm_class_inv _ _ _ H2) as (j & -> & Hj).
    apply N.eqb_eq in Hj; subst j.
    exists w; split; [|split; assumption].
    replace (w ++ ParserX.JEOM :: s')%list with ((w ++ [ParserX.JEOM]) ++ s')%list
      by (rewrite <- app_assoc; reflexivity).
    rewrite firstn_prefix; reflexivity. }
  destruct (xsearch_sound _ _ _ _ Hok E) as (_ & Hcaps & _).
  exact (Hcaps _ (group_in _ _ _ H)).
Qed.

Lemma store_name_shape_witness :
  ParserX.extract_store_name [32; 44032; 51216; 51216; 32]%N = Some [44032; 51216; 51216]%N /\
  exists w, [44032; 51216; 51216]%N = (w ++ [ParserX.JEOM])%list /\ w <> [] /\
            Forall (fun c => ParserX.is_hangul c = true) w.
Proof.
  split; [vm_compute; reflexivity|].
  apply (store_name_shape [32; 44032; 51216; 51216; 32]%N); vm_compute; reflexivity.
Defined.

(** X6: the [min_responses] that [parse] stores is always at least 1: a
    count of 0 written before '건' is falsy and leaves the default 5. *)
Theorem parse_min_responses_positive : forall q : ustr, 1 <= ParserX.parse_min_responses q.
Proof.
  intro q; unfold ParserX.parse_min_responses, ParserX.extract_min_responses.
  destruct (XRegex.xsearch ParserX.min_resp_re q) as [m|].
  - pose proof (int_group_nonneg 1 m); destruct (Z.eqb_spec (Regex.int_group 1 m) 0); lia.
  - simpl; lia.
Qed.

(** ** Sorting and grouping *)

Section TableProofs.
Import Table.

Lemma insert_by_perm : forall {A} (le : A -> A -> bool) x l,
  Permutation (insert_by le x l) (x :: l).
Proof.
  intros A le x l; induction l as [|y l IH]; simpl; [reflexivity|].
  destruct (le y x); [|reflexivity].
  eapply perm_trans; [apply perm_skip, IH|apply perm_swap].
Qed.

Lemma sort_by_perm : forall {A} (le : A -> A -> bool) l, Permutation (sort_by le l) l.
Proof.
  intros A le l; unfold sort_by.
  assert (H : forall l0 acc,
             Permutation (fold_left (fun acc x => insert_by le x acc) l0 acc) (l0 ++ acc)).
  { induction l0 as [|x l0 IH]; intro acc; simpl; [reflexivity|].
    eapply perm_trans; [apply IH|].
    eapply perm_trans; [apply Permutation_app_head, insert_by_perm|].
    apply Permutation_sym, Permutation_middle. }
  pose proof (H l []) as H'; rewrite app_nil_r in H'; exact H'.
Qed.

Lemma insert_by_sorted : forall {A} (le : A -> A -> bool),
  (forall a b, le a b = false -> le b a = true) ->
  forall x l, Sorted (fun a b => le a b = true) l ->
  Sorted (fun a b => le a b = true) (insert_by le x l).
Proof.
  intros A le Htot x l H; induction H as [|y l Hs IH Hhd]; simpl.
  - repeat constructor.
  - destruct (le y x) eqn:E.
    + constructor; [exact IH|].
      destruct l as [|z l']; simpl; [constructor; exact E|].
      destruct (le z x); constructor; [inversion Hhd; assumption|exact E].
    + constructor; [constructor; assumption|constructor; apply Htot; exact E].
Qed.

Lemma sort_by_sorted : forall {A} (le : A -> A -> bool),
  (forall a b, le a b = false -> le b a = true) ->
  forall l, Sorted (fun a b => le a b = true) (sort_by le l).
Proof.
  intros A le Htot l; unfold sort_by.
  assert (H : forall l0 acc, Sorted (fun a b => le a b = true) acc ->
             Sorted (fun a b => le a b = true) (fold_left (fun acc x => insert_by le x acc) l0 acc)).
  { induction l0 as [|x l0 IH]; intros acc Hacc; simpl; [exact Hacc|].
    apply IH, insert_by_sorted; assumption. }
  apply H; constructor.
Qed.

Lemma sort_by_nodup_map : forall {A B} (le : A -> A -> bool) (g : A -> B) l,
  NoDup (map g l) -> NoDup (map g (sort_by le l)).
Proof.
  intros A B le g l H; eapply Permutation_NoDup; [|exact H].
  apply Permutation_map, Permutation_sym, sort_by_perm.
Qed.

Lemma filter_nodup_map : forall {A B} (p : A -> bool) (g : A -> B) l,
  NoDup (map g l) -> NoDup (map g (filter p l)).
Proof.
  intros A B p g l; induction l as [|x l IH]; simpl; intro H; [constructor|].
  inversion H as [|? ? Hx Hl]; subst.
  destruct (p x); simpl; [|auto].
  constructor; [|auto].
  intro Hin; apply Hx; apply in_map_iff in Hin as (y & <- & Hy).
  apply filter_In in Hy as [Hy _]; apply in_map, Hy.
Qed.

Lemma nodup_map_coarser : forall {A B C} (f : A -> B) (g : A -> C) l,
  (forall a b, In a l -> In b l -> g a = g b -> f a = f b) ->
  NoDup (map f l) -> NoDup (map g l).
Proof.
  intros A B C f g l; induction l as [|x l IH]; simpl; intros Hfg H; [constructor|].
  inversion H as [|? ? Hx Hl]; subst.
  constructor.
  - intro Hin; apply in_map_iff in Hin as (y & Hy & Hin).
    apply Hx, in_map_iff; exists y; split; [|exact Hin].
    symmetry; apply Hfg; auto.
  - apply IH; auto.
Qed.

Lemma ustr_ltb_asym : forall a b, ustr_ltb a b = true -> ustr_ltb b a = false.
Proof.
  induction a as [|x a IH]; intros [|y b]; simpl; try discriminate; try reflexivity.
  intro H; apply orb_true_iff in H as [H|H].
  - apply N.ltb_lt in H.
    replace (N.ltb y x) with false by (symmetry; apply N.ltb_ge; lia).
    replace (N.eqb y x) with false by (symmetry; apply N.eqb_neq; lia); reflexivity.
  - apply andb_true_iff in H as [Hxy H]; apply N.eqb_eq in Hxy; subst.
    rewrite N.ltb_irrefl, N.eqb_refl, (IH _ H); reflexivity.
Qed.

Lemma ustr_ltb_trich : forall a b, ustr_ltb a b = false -> ustr_ltb b a = false -> a = b.
Proof.
  induction a as [|x a IH]; intros [|y b]; simpl; try discriminate; try reflexivity.
  intros H1 H2; apply orb_false_iff in H1 as [L1 E1]; apply orb_false_iff in H2 as [L2 E2].
  apply N.ltb_ge in L1; apply N.ltb_ge in L2.
  assert (x = y) by lia; subst.
  rewrite N.eqb_refl in E1, E2; simpl in E1, E2.
  f_equal; apply IH; assumption.
Qed.

Lemma key_ltb_asym : forall a b, key_ltb a b = true -> key_ltb b a = false.
Proof.
  induction a as [|x a IH]; intros [|y b]; simpl; try discriminate; try reflexivity.
  intro H; apply orb_true_iff in H as [H|H].
  - rewrite (ustr_ltb_asym _ _ H).
    destruct (ustr_eqb y x) eqn:E; [|reflexivity].
    apply ustr_eqb_eq in E; subst; pose proof (ustr_ltb_asym _ _ H); congruence.
  - apply andb_true_iff in H as [Hxy H]; apply ustr_eqb_eq in Hxy; subst.
    destruct (ustr_ltb y y) eqn:E; [pose proof (ustr_ltb_asym _ _ E); congruence|].
    rewrite (IH _ H), andb_false_r; reflexivity.
Qed.

Lemma key_ltb_trich : forall a b, key_ltb a b = false -> key_ltb b a = false -> a = b.
Proof.
  induction a as [|x a IH]; intros [|y b]; simpl; try discriminate; try reflexivity.
  intros H1 H2; apply orb_false_iff in H1 as [L1 E1]; apply orb_false_iff in H2 as [L2 E2].
  assert (x = y) by (apply ustr_ltb_trich; assumption); subst.
  assert (Hy : ustr_eqb y y = true) by (apply ustr_eqb_eq; reflexivity).
  rewrite Hy in E1, E2; simpl in E1, E2.
  f_equal; apply IH; assumption.
Qed.

Lemma key_le_total : forall a b, negb (key_ltb b a) = false -> negb (key_ltb a b) = true.
Proof.
  intros a b H; apply negb_false_iff in H; rewrite (key_ltb_asym _ _ H); reflexivity.
Qed.

End TableProofs.

Section GroupBy.
Import Table.

Lemma existsb_key_in : forall k l, existsb (key_eqb k) l = true <-> In k l.
Proof.
  intros k l; rewrite existsb_exists; split.
  - intros (k' & Hin & Heq); apply key_eqb_eq in Heq; subst; exact Hin.
  - intro Hin; exists k; split; [exact Hin|apply key_eqb_eq; reflexivity].
Qed.

Lemma uniq_fold : forall (key : row -> list ustr) rows acc, NoDup acc ->
  let u := fold_left (fun acc r => if existsb (key_eqb (key r)) acc then acc
                                    else (acc ++ [key r])%list) rows acc in
  NoDup u /\ forall k, In k u <-> In k acc \/ exists r, In r rows /\ key r = k.
Proof.
  intros key rows; induction rows as [|r rows IH]; intros acc Hacc; simpl.
  - split; [exact Hacc|]; intro k; split; [auto|intros [H|(r & [] & _)]; exact H].
  - destruct (existsb (key_eqb (key r)) acc) eqn:E.
    + destruct (IH acc Hacc) as [Hn Hin]; split; [exact Hn|].
      intro k; rewrite Hin; split.
      * intros [H|(r' & Hr' & Hk)]; [left; exact H|right; exists r'; auto].
      * intros [H|(r' & [<-|Hr'] & Hk)]; [left; exact H| |right; exists r'; auto].
        left; subst k; apply existsb_key_in, E.
    + assert (Hacc' : NoDup (acc ++ [key r])%list).
      { eapply Permutation_NoDup; [apply Permutation_cons_append|].
        constructor; [|exact Hacc].
        intro H; apply existsb_key_in in H; congruence. }
      destruct (IH _ Hacc') as [Hn Hin]; split; [exact Hn|].
      intro k; rewrite Hin, in_app_iff; simpl; split.
      * intros [[H|[H|[]]]|(r' & Hr' & Hk)]; [left; exact H|right; exists r; auto|].
        right; exists r'; auto.
      * intros [H|(r' & [<-|Hr'] & Hk)]; [left; left; exact H|left; right; left; exact Hk|].
        right; exists r'; auto.
Qed.

Lemma group_keys_spec : forall key rows,
  NoDup (group_keys key rows) /\
  Sorted (fun a b => negb (key_ltb b a) = true) (group_keys key rows) /\
  forall k, In k (group_keys key rows) <-> exists r, In r rows /\ key r = k.
Proof.
  intros key rows; unfold group_keys.
  destruct (uniq_fold key rows [] (NoDup_nil _)) as [Hn Hin].
  split; [|split].
  - eapply Permutation_NoDup; [apply Permutation_sym, sort_by_perm|exact Hn].
  - apply sort_by_sorted; intros a b; apply key_le_total.
  - intro k; split.
    + intro H; apply (Permutation_in _ (sort_by_perm _ _)) in H.
      apply Hin in H as [[]|H]; exact H.
    + intro H; apply (Permutation_in _ (Permutation_sym (sort_by_perm _ _))).
      apply Hin; right; exact H.
Qed.

Lemma filter_app_disjoint : forall {A} (p q : A -> bool) l,
  (forall x, p x = true -> q x = false) ->
  Permutation (filter p l ++ filter q l) (filter (fun x => p x || q x) l).
Proof.
  intros A p q l Hd; induction l as [|x l IH]; simpl; [reflexivity|].
  destruct (p x) eqn:Ep; simpl.
  - rewrite (Hd x Ep); apply perm_skip, IH.
  - destruct (q x); [|exact IH].
    eapply perm_trans; [apply Permutation_sym, Permutation_middle|apply perm_skip, IH].
Qed.

Lemma filter_all : forall {A} (p : A -> bool) l, (forall x, In x l -> p x = true) -> filter p l = l.
Proof.
  intros A p l; induction l as [|x l IH]; simpl; intro H; [reflexivity|].
  rewrite (H x (or_introl eq_refl)), IH; auto.
Qed.

Lemma filters_partition : forall (key : row -> list ustr) ks rows,
  NoDup ks ->
  Permutation (flat_map (fun k => filter (fun r => key_eqb (key r) k) rows) ks)
              (filter (fun r => existsb (key_eqb (key r)) ks) rows).
Proof.
  intros key ks rows Hks; induction Hks as [|k ks Hk Hks IH]; simpl.
  - induction rows as [|r rows IHr]; simpl; [reflexivity|exact IHr].
  - eapply perm_trans; [apply Permutation_app_head, IH|].
    apply filter_app_disjoint.
    intros r Hr; apply key_eqb_eq in Hr; rewrite Hr.
    destruct (existsb (key_eqb k) ks) eqn:E; [|reflexivity].
    apply existsb_key_in in E; contradiction.
Qed.

Lemma groupby_spec : forall (key : row -> list ustr) (rows : list row),
  NoDup (map fst (groupby key rows)) /\
  Sorted (fun a b => negb (key_ltb b a) = true) (map fst (groupby key rows)) /\
  (forall k rs, In (k, rs) (groupby key rows) ->
     rs = filter (fun r => key_eqb (key r) k) rows /\ rs <> [] /\
     forall r, In r rs -> key r = k) /\
  Permutation (flat_map snd (groupby key rows)) rows.
Proof.
  intros key rows; destruct (group_keys_spec key rows) as (Hn & Hs & Hin).
  assert (Hfst : map fst (groupby key rows) = group_keys key rows).
  { unfold groupby; rewrite map_map; apply map_id. }
  rewrite Hfst; split; [exact Hn|split; [exact Hs|split]].
  - intros k rs Hk; unfold groupby in Hk; apply in_map_iff in Hk as (k' & Hkk & Hk').
    injection Hkk as -> <-.
    split; [reflexivity|split].
    + destruct (proj1 (Hin k) Hk') as (r & Hr & <-).
      intro He; assert (Hf : In r (filter (fun r0 => key_eqb (key r0) (key r)) rows))
        by (apply filter_In; split; [exact Hr|apply key_eqb_eq; reflexivity]).
      rewrite He in Hf; contradiction.
    + intros r Hr; apply filter_In in Hr as [_ Hr]; apply key_eqb_eq, Hr.
  - unfold groupby; rewrite flat_map_concat_map, map_map; simpl; rewrite <- flat_map_concat_map.
    eapply perm_trans; [apply filters_partition, Hn|].
    rewrite filter_all; [reflexivity|].
    intros r Hr; apply existsb_key_in, Hin; exists r; auto.
Qed.

End GroupBy.

(** X7: [DataFrame.groupby(cols)] as the analyzers iterate it: the keys are
    distinct and in ascending order, each group is the non-empty set of
    rows carrying its key, and the groups together hold every row exactly
    once. *)
Theorem groupby_partition : forall (key : Table.row -> list ustr) (rows : list Table.row),
  NoDup (map fst (Table.groupby key rows)) /\
  Sorted (fun a b => negb (Table.key_ltb b a) = true) (map fst (Table.groupby key rows)) /\
  (forall k rs, In (k, rs) (Table.groupby key rows) ->
     rs <> [] /\ forall r, In r rs -> key r = k) /\
  Permutation (flat_map snd (Table.groupby key rows)) rows.
Proof.
  intros key rows; destruct (groupby_spec key rows) as (Hn & Hs & Hg & Hp).
  split; [exact Hn|split; [exact Hs|split; [|exact Hp]]].
  intros k rs Hk; apply (Hg k rs Hk).
Qed.

(** ** The per-agent aggregates of Senior Gap and Period Comparison *)

Section Aggregates.
Import Table.

Lemma calculate_nps_bounds : forall s, (-100 <= Nps.calculate_nps s <= 100)%Q.
Proof.
  intro s; destruct s as [|x r] eqn:Es; [unfold Nps.calculate_nps; simpl; split; discriminate|].
  rewrite <- Es; assert (Hlen : 0 < Z.of_nat (length s)) by (subst; simpl; lia).
  rewrite calculate_nps_cons by (subst; discriminate).
  unfold round2; apply round2_bounds, round_half_even_bounds.
  rewrite (nps_scaled _ _ _ Hlen).
  pose proof (promoter_detractor_le s).
  apply scaled_bounds; [exact Hlen|lia|lia|lia].
Qed.

Lemma ratio_bounds : forall s t : nat, (s <= t)%nat -> (0 < t)%nat ->
  (0 <= inject_Z (Z.of_nat s) / inject_Z (Z.of_nat t) * 100 <= 100)%Q.
Proof.
  intros s t Hst Ht.
  assert (Ht' : (0 < inject_Z (Z.of_nat t))%Q) by (unfold Qlt; simpl; lia).
  assert (E : (inject_Z (Z.of_nat s) / inject_Z (Z.of_nat t) * 100
               == inject_Z (Z.of_nat s * 100) / inject_Z (Z.of_nat t))%Q).
  { rewrite inject_Z_mult; field; intro H; rewrite H in Ht'; discriminate. }
  rewrite E; split;
    [apply Qle_shift_div_l | apply Qle_shift_div_r]; try exact Ht';
    rewrite <- ?inject_Z_mult; change 0%Q with (inject_Z 0); change 100%Q with (inject_Z 100);
    rewrite <- ?inject_Z_mult, <- Zle_Qle; nia.
Qed.

Lemma Permutation_filter_ : forall {A} (p : A -> bool) l1 l2,
  Permutation l1 l2 -> Permutation (filter p l1) (filter p l2).
Proof.
  intros A p l1 l2 H; induction H; simpl.
  - constructor.
  - destruct (p x); [apply perm_skip|]; assumption.
  - destruct (p x), (p y); [apply perm_swap|reflexivity|reflexivity|reflexivity].
  - eapply perm_trans; eassumption.
Qed.

Lemma groupby_sum : forall key rows (p : row -> bool),
  list_sum (map (fun kg => length (filter p (snd kg))) (groupby key rows)) = length (filter p rows).
Proof.
  intros key rows p; destruct (groupby_spec key rows) as (_ & _ & _ & Hp).
  rewrite <- (Permutation_length (Permutation_filter_ p _ _ Hp)).
  generalize (groupby key rows); intro G; induction G as [|[k g] G IH]; simpl; [reflexivity|].
  rewrite filter_app, length_app, IH; reflexivity.
Qed.

Lemma groupby_total : forall key rows,
  list_sum (map (fun kg => length (snd kg)) (groupby key rows)) = length rows.
Proof.
  intros key rows; transitivity (length (filter (fun _ : row => true) rows)).
  - rewrite <- (groupby_sum key rows); f_equal; apply map_ext; intros [k g]; simpl.
    rewrite filter_all by (intros; reflexivity); reflexivity.
  - rewrite filter_all by (intros; reflexivity); reflexivity.
Qed.

Lemma groupby_group : forall key rows k g, In (k, g) (groupby key rows) ->
  exists r g', g = r :: g' /\ key r = k /\ forall x, In x g -> key x = k /\ In x rows.
Proof.
  intros key rows k g H; destruct (groupby_spec key rows) as (_ & _ & Hg & _).
  destruct (Hg k g H) as (Hf & Hne & Hk).
  destruct g as [|r g']; [congruence|].
  exists r, g'; split; [reflexivity|split; [apply Hk; left; reflexivity|]].
  intros x Hx; split; [apply Hk, Hx|].
  rewrite Hf in Hx; apply filter_In in Hx; tauto.
Qed.

Lemma nodup_groupby_keys : forall key rows, NoDup (map fst (groupby key rows)).
Proof. intros key rows; apply (groupby_spec key rows). Qed.

End Aggregates.

Section SeniorStats.
Import Table SeniorGap.

Lemma tcrew_stats_keys : forall dff,
  map (fun a => [a_tcrew a; a_tcrew_id a]) (tcrew_stats dff) = map fst (groupby (fun r => [tcrew r; tcrew_id r]) dff).
Proof.
  intro dff; unfold tcrew_stats; rewrite map_map; apply map_ext_in.
  intros [k g] H; destruct (groupby_group _ _ _ _ H) as (r & g' & -> & <- & _); reflexivity.
Qed.

Lemma tcrew_stats_total : forall dff,
  map a_total (tcrew_stats dff) =
  map (fun kg => length (snd kg)) (groupby (fun r => [tcrew r; tcrew_id r]) dff).
Proof.
  intro dff; unfold tcrew_stats; rewrite map_map; apply map_ext_in.
  intros [k g] H; destruct (groupby_group _ _ _ _ H) as (r & g' & -> & <- & _); reflexivity.
Qed.

Lemma tcrew_stats_senior : forall dff,
  map a_senior (tcrew_stats dff) =
  map (fun kg => length (filter is_senior (snd kg))) (groupby (fun r => [tcrew r; tcrew_id r]) dff).
Proof.
  intro dff; unfold tcrew_stats; rewrite map_map; apply map_ext_in.
  intros [k g] H; destruct (groupby_group _ _ _ _ H) as (r & g' & -> & <- & _); reflexivity.
Qed.

(** The fields of one agent row, read off its group. *)
Lemma tcrew_stats_in : forall dff a, In a (tcrew_stats dff) ->
  exists g, In ([a_tcrew a; a_tcrew_id a], g) (groupby (fun r => [tcrew r; tcrew_id r]) dff) /\
    g <> [] /\ a_total a = length g /\ a_senior a = length (filter is_senior g) /\
    a_nps a = Nps.calculate_nps (scores g) /\
    (a_senior_nps a = 0%Q \/ a_senior_nps a = Nps.calculate_nps (scores (filter is_senior g))) /\
    a_senior_rate a = (inject_Z (Z.of_nat (length (filter is_senior g)))
                       / inject_Z (Z.of_nat (length g)) * 100)%Q /\
    exists r, In r g /\ dealer r = a_dealer a /\ store r = a_store a.
Proof.
  intros dff a H; unfold tcrew_stats in H; apply in_map_iff in H as ([k g] & <- & H).
  destruct (groupby_group _ _ _ _ H) as (r & g' & -> & <- & _).
  exists (r :: g'); cbn -[Nps.calculate_nps length filter].
  split; [exact H|split; [discriminate|]].
  repeat split.
  - destruct (filter is_senior (r :: g')); [left|right]; reflexivity.
  - exists r; split; [left|split]; reflexivity.
Qed.

End SeniorStats.

Section PeriodStats.
Import Table PeriodComparison.

Lemma aggregate_keys : forall df,
  map (fun s => [s_tcrew s; s_tcrew_id s]) (aggregate_by_tcrew df) =
  map fst (groupby (fun r => [tcrew r; tcrew_id r]) df).
Proof.
  intro df; unfold aggregate_by_tcrew; rewrite map_map; apply map_ext_in.
  intros [k g] H; destruct (groupby_group _ _ _ _ H) as (r & g' & -> & <- & _); reflexivity.
Qed.

Lemma aggregate_total : forall df,
  map s_total (aggregate_by_tcrew df) =
  map (fun kg => length (snd kg)) (groupby (fun r => [tcrew r; tcrew_id r]) df).
Proof.
  intro df; unfold aggregate_by_tcrew; rewrite map_map; apply map_ext_in.
  intros [k g] H; destruct (groupby_group _ _ _ _ H) as (r & g' & -> & <- & _); reflexivity.
Qed.

Lemma aggregate_in : forall df s, In s (aggregate_by_tcrew df) ->
  exists g, In ([s_tcrew s; s_tcrew_id s], g) (groupby (fun r => [tcrew r; tcrew_id r]) df) /\
    s_total s = length g /\ g <> [] /\ s_nps s = Nps.calculate_nps (scores g) /\
    exists r, In r g /\ dealer r = s_dealer s /\ store r = s_store s.
Proof.
  intros df s H; unfold aggregate_by_tcrew in H; apply in_map_iff in H as ([k g] & <- & H).
  destruct (groupby_group _ _ _ _ H) as (r & g' & -> & <- & _).
  exists (r :: g'); cbn -[Nps.calculate_nps length].
  split; [exact H|split; [reflexivity|split; [discriminate|split; [reflexivity|]]]].
  exists r; split; [left|split]; reflexivity.
Qed.

Lemma aggregate_nodup : forall df, NoDup (map join_key (aggregate_by_tcrew df)).
Proof.
  intro df; apply (nodup_map_coarser (fun s => [s_tcrew s; s_tcrew_id s])).
  - intros a b _ _ E; unfold join_key in E; injection E as E1 E2 _ _; rewrite E1, E2; reflexivity.
  - rewrite aggregate_keys; apply nodup_groupby_keys.
Qed.

End PeriodStats.

(** X8: the per-agent statistics of Senior Gap ([tcrew_stats], the loop
    over [df_filtered.groupby(['담당자', '담당자ID'])]) have one row per
    agent; their response counts add up to the rows of the frame and their
    senior counts to its senior rows; each agent has at least one response
    and no more senior responses than responses, a senior proportion in
    [[0, 100]], an NPS and a senior NPS in [[-100, 100]], and the dealer
    and store of one of its own rows. *)
Theorem senior_tcrew_stats_accounting : forall dff : list Table.row,
  NoDup (map (fun a => [SeniorGap.a_tcrew a; SeniorGap.a_tcrew_id a]) (SeniorGap.tcrew_stats dff)) /\
  list_sum (map SeniorGap.a_total (SeniorGap.tcrew_stats dff)) = length dff /\
  list_sum (map SeniorGap.a_senior (SeniorGap.tcrew_stats dff)) =
    length (filter SeniorGap.is_senior dff) /\
  Forall (fun a =>
     (1 <= SeniorGap.a_total a)%nat /\ (SeniorGap.a_senior a <= SeniorGap.a_total a)%nat /\
     (0 <= SeniorGap.a_senior_rate a <= 100)%Q /\ (-100 <= SeniorGap.a_nps a <= 100)%Q /\
     (-100 <= SeniorGap.a_senior_nps a <= 100)%Q /\
     exists r, In r dff /\ Table.tcrew r = SeniorGap.a_tcrew a /\
               Table.tcrew_id r = SeniorGap.a_tcrew_id a /\
               Table.dealer r = SeniorGap.a_dealer a /\ Table.store r = SeniorGap.a_store a)
    (SeniorGap.tcrew_stats dff).
Proof.
  intro dff; split; [|split; [|split]].
  - rewrite tcrew_stats_keys; apply nodup_groupby_keys.
  - rewrite tcrew_stats_total; apply groupby_total.
  - rewrite tcrew_stats_senior; apply groupby_sum.
  - apply Forall_forall; intros a Ha.
    destruct (tcrew_stats_in dff a Ha) as (g & Hg & Hne & Ht & Hs & Hn & Hsn & Hr & (r & Hrg & Hd & Hst)).
    destruct (groupby_group _ _ _ _ Hg) as (_ & _ & _ & _ & Hall).
    assert (Hlen : (1 <= length g)%nat) by (destruct g; [congruence|simpl; lia]).
    pose proof (filter_length_le SeniorGap.is_senior g) as Hsl.
    rewrite Ht, Hs; split; [exact Hlen|split; [exact Hsl|split; [|split; [|split]]]].
    + rewrite Hr; apply ratio_bounds; lia.
    + rewrite Hn; apply calculate_nps_bounds.
    + destruct Hsn as [-> | ->]; [split; discriminate|apply calculate_nps_bounds].
    + destruct (Hall r Hrg) as [Hk Hin]; injection Hk as Hk1 Hk2.
      exists r; repeat split; assumption.
Qed.

(** X9: the per-period aggregate of Period Comparison
    ([_aggregate_by_tcrew]) has one row per agent, and so one row per join
    key (agent, agent id, dealer, store); the response counts add up to the
    rows of the period, each agent has at least one response, an NPS in
    [[-100, 100]], and the dealer and store of one of its own rows. *)
Theorem period_aggregate_accounting : forall df : list Table.row,
  NoDup (map PeriodComparison.join_key (PeriodComparison.aggregate_by_tcrew df)) /\
  list_sum (map PeriodComparison.s_total (PeriodComparison.aggregate_by_tcrew df)) = length df /\
  Forall (fun s =>
     (1 <= PeriodComparison.s_total s)%nat /\ (-100 <= PeriodComparison.s_nps s <= 100)%Q /\
     exists r, In r df /\ Table.tcrew r = PeriodComparison.s_tcrew s /\
               Table.tcrew_id r = PeriodComparison.s_tcrew_id s /\
               Table.dealer r = PeriodComparison.s_dealer s /\ Table.store r = PeriodComparison.s_store s)
    (PeriodComparison.aggregate_by_tcrew df).
Proof.
  intro df; split; [apply aggregate_nodup|split].
  - rewrite aggregate_total; apply groupby_total.
  - apply Forall_forall; intros s Hs.
    destruct (aggregate_in df s Hs) as (g & Hg & Ht & Hne & Hn & (r & Hrg & Hd & Hst)).
    destruct (groupby_group _ _ _ _ Hg) as (_ & _ & _ & _ & Hall).
    rewrite Ht, Hn; split; [destruct g; [congruence|simpl; lia]|split; [apply calculate_nps_bounds|]].
    destruct (Hall r Hrg) as [Hk Hin]; injection Hk as Hk1 Hk2.
    exists r; repeat split; assumption.
Qed.

(** ** The Senior Gap result table *)

Lemma Sorted_impl_ : forall {A} (R S : A -> A -> Prop), (forall a b, R a b -> S a b) ->
  forall l, Sorted R l -> Sorted S l.
Proof.
  intros A R S H l Hs; induction Hs as [|a l Hs IH Hd]; constructor; [exact IH|].
  destruct Hd; constructor; apply H; assumption.
Qed.

Lemma Qle_bool_total : forall a b, Qle_bool a b = false -> Qle_bool b a = true.
Proof.
  intros a b H; apply Qle_bool_iff, Qlt_le_weak, Qle_bool_false_lt, H.
Qed.

Section SeniorResult.
Import Table FS SeniorGap.

Lemma step2_in : forall f avg l r a, step2 f avg l = inr r -> In a r ->
  In a l /\
  match get (senior_threshold f) with
  | Some SBelowAvg => (a_senior_rate a < avg)%Q
  | Some (SCustom v) => exists c, float_of_digits v = inr c /\ (c <= a_senior_rate a)%Q
  | _ => (avg <= a_senior_rate a)%Q
  end.
Proof.
  intros f avg l r a H Ha; unfold step2 in H.
  destruct (get (senior_threshold f)) as [[| |v]|].
  - injection H as <-; apply filter_In in Ha as [Ha Hc]; apply Qle_bool_iff in Hc; auto.
  - injection H as <-; apply filter_In in Ha as [Ha Hc]; apply Qltb_iff in Hc; auto.
  - destruct (float_of_digits v) as [e|c]; [discriminate|].
    injection H as <-; apply filter_In in Ha as [Ha Hc]; apply Qle_bool_iff in Hc.
    split; [exact Ha|exists c; auto].
  - injection H as <-; apply filter_In in Ha as [Ha Hc]; apply Qle_bool_iff in Hc; auto.
Qed.

Lemma step4_in : forall f l a, In a (step4 f l) ->
  In a l /\
  match get (nps_target f) with
  | Some t => match get_or (nps_comparison f) Below with
              | Some Below => (a_nps a < inject_Z t)%Q
              | _ => (inject_Z t <= a_nps a)%Q
              end
  | None => (a_nps a < 87)%Q
  end.
Proof.
  intros f l a H; unfold step4 in H.
  destruct (get (nps_target f)) as [t|].
  - destruct (get_or (nps_comparison f) Below) as [[|]|];
      apply filter_In in H as [H Hc];
      first [apply Qltb_iff in Hc | apply Qle_bool_iff in Hc]; auto.
  - apply filter_In in H as [H Hc]; apply Qltb_iff in Hc; auto.
Qed.

Lemma step5_in : forall f l r a, step5 f l = inr r -> In a r ->
  In a l /\ (1 <= a_senior a)%nat /\
  forall m, get_or (min_responses f) 5 = Some m -> m <= Z.of_nat (a_total a).
Proof.
  intros f l r a H Ha; unfold step5 in H.
  destruct (get_or (min_responses f) 5) as [m|]; [|discriminate].
  injection H as <-; apply filter_In in Ha as [Ha Hs]; apply filter_In in Ha as [Ha Hm].
  apply Z.leb_le in Hm.
  split; [exact Ha|split; [destruct (a_senior a); [discriminate|lia]|]].
  intros m' Hm'; injection Hm' as <-; exact Hm.
Qed.

Lemma after_step3_in : forall df f r3 a, after_step3 df f = inr r3 -> In a r3 ->
  In a (tcrew_stats (scope_filter f df)) /\ (0 < a_senior a)%nat /\
  (fmt1 (a_senior_nps a) < avg_senior_nps (tcrew_stats (scope_filter f df)))%Q /\
  match get (senior_threshold f) with
  | Some SBelowAvg => (a_senior_rate a < avg_senior_rate (scope_filter f df))%Q
  | Some (SCustom v) => exists c, float_of_digits v = inr c /\ (c <= a_senior_rate a)%Q
  | _ => (avg_senior_rate (scope_filter f df) <= a_senior_rate a)%Q
  end.
Proof.
  intros df f r3 a H Ha; unfold after_step3 in H; cbv zeta in H.
  destruct (step2 f (avg_senior_rate (scope_filter f df)) (tcrew_stats (scope_filter f df)))
    as [e|r2] eqn:E2; [discriminate|].
  cbn [bind_py] in H; injection H as <-.
  destruct r2 as [|b r2']; [contradiction|].
  apply step3_in in Ha; [|discriminate].
  destruct Ha as [[Ha Hs] Hlt].
  destruct (step2_in _ _ _ _ _ E2 Ha) as [Hin Hc].
  auto.
Qed.

Lemma analyze_cases : forall df f r, analyze df f = inr r ->
  by_tcrew r = [] \/
  exists r3 r5, after_step3 df f = inr r3 /\ step5 f (step4 f r3) = inr r5 /\
                by_tcrew r = sort_result r5.
Proof.
  intros df f r H; unfold analyze in H; cbv zeta in H.
  destruct (tcrew_stats (scope_filter f df)); [injection H as <-; left; reflexivity|].
  destruct (after_step3 df f) as [e|r3] eqn:E3; [discriminate|]; cbn [bind_py] in H.
  destruct (step5 f (step4 f r3)) as [e|r5] eqn:E5; [discriminate|]; cbn [bind_py] in H.
  injection H as <-; right; exists r3, r5; repeat split; first [reflexivity|assumption].
Qed.

Lemma sort_result_le_total : forall a b : agent,
  (Qltb (a_senior_rate b) (a_senior_rate a)
   || (Qeq_bool (a_senior_rate a) (a_senior_rate b) && Qle_bool (a_nps a) (a_nps b))) = false ->
  (Qltb (a_senior_rate a) (a_senior_rate b)
   || (Qeq_bool (a_senior_rate b) (a_senior_rate a) && Qle_bool (a_nps b) (a_nps a))) = true.
Proof.
  intros a b H; apply orb_false_iff in H as [H1 H2].
  unfold Qltb in *; apply negb_false_iff in H1; apply Qle_bool_iff in H1.
  destruct (Qle_bool (a_senior_rate b) (a_senior_rate a)) eqn:E; simpl; [|reflexivity].
  apply Qle_bool_iff in E.
  assert (Heq : (a_senior_rate a == a_senior_rate b)%Q) by (apply Qle_antisym; assumption).
  assert (Eba : Qeq_bool (a_senior_rate b) (a_senior_rate a) = true)
    by (apply Qeq_bool_iff, Qeq_sym, Heq).
  assert (Eab : Qeq_bool (a_senior_rate a) (a_senior_rate b) = true) by (apply Qeq_bool_iff, Heq).
  rewrite Eab in H2; rewrite Eba; simpl in *; apply Qle_bool_total, H2.
Qed.

End SeniorResult.

(** X10: every agent of the Senior Gap table ([analyze]'s [data]) is one
    of the per-agent statistics of the scope-filtered frame and passed
    every filter of [analyze]: the senior-proportion filter of step 2
    (default: at least the population baseline), a senior response and a
    senior NPS below the mean senior NPS (step 3), the NPS target of step 4
    (default: below 87), and the response floor [min_responses] (default 5)
    of step 5. *)
Theorem senior_gap_rows_pass_filters : forall df f r,
  SeniorGap.analyze df f = inr r ->
  Forall (fun a =>
    In a (SeniorGap.tcrew_stats (SeniorGap.scope_filter f df)) /\
    (1 <= SeniorGap.a_senior a)%nat /\
    (SeniorGap.fmt1 (SeniorGap.a_senior_nps a)
       < SeniorGap.avg_senior_nps (SeniorGap.tcrew_stats (SeniorGap.scope_filter f df)))%Q /\
    (forall m, get_or (FS.min_responses f) 5 = Some m -> m <= Z.of_nat (SeniorGap.a_total a)) /\
    match get (FS.nps_target f) with
    | Some t => match get_or (FS.nps_comparison f) FS.Below with
                | Some FS.Below => (SeniorGap.a_nps a < inject_Z t)%Q
                | _ => (inject_Z t <= SeniorGap.a_nps a)%Q
                end
    | None => (SeniorGap.a_nps a < 87)%Q
    end /\
    match get (FS.senior_threshold f) with
    | Some FS.SBelowAvg =>
        (SeniorGap.a_senior_rate a < SeniorGap.avg_senior_rate (SeniorGap.scope_filter f df))%Q
    | Some (FS.SCustom v) =>
        exists c, SeniorGap.float_of_digits v = inr c /\ (c <= SeniorGap.a_senior_rate a)%Q
    | _ => (SeniorGap.avg_senior_rate (SeniorGap.scope_filter f df) <= SeniorGap.a_senior_rate a)%Q
    end)
    (SeniorGap.by_tcrew r).
Proof.
  intros df f r H.
  destruct (analyze_cases df f r H) as [-> | (r3 & r5 & H3 & H5 & ->)]; [constructor|].
  apply Forall_forall; intros a Ha; apply sort_by_in in Ha.
  destruct (step5_in _ _ _ _ H5 Ha) as (Ha4 & Hs & Hm).
  destruct (step4_in _ _ _ Ha4) as (Ha3 & Ht).
  destruct (after_step3_in _ _ _ _ H3 Ha3) as (Hst & _ & Hsn & H2).
  repeat split; assumption.
Qed.

Lemma senior_gap_rows_pass_filters_witness :
  SeniorGap.analyze MoreInputs.senior_pass_rows FS.empty_filters = inr MoreInputs.senior_pass_result /\
  SeniorGap.by_tcrew MoreInputs.senior_pass_result <> [] /\
  Forall (fun a => (1 <= SeniorGap.a_senior a)%nat) (SeniorGap.by_tcrew MoreInputs.senior_pass_result).
Proof.
  assert (H : SeniorGap.analyze MoreInputs.senior_pass_rows FS.empty_filters
              = inr MoreInputs.senior_pass_result) by (vm_compute; reflexivity).
  split; [exact H|split; [vm_compute; discriminate|]].
  eapply Forall_impl; [|apply (senior_gap_rows_pass_filters _ _ _ H)].
  intros a Ha; apply Ha.
Defined.

(** X11: the Senior Gap table is ordered by senior proportion, highest
    first, and within equal proportions by NPS, lowest first
    ([sort_values(['시니어비중_value', 'NPS_value'], ascending=[False, True])]),
    and lists each agent (name, id) at most once. *)
Theorem senior_gap_sorted_unique : forall df f r,
  SeniorGap.analyze df f = inr r ->
  Sorted (fun a b => (SeniorGap.a_senior_rate b < SeniorGap.a_senior_rate a)%Q \/
                     (SeniorGap.a_senior_rate a == SeniorGap.a_senior_rate b /\
                      SeniorGap.a_nps a <= SeniorGap.a_nps b)%Q) (SeniorGap.by_tcrew r) /\
  NoDup (map (fun a => [SeniorGap.a_tcrew a; SeniorGap.a_tcrew_id a]) (SeniorGap.by_tcrew r)).
Proof.
  intros df f r H.
  destruct (analyze_cases df f r H) as [-> | (r3 & r5 & H3 & H5 & ->)];
    [split; constructor|split].
  - eapply Sorted_impl_; [|apply sort_by_sorted, sort_result_le_total].
    intros a b Hab; apply orb_true_iff in Hab as [Hab|Hab]; [left; apply Qltb_iff, Hab|right].
    apply andb_true_iff in Hab as [E L]; split; [apply Qeq_bool_iff, E|apply Qle_bool_iff, L].
  - apply sort_by_nodup_map.
    unfold SeniorGap.step5 in H5; destruct (get_or (FS.min_responses f) 5); [|discriminate].
    injection H5 as <-; apply filter_nodup_map, filter_nodup_map.
    unfold SeniorGap.step4; destruct (get (FS.nps_target f));
      [destruct (get_or (FS.nps_comparison f) FS.Below) as [[|]|]|]; apply filter_nodup_map.
    all: unfold SeniorGap.after_step3 in H3; cbv zeta in H3.
    all: destruct (SeniorGap.step2 f _ _) as [e|r2] eqn:E2 in H3; [discriminate|];
         cbn [bind_py] in H3; injection H3 as <-.
    all: unfold SeniorGap.step3; destruct r2 as [|b r2']; [constructor|].
    all: apply filter_nodup_map, filter_nodup_map.
    all: unfold SeniorGap.step2 in E2; destruct (get (FS.senior_threshold f)) as [[| |v]|];
         try destruct (SeniorGap.float_of_digits v); try discriminate;
         injection E2 as <-; apply filter_nodup_map; rewrite tcrew_stats_keys; apply nodup_groupby_keys.
Qed.

Lemma senior_gap_sorted_unique_witness :
  SeniorGap.analyze MoreInputs.senior_pass_rows FS.empty_filters = inr MoreInputs.senior_pass_result /\
  NoDup (map (fun a => [SeniorGap.a_tcrew a; SeniorGap.a_tcrew_id a])
             (SeniorGap.by_tcrew MoreInputs.senior_pass_result)).
Proof.
  assert (H : SeniorGap.analyze MoreInputs.senior_pass_rows FS.empty_filters
              = inr MoreInputs.senior_pass_result) by (vm_compute; reflexivity).
  split; [exact H|apply (senior_gap_sorted_unique _ _ _ H)].
Defined.

(** ** The Period Comparison result table *)

Section PeriodResult.
Import Table FS PeriodComparison.

Lemma aggregate_row_bounds : forall df s, In s (aggregate_by_tcrew df) ->
  (1 <= s_total s)%nat /\ (-100 <= s_nps s <= 100)%Q.
Proof.
  intros df s Hs; destruct (aggregate_in df s Hs) as (g & _ & Ht & Hne & Hn & _).
  rewrite Ht, Hn; split; [destruct g; [congruence|simpl; lia]|apply calculate_nps_bounds].
Qed.

Lemma period_aggregates_are : forall df f p1 p2, period_aggregates df f = inr (p1, p2) ->
  exists d1 d2, p1 = aggregate_by_tcrew d1 /\ p2 = aggregate_by_tcrew d2.
Proof.
  intros df f p1 p2 H; unfold period_aggregates in H.
  destruct (periods_of f) as [e|[[[[[s1 e1] s2] e2] l1] l2]]; [discriminate|].
  cbn [bind_py] in H; injection H as <- <-; eexists; eexists; split; reflexivity.
Qed.

Lemma merge_inner_mem : forall p1 p2 j, In j (merge_inner p1 p2) ->
  exists a b, In a p1 /\ In b p2 /\ join_key a = join_key b /\
    j = mkJoined (s_tcrew a) (s_tcrew_id a) (s_dealer a) (s_store a)
                 (s_nps a) (s_total a) (s_nps b) (s_total b) (s_nps b - s_nps a)%Q.
Proof.
  intros p1 p2 j H; unfold merge_inner in H.
  apply in_flat_map in H as [a [Ha Hj]].
  apply in_map_iff in Hj as [b [<- Hb]].
  apply filter_In in Hb as [Hb Hk]; apply key_eqb_eq in Hk.
  exists a, b; repeat split; auto.
Qed.

Lemma nodup_map_const : forall {A B} (g : A -> B) c l,
  NoDup (map g l) -> (forall x, In x l -> g x = c) -> (length l <= 1)%nat.
Proof.
  intros A B g c [|x [|y l]] Hn Hc; simpl; try lia.
  inversion Hn as [|? ? Hx _]; subst; exfalso; apply Hx.
  rewrite (Hc x (or_introl eq_refl)); left; apply Hc; right; left; reflexivity.
Qed.

Lemma merge_inner_nodup : forall p1 p2,
  NoDup (map join_key p1) -> NoDup (map join_key p2) -> NoDup (map j_key (merge_inner p1 p2)).
Proof.
  intros p1 p2 H1 H2; induction p1 as [|a p1 IH]; [constructor|].
  inversion H1 as [|? ? Ha Hp1]; subst.
  change (merge_inner (a :: p1) p2) with
    (map (fun b => mkJoined (s_tcrew a) (s_tcrew_id a) (s_dealer a) (s_store a)
                            (s_nps a) (s_total a) (s_nps b) (s_total b) (s_nps b - s_nps a)%Q)
         (filter (fun b => key_eqb (join_key a) (join_key b)) p2) ++ merge_inner p1 p2)%list.
  rewrite map_app; apply NoDup_app; [|apply IH, Hp1|].
  - assert (Hle : (length (filter (fun b => key_eqb (join_key a) (join_key b)) p2) <= 1)%nat).
    { apply (nodup_map_const join_key (join_key a)); [apply filter_nodup_map, H2|].
      intros b Hb; apply filter_In in Hb as [_ Hb]; apply key_eqb_eq in Hb; auto. }
    destruct (filter (fun b => key_eqb (join_key a) (join_key b)) p2) as [|b [|b' l]];
      simpl in *; [constructor|repeat constructor; auto|lia].
  - intros k Hk Hk'.
    apply in_map_iff in Hk as [j [<- Hj]]; apply in_map_iff in Hj as [b [<- _]].
    apply in_map_iff in Hk' as [j' [Hjj Hj']].
    destruct (merge_inner_in _ _ _ Hj') as (a' & b' & Ha' & _ & Hk' & _).
    assert (E : join_key a = join_key a') by (rewrite <- Hk', Hjj; reflexivity).
    apply Ha; rewrite E; apply in_map, Ha'.
Qed.

Lemma period_analyze_cases : forall df f r, analyze df f = inr r ->
  by_tcrew r = [] \/
  exists p1 p2 r0, period_aggregates df f = inr (p1, p2) /\
    min_filter f (target_filter f (trend_filter (get (trend f)) (merge_inner p1 p2))) = inr r0 /\
    by_tcrew r = sort_result (get (trend f)) r0.
Proof.
  intros df f r H; unfold analyze in H.
  destruct (has_proc_date df); simpl in H; [|injection H as <-; left; reflexivity].
  destruct (match get (comparison_periods f) with
            | Some c => cp_get_error c | None => None end);
    [injection H as <-; left; reflexivity|].
  unfold bind_py at 1 in H.
  destruct (periods_of f) as [e|[[[[[s1 e1] s2] e2] l1] l2]]; [discriminate|].
  destruct (period_aggregates df f) as [e|[p1 p2]] eqn:Hagg; simpl in H; [discriminate|].
  destruct p1 as [|a1 p1']; [injection H as <-; left; reflexivity|].
  destruct p2 as [|a2 p2']; [injection H as <-; left; reflexivity|].
  destruct (merge_inner (a1 :: p1') (a2 :: p2')) as [|m ms] eqn:Em;
    [injection H as <-; left; reflexivity|].
  rewrite <- Em in H.
  destruct (min_filter f (target_filter f (trend_filter (get (trend f)) (merge_inner (a1 :: p1') (a2 :: p2')))))
    as [e|r0] eqn:Emin; simpl in H; [discriminate|].
  injection H as <-; right; exists (a1 :: p1'), (a2 :: p2'), r0.
  repeat split; first [reflexivity|assumption].
Qed.

Lemma trend_filter_in : forall t l j, In j (trend_filter t l) ->
  In j l /\ match t with
            | Some Decrease => (j_delta j < 0)%Q
            | Some Increase => (0 < j_delta j)%Q
            | None => True
            end.
Proof.
  intros [[|]|] l j H; simpl in H; try (apply filter_In in H as [H Hc]; apply Qltb_iff in Hc);
    auto.
Qed.

Lemma target_filter_in : forall f l j, In j (target_filter f l) ->
  In j l /\ match get (nps_target f) with
            | Some t => match get_or (nps_comparison f) Below with
                        | Some Below => (j_nps2 j < inject_Z t)%Q
                        | _ => (inject_Z t <= j_nps2 j)%Q
                        end
            | None => True
            end.
Proof.
  intros f l j H; unfold target_filter in H.
  destruct (get (nps_target f)) as [t|]; [|auto].
  destruct (get_or (nps_comparison f) Below) as [[|]|];
    apply filter_In in H as [H Hc];
    first [apply Qltb_iff in Hc | apply Qle_bool_iff in Hc]; auto.
Qed.

Lemma min_filter_in : forall f l r j, min_filter f l = inr r -> In j r ->
  In j l /\
  (forall m1, min_for (min_responses_period1 f) f = Some m1 -> m1 <= Z.of_nat (j_count1 j)) /\
  (forall m2, min_for (min_responses_period2 f) f = Some m2 -> m2 <= Z.of_nat (j_count2 j)).
Proof.
  intros f l r j H Hj; unfold min_filter in H.
  destruct (min_for (min_responses_period1 f) f) as [m1|], (min_for (min_responses_period2 f) f) as [m2|];
    try discriminate.
  injection H as <-; apply filter_In in Hj as [Hj Hc]; apply andb_true_iff in Hc as [C1 C2].
  apply Z.leb_le in C1; apply Z.leb_le in C2.
  split; [exact Hj|split; intros m Hm; injection Hm as <-; assumption].
Qed.

Lemma min_filter_nodup : forall f l r, min_filter f l = inr r ->
  NoDup (map j_key l) -> NoDup (map j_key r).
Proof.
  intros f l r H Hl; unfold min_filter in H.
  destruct (min_for (min_responses_period1 f) f), (min_for (min_responses_period2 f) f);
    try discriminate.
  injection H as <-; apply filter_nodup_map, Hl.
Qed.

End PeriodResult.

(** X12: every agent of the Period Comparison table ([analyze]'s
    [by_tcrew]) joins an aggregate row of each period: both response counts
    are at least one and at least the period's floor
    ([min_responses_period1] / [min_responses_period2], falling back to
    [min_responses], then 5), both NPS values lie in [[-100, 100]], the
    change is the period-2 NPS minus the period-1 NPS and has the sign the
    trend asks for, and the period-2 NPS meets the NPS target when one is
    given. *)
Theorem period_rows_pass_filters : forall df f r,
  PeriodComparison.analyze df f = inr r ->
  Forall (fun j =>
    PeriodComparison.j_delta j = (PeriodComparison.j_nps2 j - PeriodComparison.j_nps1 j)%Q /\
    (1 <= PeriodComparison.j_count1 j)%nat /\ (1 <= PeriodComparison.j_count2 j)%nat /\
    (-100 <= PeriodComparison.j_nps1 j <= 100)%Q /\ (-100 <= PeriodComparison.j_nps2 j <= 100)%Q /\
    (forall m1, PeriodComparison.min_for (FS.min_responses_period1 f) f = Some m1 ->
                m1 <= Z.of_nat (PeriodComparison.j_count1 j)) /\
    (forall m2, PeriodComparison.min_for (FS.min_responses_period2 f) f = Some m2 ->
                m2 <= Z.of_nat (PeriodComparison.j_count2 j)) /\
    match get (FS.trend f) with
    | Some FS.Decrease => (PeriodComparison.j_delta j < 0)%Q
    | Some FS.Increase => (0 < PeriodComparison.j_delta j)%Q
    | None => True
    end /\
    match get (FS.nps_target f) with
    | Some t => match get_or (FS.nps_comparison f) FS.Below with
                | Some FS.Below => (PeriodComparison.j_nps2 j < inject_Z t)%Q
                | _ => (inject_Z t <= PeriodComparison.j_nps2 j)%Q
                end
    | None => True
    end)
    (PeriodComparison.by_tcrew r).
Proof.
  intros df f r H.
  destruct (period_analyze_cases df f r H) as [-> | (p1 & p2 & r0 & Hagg & Hmin & ->)];
    [constructor|].
  apply Forall_forall; intros j Hj; apply sort_result_in in Hj.
  destruct (min_filter_in _ _ _ _ Hmin Hj) as (Hj1 & Hm1 & Hm2).
  destruct (target_filter_in _ _ _ Hj1) as (Hj2 & Ht).
  destruct (trend_filter_in _ _ _ Hj2) as (Hj3 & Htr).
  destruct (merge_inner_mem _ _ _ Hj3) as (a & b & Ha & Hb & _ & Hjab).
  destruct (period_aggregates_are _ _ _ _ Hagg) as (d1 & d2 & -> & ->).
  destruct (aggregate_row_bounds _ _ Ha) as (Ca & Na).
  destruct (aggregate_row_bounds _ _ Hb) as (Cb & Nb).
  subst j; cbn [PeriodComparison.j_count1 PeriodComparison.j_count2 PeriodComparison.j_delta
    PeriodComparison.j_nps1 PeriodComparison.j_nps2] in *.
  split; [reflexivity|].
  split; [exact Ca|split; [exact Cb|split; [exact Na|split; [exact Nb|]]]].
  split; [exact Hm1|split; [exact Hm2|split; [exact Htr|exact Ht]]].
Qed.

Lemma period_rows_pass_filters_witness :
  PeriodComparison.analyze Inputs.period_frame Inputs.min1_filters = inr Inputs.period_result /\
  PeriodComparison.by_tcrew Inputs.period_result <> [] /\
  Forall (fun j => (1 <= PeriodComparison.j_count2 j)%nat) (PeriodComparison.by_tcrew Inputs.period_result).
Proof.
  assert (H : PeriodComparison.analyze Inputs.period_frame Inputs.min1_filters
              = inr Inputs.period_result) by (vm_compute; reflexivity).
  split; [exact H|split; [vm_compute; discriminate|]].
  eapply Forall_impl; [|apply (period_rows_pass_filters _ _ _ H)].
  intros j Hj; apply Hj.
Defined.

(** X13: the Period Comparison table is ordered by the change in NPS as
    the trend asks (largest drop first for a decrease, largest rise first
    for an increase, largest absolute change first otherwise), and lists
    each join key (agent, agent id, dealer, store) at most once. *)
Theorem period_sorted_unique : forall df f r,
  PeriodComparison.analyze df f = inr r ->
  match get (FS.trend f) with
  | Some FS.Decrease => Sorted (fun a b => PeriodComparison.j_delta a <= PeriodComparison.j_delta b)%Q
  | Some FS.Increase => Sorted (fun a b => PeriodComparison.j_delta b <= PeriodComparison.j_delta a)%Q
  | None => Sorted (fun a b => PeriodComparison.Qabs_ (PeriodComparison.j_delta b)
                               <= PeriodComparison.Qabs_ (PeriodComparison.j_delta a))%Q
  end (PeriodComparison.by_tcrew r) /\
  NoDup (map PeriodComparison.j_key (PeriodComparison.by_tcrew r)).
Proof.
  intros df f r H.
  destruct (period_analyze_cases df f r H) as [-> | (p1 & p2 & r0 & Hagg & Hmin & ->)].
  - split; [destruct (get (FS.trend f)) as [[|]|]; cbv beta iota|]; constructor.
  - split.
    + unfold PeriodComparison.sort_result; destruct (get (FS.trend f)) as [[|]|]; cbv beta iota;
        (eapply Sorted_impl_; [|apply sort_by_sorted; intros a b; apply Qle_bool_total]);
        intros a b Hab; apply Qle_bool_iff, Hab.
    + assert (Hn0 : NoDup (map PeriodComparison.j_key r0)).
      { apply (min_filter_nodup _ _ _ Hmin).
        unfold PeriodComparison.target_filter; destruct (get (FS.nps_target f));
          [destruct (get_or (FS.nps_comparison f) FS.Below) as [[|]|]; apply filter_nodup_map|].
        all: unfold PeriodComparison.trend_filter; destruct (get (FS.trend f)) as [[|]|];
             try apply filter_nodup_map.
        all: destruct (period_aggregates_are _ _ _ _ Hagg) as (d1 & d2 & -> & ->);
             apply merge_inner_nodup; apply aggregate_nodup. }
      unfold PeriodComparison.sort_result; destruct (get (FS.trend f)) as [[|]|];
        apply sort_by_nodup_map, Hn0.
Qed.

Lemma period_sorted_unique_witness :
  PeriodComparison.analyze Inputs.period_frame Inputs.min1_filters = inr Inputs.period_result /\
  NoDup (map PeriodComparison.j_key (PeriodComparison.by_tcrew Inputs.period_result)).
Proof.
  assert (H : PeriodComparison.analyze Inputs.period_frame Inputs.min1_filters
              = inr Inputs.period_result) by (vm_compute; reflexivity).
  split; [exact H|apply (period_sorted_unique _ _ _ H)].
Defined.

(** ** The Simple Filter per-agent table *)

Section SimpleResult.
Import Table FS SimpleFilter.

Lemma pd_le_count : forall l : list row,
  (Nps.promoters (scores l) + Nps.detractors (scores l) <= count_valid l)%nat.
Proof.
  unfold Nps.promoters, Nps.detractors, count_valid, scores.
  induction l as [|r l IH]; simpl; [lia|].
  destruct (score r) as [v|]; simpl; [|lia].
  destruct (Qle_bool 9 v) eqn:E9; destruct (Qle_bool v 6) eqn:E6; simpl; try lia.
  apply Qle_bool_iff in E9, E6.
  pose proof (Qle_trans _ _ _ E9 E6) as H; unfold Qle in H; simpl in H; lia.
Qed.

Lemma count_valid_filter_mono : forall (p q : row -> bool) l,
  (forall x, p x = true -> q x = true) ->
  (count_valid (filter p l) <= count_valid (filter q l))%nat.
Proof.
  intros p q l Hpq; unfold count_valid; induction l as [|r l IH]; simpl; [lia|].
  destruct (p r) eqn:Ep; [rewrite (Hpq r Ep)|destruct (q r)]; simpl;
    destruct (score r); simpl; lia.
Qed.

Lemma scaled_bounds_k : forall p d t k, 0 < t -> 0 <= k -> 0 <= p -> 0 <= d -> p + d <= t ->
  (inject_Z (- k) <= inject_Z ((p - d) * k) / inject_Z t <= inject_Z k)%Q.
Proof.
  intros p d t k Ht Hk Hp Hd Hpd; split;
    [apply Qle_shift_div_l | apply Qle_shift_div_r];
    try (unfold Qlt; simpl; lia);
    rewrite <- inject_Z_mult, <- Zle_Qle; nia.
Qed.

Lemma round1_bounds : forall (a b : Z) q, (inject_Z (a * 10) <= q * 10 <= inject_Z (b * 10))%Q ->
  (inject_Z a <= round1 q <= inject_Z b)%Q.
Proof.
  intros a b q Hq; apply round_half_even_bounds in Hq; unfold round1.
  unfold Qle; simpl; lia.
Qed.

Lemma nps_value_bounds : forall p d c v, (p + d <= c)%nat -> nps_value p d c = Some v ->
  (-100 <= v <= 100)%Q.
Proof.
  intros p d c v Hpd H; unfold nps_value, div_q in H.
  destruct (Nat.eqb c 0) eqn:E; [discriminate|]; simpl in H; injection H as <-.
  apply Nat.eqb_neq in E.
  change (-100)%Q with (inject_Z (-100)); change 100%Q with (inject_Z 100).
  apply round1_bounds.
  assert (Hc : (inject_Z (Z.of_nat c) == 0)%Q -> False)
    by (intro Hq; unfold Qeq in Hq; simpl in Hq; lia).
  assert (Eq : (inject_Z (Z.of_nat p - Z.of_nat d) / inject_Z (Z.of_nat c) * 100 * 10
                == inject_Z ((Z.of_nat p - Z.of_nat d) * 1000) / inject_Z (Z.of_nat c))%Q)
    by (rewrite inject_Z_mult; field; exact Hc).
  rewrite Eq; apply (scaled_bounds_k _ _ _ 1000); lia.
Qed.

Lemma share_bounds : forall c s v, (c <= s)%nat ->
  option_map (fun x => round1 (x * 100)%Q) (div_q (Z.of_nat c) s) = Some v ->
  (0 <= v <= 100)%Q.
Proof.
  intros c s v Hcs H; unfold div_q in H.
  destruct (Nat.eqb s 0) eqn:E; [discriminate|]; simpl in H; injection H as <-.
  apply Nat.eqb_neq in E.
  change 0%Q with (inject_Z 0); change 100%Q with (inject_Z 100).
  apply round1_bounds.
  assert (Hc : (inject_Z (Z.of_nat s) == 0)%Q -> False)
    by (intro Hq; unfold Qeq in Hq; simpl in Hq; lia).
  assert (Eq : (inject_Z (Z.of_nat c) / inject_Z (Z.of_nat s) * 100 * 10
                == inject_Z ((Z.of_nat c - 0) * 1000) / inject_Z (Z.of_nat s))%Q)
    by (rewrite Z.sub_0_r, inject_Z_mult; field; exact Hc).
  rewrite Eq; split; [|apply (scaled_bounds_k _ _ _ 1000); lia].
  apply Qle_shift_div_l; [unfold Qlt; simpl; lia|].
  rewrite <- inject_Z_mult, <- Zle_Qle; nia.
Qed.

Lemma le_nan_total : forall a b, le_nan a b = false -> le_nan b a = true.
Proof.
  intros [a|] [b|]; simpl; try discriminate; try reflexivity; apply Qle_bool_total.
Qed.

Lemma lex_total : forall (ka kb : list ustr) (na nb : option Q),
  (key_ltb ka kb || (key_eqb ka kb && le_nan na nb)) = false ->
  (key_ltb kb ka || (key_eqb kb ka && le_nan nb na)) = true.
Proof.
  intros ka kb na nb H; apply orb_false_iff in H as [L E].
  destruct (key_ltb kb ka) eqn:L'; [reflexivity|simpl].
  assert (Hk : ka = kb) by (apply key_ltb_trich; assumption).
  subst kb; assert (Hr : key_eqb ka ka = true) by (apply key_eqb_eq; reflexivity).
  rewrite Hr in E |- *; simpl in *; apply le_nan_total, E.
Qed.

(** The table before the NPS-target filter and the sort: one row per
    group of [groupby(['마케팅팀명', '대리점명', '매장명', '담당자'])], kept
    by the response floor. *)
Lemma analyze_by_tcrew_in : forall df f tbl x,
  analyze_by_tcrew df f = inr tbl -> In x tbl ->
  exists m g r, get_or (min_responses_period1 f) 5 = Some m /\
    In ([mteam r; dealer r; store r; tcrew r], g)
       (groupby (fun r => [mteam r; dealer r; store r; tcrew r]) df) /\ In r g /\
    t_team x = mteam r /\ t_dealer x = dealer r /\ t_store x = store r /\ t_tcrew x = tcrew r /\
    t_count x = count_valid g /\ t_promoters x = Nps.promoters (scores g) /\
    t_detractors x = Nps.detractors (scores g) /\
    t_nps x = nps_value (t_promoters x) (t_detractors x) (t_count x) /\
    t_share x = option_map (fun v => round1 (v * 100)%Q)
                  (div_q (Z.of_nat (t_count x))
                     (count_valid (filter (fun r' => key_eqb [mteam r'; dealer r'; store r']
                                                             [mteam r; dealer r; store r]) df))) /\
    m <= Z.of_nat (t_count x) /\ target_keep f (t_nps x) = true.
Proof.
  intros df f tbl x H Hx; unfold analyze_by_tcrew, min_filter in H.
  destruct (get_or (min_responses_period1 f) 5) as [m|] eqn:Em; [|discriminate].
  cbn [bind_py] in H; injection H as <-.
  apply sort_by_in in Hx; apply filter_In in Hx as [Hx Ht].
  apply filter_In in Hx as [Hx Hm]; apply Z.leb_le in Hm.
  apply in_map_iff in Hx as [[k g] [Hxe Hkg]].
  destruct (groupby_group _ _ _ _ Hkg) as (r & g' & Hg & Hk & _).
  subst g k x; exists m, (r :: g'), r.
  repeat split; first [reflexivity|assumption|left; reflexivity].
Qed.

Lemma analyze_by_tcrew_nodup : forall df f tbl,
  analyze_by_tcrew df f = inr tbl ->
  NoDup (map (fun x => [t_team x; t_dealer x; t_store x; t_tcrew x]) tbl).
Proof.
  intros df f tbl H; unfold analyze_by_tcrew, min_filter in H.
  destruct (get_or (min_responses_period1 f) 5) as [m|]; [|discriminate].
  cbn [bind_py] in H; injection H as <-.
  apply sort_by_nodup_map, filter_nodup_map, filter_nodup_map.
  rewrite map_map.
  erewrite map_ext_in; [apply nodup_groupby_keys|].
  intros [k g] Hkg; destruct (groupby_group _ _ _ _ Hkg) as (r & g' & -> & <- & _).
  reflexivity.
Qed.

End SimpleResult.

(** X14: every agent of the Simple Filter table ([_analyze_by_tcrew]) is
    one group (team, dealer, store, agent) of the frame and passed the
    filters: at least [min_responses_period1] (default 5) responses and the
    NPS target; its promoters and detractors are among its counted
    responses, its NPS is in [[-100, 100]] and its share of the store's
    responses in [[0, 100]] (when they are numbers). *)
Theorem simple_filter_rows_pass_filters : forall df f tbl,
  SimpleFilter.analyze_by_tcrew df f = inr tbl ->
  Forall (fun x =>
    (forall m, get_or (FS.min_responses_period1 f) 5 = Some m ->
               m <= Z.of_nat (SimpleFilter.t_count x)) /\
    SimpleFilter.target_keep f (SimpleFilter.t_nps x) = true /\
    (SimpleFilter.t_promoters x + SimpleFilter.t_detractors x <= SimpleFilter.t_count x)%nat /\
    (forall v, SimpleFilter.t_nps x = Some v -> (-100 <= v <= 100)%Q) /\
    (forall v, SimpleFilter.t_share x = Some v -> (0 <= v <= 100)%Q) /\
    exists r, In r df /\ SimpleFilter.t_team x = Table.mteam r /\
      SimpleFilter.t_dealer x = Table.dealer r /\ SimpleFilter.t_store x = Table.store r /\
      SimpleFilter.t_tcrew x = Table.tcrew r)
    tbl.
Proof.
  intros df f tbl H; apply Forall_forall; intros x Hx.
  destruct (analyze_by_tcrew_in _ _ _ _ H Hx)
    as (m & g & r & Em & Hg & Hr & E1 & E2 & E3 & E4 & Ec & Ep & Ed & En & Es & Hm & Ht).
  destruct (groupby_group _ _ _ _ Hg) as (_ & _ & _ & _ & Hall).
  assert (Hpd : (SimpleFilter.t_promoters x + SimpleFilter.t_detractors x
                 <= SimpleFilter.t_count x)%nat) by (rewrite Ec, Ep, Ed; apply pd_le_count).
  split; [intros m' Hm'; rewrite Em in Hm'; injection Hm' as <-; exact Hm|].
  split; [exact Ht|split; [exact Hpd|split; [|split]]].
  - intros v Hv; rewrite En in Hv; exact (nps_value_bounds _ _ _ _ Hpd Hv).
  - intros v Hv; rewrite Es in Hv; refine (share_bounds _ _ _ _ Hv).
    destruct (groupby_spec (fun r => [Table.mteam r; Table.dealer r; Table.store r; Table.tcrew r]) df)
      as (_ & _ & Hgs & _); destruct (Hgs _ _ Hg) as (Hgf & _ & _).
    rewrite Ec, Hgf; apply count_valid_filter_mono.
    intros y Hy; apply key_eqb_eq in Hy; injection Hy as H1 H2 H3 H4.
    rewrite H1, H2, H3; apply key_eqb_eq; reflexivity.
  - exists r; split; [apply (Hall r Hr)|auto].
Qed.

Lemma simple_filter_rows_pass_filters_witness :
  SimpleFilter.analyze_by_tcrew Inputs.tie_rows Inputs.min1_filters = inr Inputs.tie_table /\
  Inputs.tie_table <> [] /\
  Forall (fun x => forall v, SimpleFilter.t_nps x = Some v -> (-100 <= v <= 100)%Q) Inputs.tie_table.
Proof.
  assert (H : SimpleFilter.analyze_by_tcrew Inputs.tie_rows Inputs.min1_filters
              = inr Inputs.tie_table) by (vm_compute; reflexivity).
  split; [exact H|split; [vm_compute; discriminate|]].
  eapply Forall_impl; [|apply (simple_filter_rows_pass_filters _ _ _ H)].
  intros x Hx; apply Hx.
Defined.

(** X15: the Simple Filter table is ordered by team, dealer and store
    (Python string order) and then by NPS, NaN last
    ([sort_values(['마케팅팀명', '대리점명', '매장명', 'NPS_value'])]), and
    lists each (team, dealer, store, agent) at most once. *)
Theorem simple_filter_sorted_unique : forall df f tbl,
  SimpleFilter.analyze_by_tcrew df f = inr tbl ->
  Sorted (fun a b =>
    Table.key_ltb [SimpleFilter.t_team a; SimpleFilter.t_dealer a; SimpleFilter.t_store a]
                  [SimpleFilter.t_team b; SimpleFilter.t_dealer b; SimpleFilter.t_store b] = true \/
    ([SimpleFilter.t_team a; SimpleFilter.t_dealer a; SimpleFilter.t_store a] =
     [SimpleFilter.t_team b; SimpleFilter.t_dealer b; SimpleFilter.t_store b] /\
     Table.le_nan (SimpleFilter.t_nps a) (SimpleFilter.t_nps b) = true)) tbl /\
  NoDup (map (fun x => [SimpleFilter.t_team x; SimpleFilter.t_dealer x;
                        SimpleFilter.t_store x; SimpleFilter.t_tcrew x]) tbl).
Proof.
  intros df f tbl H; split; [|exact (analyze_by_tcrew_nodup _ _ _ H)].
  unfold SimpleFilter.analyze_by_tcrew, SimpleFilter.min_filter in H.
  destruct (get_or (FS.min_responses_period1 f) 5) as [m|]; [|discriminate].
  cbn [bind_py] in H; injection H as <-.
  eapply Sorted_impl_; [|apply sort_by_sorted; intros a b;
    exact (lex_total [SimpleFilter.t_team a; SimpleFilter.t_dealer a; SimpleFilter.t_store a]
                     [SimpleFilter.t_team b; SimpleFilter.t_dealer b; SimpleFilter.t_store b]
                     (SimpleFilter.t_nps a) (SimpleFilter.t_nps b))].
  intros a b Hab; apply orb_true_iff in Hab as [Hab|Hab]; [left; exact Hab|right].
  apply andb_true_iff in Hab as [E L]; split; [apply key_eqb_eq, E|exact L].
Qed.

Lemma simple_filter_sorted_unique_witness :
  SimpleFilter.analyze_by_tcrew Inputs.tie_rows Inputs.min1_filters = inr Inputs.tie_table /\
  NoDup (map (fun x => [SimpleFilter.t_team x; SimpleFilter.t_dealer x;
                        SimpleFilter.t_store x; SimpleFilter.t_tcrew x]) Inputs.tie_table).
Proof.
  assert (H : SimpleFilter.analyze_by_tcrew Inputs.tie_rows Inputs.min1_filters
              = inr Inputs.tie_table) by (vm_compute; reflexivity).
  split; [exact H|apply (simple_filter_sorted_unique _ _ _ H)].
Defined.

(* ------------------------------------------------------------------ *)
(** ** The store tables *)

Lemma Sorted_strict_nodup : forall {A B} (R S : A -> A -> Prop) (g : A -> B),
  (forall a b, R a b -> g a <> g b -> S a b) ->
  forall l, Sorted R l -> NoDup (map g l) -> Sorted S l.
Proof.
  intros A B R S g HRS l HS; induction HS as [|a l HS IH Hhd]; intros Hn; constructor.
  - inversion Hn; auto.
  - inversion Hhd as [|b l' Hab]; subst; constructor.
    inversion Hn as [|? ? Hni _]; subst; apply HRS; [exact Hab|].
    intro E; apply Hni; rewrite E; left; reflexivity.
Qed.

Section SimpleStoreResult.
Import Table FS SimpleFilter SimpleStore.

Lemma simple_store_in : forall df f tbl x,
  analyze_by_store df f = inr tbl -> In x tbl ->
  exists m g r, get_or (min_responses_period1 f) 5 = Some m /\
    In ([mteam r; dealer r; store r], g) (groupby (fun r => [mteam r; dealer r; store r]) df) /\
    In r g /\ store_key x = [mteam r; dealer r; store r] /\
    s_count x = count_valid g /\ s_promoters x = Nps.promoters (scores g) /\
    s_detractors x = Nps.detractors (scores g) /\
    s_nps x = nps_value (s_promoters x) (s_detractors x) (s_count x) /\
    m <= Z.of_nat (s_count x) /\ target_keep f (s_nps x) = true.
Proof.
  intros df f tbl x H Hx; unfold analyze_by_store, min_filter in H.
  destruct (get_or (min_responses_period1 f) 5) as [m|] eqn:Em; [|discriminate].
  cbn [bind_py] in H; injection H as <-.
  apply sort_by_in in Hx; apply filter_In in Hx as [Hx Ht].
  apply filter_In in Hx as [Hx Hm]; apply Z.leb_le in Hm.
  apply in_map_iff in Hx as [[k g] [Hxe Hkg]].
  destruct (groupby_group _ _ _ _ Hkg) as (r & g' & Hg & Hk & _).
  subst g k x; exists m, (r :: g'), r.
  repeat split; first [reflexivity|assumption|left; reflexivity].
Qed.

Lemma simple_store_nodup : forall df f tbl,
  analyze_by_store df f = inr tbl -> NoDup (map store_key tbl).
Proof.
  intros df f tbl H; unfold analyze_by_store, min_filter in H.
  destruct (get_or (min_responses_period1 f) 5) as [m|]; [|discriminate].
  cbn [bind_py] in H; injection H as <-.
  apply sort_by_nodup_map, filter_nodup_map, filter_nodup_map.
  rewrite map_map.
  erewrite map_ext_in; [apply (nodup_groupby_keys (fun r => [mteam r; dealer r; store r]) df)|].
  intros [k g] Hkg; destruct (groupby_group _ _ _ _ Hkg) as (r & g' & -> & <- & _).
  reflexivity.
Qed.

Lemma simple_store_sorted_le : forall l,
  Sorted (fun a b => (key_ltb (store_key a) (store_key b)
                      || (key_eqb (store_key a) (store_key b) && le_nan (s_nps a) (s_nps b))) = true)
         (sort_by (fun a b => key_ltb (store_key a) (store_key b)
                              || (key_eqb (store_key a) (store_key b) && le_nan (s_nps a) (s_nps b))) l).
Proof.
  intros l; apply sort_by_sorted; intros a b.
  exact (lex_total (store_key a) (store_key b) (s_nps a) (s_nps b)).
Qed.

End SimpleStoreResult.

(** X16: every row of the Simple Filter store table ([_analyze_by_store])
    is one store (team, dealer, store) of the frame and passed the filters:
    at least [min_responses_period1] (default 5) responses and the NPS
    target. Its count is the number of scored responses of that store, its
    promoters and detractors are among them, and its NPS is in
    [[-100, 100]] (when it is a number). *)
Theorem simple_store_rows_pass_filters : forall df f tbl,
  SimpleStore.analyze_by_store df f = inr tbl ->
  Forall (fun x =>
    (forall m, get_or (FS.min_responses_period1 f) 5 = Some m ->
               m <= Z.of_nat (SimpleStore.s_count x)) /\
    SimpleFilter.target_keep f (SimpleStore.s_nps x) = true /\
    SimpleStore.s_count x =
      Table.count_valid (filter (fun r => Table.key_eqb [Table.mteam r; Table.dealer r; Table.store r]
                                                        (SimpleStore.store_key x)) df) /\
    (SimpleStore.s_promoters x + SimpleStore.s_detractors x <= SimpleStore.s_count x)%nat /\
    (forall v, SimpleStore.s_nps x = Some v -> (-100 <= v <= 100)%Q) /\
    exists r, In r df /\ SimpleStore.store_key x = [Table.mteam r; Table.dealer r; Table.store r])
    tbl.
Proof.
  intros df f tbl H; apply Forall_forall; intros x Hx.
  destruct (simple_store_in _ _ _ _ H Hx)
    as (m & g & r & Em & Hg & Hr & Ek & Ec & Ep & Ed & En & Hm & Ht).
  destruct (groupby_group _ _ _ _ Hg) as (_ & _ & _ & _ & Hall).
  destruct (groupby_spec (fun r => [Table.mteam r; Table.dealer r; Table.store r]) df)
    as (_ & _ & Hgs & _); destruct (Hgs _ _ Hg) as (Hgf & _ & _).
  assert (Hpd : (SimpleStore.s_promoters x + SimpleStore.s_detractors x
                 <= SimpleStore.s_count x)%nat) by (rewrite Ec, Ep, Ed; apply pd_le_count).
  split; [intros m' Hm'; rewrite Em in Hm'; injection Hm' as <-; exact Hm|].
  split; [exact Ht|split; [|split; [exact Hpd|split]]].
  - rewrite Ec, Hgf, Ek; reflexivity.
  - intros v Hv; rewrite En in Hv; exact (nps_value_bounds _ _ _ _ Hpd Hv).
  - exists r; split; [apply (Hall r Hr)|exact Ek].
Qed.

Lemma simple_store_rows_pass_filters_witness :
  SimpleStore.analyze_by_store (MoreInputs.store_rows1 ++ MoreInputs.store_rows2)%list
    Inputs.min1_filters = inr MoreInputs.simple_store_table /\
  MoreInputs.simple_store_table <> [] /\
  Forall (fun x => forall v, SimpleStore.s_nps x = Some v -> (-100 <= v <= 100)%Q)
         MoreInputs.simple_store_table.
Proof.
  assert (H : SimpleStore.analyze_by_store (MoreInputs.store_rows1 ++ MoreInputs.store_rows2)%list
                Inputs.min1_filters = inr MoreInputs.simple_store_table) by (vm_compute; reflexivity).
  split; [exact H|split; [vm_compute; discriminate|]].
  eapply Forall_impl; [|apply (simple_store_rows_pass_filters _ _ _ H)].
  intros x Hx; apply Hx.
Defined.

(** X17: the Simple Filter store table lists each store (team, dealer,
    store) at most once, so its sort on team, dealer, store and NPS orders
    it strictly by (team, dealer, store) in Python string order. *)
Theorem simple_store_sorted_unique : forall df f tbl,
  SimpleStore.analyze_by_store df f = inr tbl ->
  Sorted (fun a b => Table.key_ltb (SimpleStore.store_key a) (SimpleStore.store_key b) = true) tbl /\
  NoDup (map SimpleStore.store_key tbl).
Proof.
  intros df f tbl H; pose proof (simple_store_nodup _ _ _ H) as Hn; split; [|exact Hn].
  unfold SimpleStore.analyze_by_store, SimpleFilter.min_filter in H.
  destruct (get_or (FS.min_responses_period1 f) 5) as [m|]; [|discriminate].
  cbn [bind_py] in H; injection H as <-.
  refine (Sorted_strict_nodup _ _ SimpleStore.store_key _ _ (simple_store_sorted_le _) Hn).
  intros a b Hab Hne; apply orb_true_iff in Hab as [Hab|Hab]; [exact Hab|].
  apply andb_true_iff in Hab as [E _]; apply key_eqb_eq in E; contradiction.
Qed.

Lemma simple_store_sorted_unique_witness :
  SimpleStore.analyze_by_store (MoreInputs.store_rows1 ++ MoreInputs.store_rows2)%list
    Inputs.min1_filters = inr MoreInputs.simple_store_table /\
  NoDup (map SimpleStore.store_key MoreInputs.simple_store_table).
Proof.
  assert (H : SimpleStore.analyze_by_store (MoreInputs.store_rows1 ++ MoreInputs.store_rows2)%list
                Inputs.min1_filters = inr MoreInputs.simple_store_table) by (vm_compute; reflexivity).
  split; [exact H|apply (simple_store_sorted_unique _ _ _ H)].
Defined.

Lemma rate_nps_total : forall ra rb na nb : Q,
  (Qltb rb ra || (Qeq_bool ra rb && Qle_bool na nb)) = false ->
  (Qltb ra rb || (Qeq_bool rb ra && Qle_bool nb na)) = true.
Proof.
  intros ra rb na nb H; apply orb_false_iff in H as [H1 H2].
  unfold Qltb in *; apply negb_false_iff in H1; apply Qle_bool_iff in H1.
  destruct (Qle_bool rb ra) eqn:E; simpl; [|reflexivity].
  apply Qle_bool_iff in E.
  assert (Heq : (ra == rb)%Q) by (apply Qle_antisym; assumption).
  assert (Eba : Qeq_bool rb ra = true) by (apply Qeq_bool_iff, Qeq_sym, Heq).
  assert (Eab : Qeq_bool ra rb = true) by (apply Qeq_bool_iff, Heq).
  rewrite Eab in H2; rewrite Eba; simpl in *; apply Qle_bool_total, H2.
Qed.

Lemma rate_nps_order : forall ra rb na nb : Q,
  (Qltb rb ra || (Qeq_bool ra rb && Qle_bool na nb)) = true ->
  (rb < ra \/ (ra == rb /\ na <= nb))%Q.
Proof.
  intros ra rb na nb H; apply orb_true_iff in H as [H|H]; [left; apply Qltb_iff, H|right].
  apply andb_true_iff in H as [E L]; split; [apply Qeq_bool_iff, E|apply Qle_bool_iff, L].
Qed.

Section SeniorStoreResult.
Import Table FS SeniorGap SeniorStore.

Lemma store_stats_in : forall ds x, In x (store_stats ds) ->
  exists r g, In ([mteam r; dealer r; store r], g) (groupby (fun r => [mteam r; dealer r; store r]) ds) /\
    In r g /\ store_key x = [mteam r; dealer r; store r] /\
    st_total x = length g /\ st_senior x = length (filter is_senior g) /\
    st_nps x = Nps.calculate_nps (scores g) /\
    st_senior_rate x = (inject_Z (Z.of_nat (length (filter is_senior g)))
                        / inject_Z (Z.of_nat (length g)) * 100)%Q.
Proof.
  intros ds x H; unfold store_stats in H; apply in_map_iff in H as ([k g] & <- & H).
  destruct (groupby_group _ _ _ _ H) as (r & g' & -> & <- & _).
  exists r, (r :: g'); split; [exact H|split; [left; reflexivity|]].
  repeat split.
Qed.

Lemma store_stats_nodup : forall ds, NoDup (map store_key (store_stats ds)).
Proof.
  intros ds; unfold store_stats; rewrite map_map.
  erewrite map_ext_in; [apply (nodup_groupby_keys (fun r => [mteam r; dealer r; store r]) ds)|].
  intros [k g] Hkg; destruct (groupby_group _ _ _ _ Hkg) as (r & g' & -> & <- & _).
  reflexivity.
Qed.

Lemma senior_store_in : forall dff f avg t cmp rt s x,
  analyze_by_store dff f avg t cmp rt = inr s -> In x s ->
  In x (store_stats (filter (fun r => existsb (ustr_eqb (tcrew_id r)) (map a_tcrew_id rt)) dff)) /\
  (1 <= st_senior x)%nat /\
  (forall m, get_or (min_responses f) 5 = Some m -> m <= Z.of_nat (st_total x)) /\
  match cmp with
  | Some Below => (st_nps x < inject_Z t)%Q
  | _ => (inject_Z t <= st_nps x)%Q
  end /\
  match get (senior_threshold f) with
  | Some SBelowAvg => (st_senior_rate x < avg)%Q
  | Some (SCustom v) => exists c, float_of_digits v = inr c /\ (c <= st_senior_rate x)%Q
  | _ => (avg <= st_senior_rate x)%Q
  end.
Proof.
  intros dff f avg t cmp rt s x H Hx; unfold analyze_by_store in H; cbv zeta in H.
  destruct (filter (fun r => existsb (ustr_eqb (tcrew_id r)) (map a_tcrew_id rt)) dff)
    as [|r0 ds'] eqn:Eds; [injection H as <-; destruct Hx|].
  cbn beta iota in H.
  destruct (get (senior_threshold f)) as [[| |v]|] eqn:Et;
    [| |destruct (float_of_digits v) as [e|c] eqn:Ec|]; cbn [bind_py] in H; try discriminate.
  all: destruct (get_or (min_responses f) 5) as [m|] eqn:Em; [|discriminate].
  all: injection H as <-; apply sort_by_in in Hx.
  all: apply filter_In in Hx as [Hx Hs]; apply filter_In in Hx as [Hx Hm].
  all: apply filter_In in Hx as [Hx Hth].
  all: destruct cmp as [[|]|]; apply filter_In in Hx as [Hx Hn].
  all: split; [exact Hx|split; [apply Nat.leb_le, Hs|split]];
       [intros m' Hm'; injection Hm' as <-; apply Z.leb_le, Hm|].
  all: split; [first [apply Qltb_iff, Hn | apply Qle_bool_iff, Hn]|].
  all: first [apply Qltb_iff, Hth | apply Qle_bool_iff, Hth | exists c; split; [reflexivity|apply Qle_bool_iff, Hth]].
Qed.

Lemma senior_store_nodup : forall dff f avg t cmp rt s,
  analyze_by_store dff f avg t cmp rt = inr s -> NoDup (map store_key s).
Proof.
  intros dff f avg t cmp rt s H; unfold analyze_by_store in H; cbv zeta in H.
  destruct (filter (fun r => existsb (ustr_eqb (tcrew_id r)) (map a_tcrew_id rt)) dff)
    as [|r0 ds'] eqn:Eds; [injection H as <-; constructor|].
  cbn beta iota in H.
  destruct (get (senior_threshold f)) as [[| |v]|] eqn:Et;
    [| |destruct (float_of_digits v) as [e|c] eqn:Ec|]; cbn [bind_py] in H; try discriminate.
  all: destruct (get_or (min_responses f) 5) as [m|] eqn:Em; [|discriminate].
  all: injection H as <-; apply sort_by_nodup_map, filter_nodup_map, filter_nodup_map,
         filter_nodup_map.
  all: destruct cmp as [[|]|]; apply filter_nodup_map, store_stats_nodup.
Qed.

Lemma senior_store_sorted : forall dff f avg t cmp rt s,
  analyze_by_store dff f avg t cmp rt = inr s ->
  Sorted (fun a b => (st_senior_rate b < st_senior_rate a)%Q \/
                     (st_senior_rate a == st_senior_rate b /\ st_nps a <= st_nps b)%Q) s.
Proof.
  intros dff f avg t cmp rt s H; unfold analyze_by_store in H; cbv zeta in H.
  destruct (filter (fun r => existsb (ustr_eqb (tcrew_id r)) (map a_tcrew_id rt)) dff)
    as [|r0 ds'] eqn:Eds; [injection H as <-; constructor|].
  cbn beta iota in H.
  destruct (get (senior_threshold f)) as [[| |v]|] eqn:Et;
    [| |destruct (float_of_digits v) as [e|c] eqn:Ec|]; cbn [bind_py] in H; try discriminate.
  all: destruct (get_or (min_responses f) 5) as [m|] eqn:Em; [|discriminate].
  all: injection H as <-.
  all: eapply Sorted_impl_; [intros a b Hab; exact (rate_nps_order _ _ _ _ Hab)|].
  all: apply sort_by_sorted; intros a b.
  all: exact (rate_nps_total (st_senior_rate a) (st_senior_rate b) (st_nps a) (st_nps b)).
Qed.

Lemma by_store_cases : forall df f s,
  by_store df f = inr (Some s) ->
  exists r0, analyze df f = inr r0 /\
    analyze_by_store (scope_filter f df) f (avg_senior_rate (scope_filter f df))
                     (fst (target_of f)) (snd (target_of f)) (by_tcrew r0) = inr s.
Proof.
  intros df f s H; unfold by_store in H; cbv zeta in H.
  destruct (tcrew_stats (scope_filter f df)) as [|a l]; [discriminate|].
  cbn beta iota in H.
  destruct (analyze df f) as [e|r0] eqn:Ea; [discriminate|]; cbn [bind_py] in H.
  destruct (target_of f) as [t cmp]; cbn [fst snd].
  destruct (analyze_by_store _ _ _ _ _ _) as [e|s'] eqn:Eb; [discriminate|].
  cbn [bind_py] in H; injection H as <-; exists r0; split; first [reflexivity|assumption].
Qed.

End SeniorStoreResult.

(** X18: every row of the Senior Gap store table ([by_store]) is a store
    where at least one agent of the final agent table answered: its counts
    cover exactly the responses, in the scope-filtered frame, of the agents
    of that table at that store. It passed the store filters: at least one
    senior response, the [min_responses] floor (default 5), the NPS target
    [analyze] settled on (default below 87) and the senior-proportion
    threshold against the population average; its senior proportion lies
    in [[0, 100]] and its NPS in [[-100, 100]]. *)
Theorem senior_store_rows_pass_filters : forall df f s,
  SeniorStore.by_store df f = inr (Some s) ->
  exists r0, SeniorGap.analyze df f = inr r0 /\
  Forall (fun x =>
    (1 <= SeniorStore.st_senior x <= SeniorStore.st_total x)%nat /\
    SeniorStore.st_total x =
      length (filter (fun r => Table.key_eqb [Table.mteam r; Table.dealer r; Table.store r]
                                             (SeniorStore.store_key x))
                (filter (fun r => existsb (Table.ustr_eqb (Table.tcrew_id r))
                                          (map SeniorGap.a_tcrew_id (SeniorGap.by_tcrew r0)))
                        (SeniorGap.scope_filter f df))) /\
    (exists r a, In r (SeniorGap.scope_filter f df) /\ In a (SeniorGap.by_tcrew r0) /\
                 Table.tcrew_id r = SeniorGap.a_tcrew_id a /\
                 SeniorStore.store_key x = [Table.mteam r; Table.dealer r; Table.store r]) /\
    (forall m, get_or (FS.min_responses f) 5 = Some m -> m <= Z.of_nat (SeniorStore.st_total x)) /\
    (let '(t, cmp) := SeniorStore.target_of f in
     match cmp with
     | Some FS.Below => (SeniorStore.st_nps x < inject_Z t)%Q
     | _ => (inject_Z t <= SeniorStore.st_nps x)%Q
     end) /\
    match get (FS.senior_threshold f) with
    | Some FS.SBelowAvg =>
        (SeniorStore.st_senior_rate x < SeniorGap.avg_senior_rate (SeniorGap.scope_filter f df))%Q
    | Some (FS.SCustom v) =>
        exists c, SeniorGap.float_of_digits v = inr c /\ (c <= SeniorStore.st_senior_rate x)%Q
    | _ => (SeniorGap.avg_senior_rate (SeniorGap.scope_filter f df) <= SeniorStore.st_senior_rate x)%Q
    end /\
    (0 <= SeniorStore.st_senior_rate x <= 100)%Q /\ (-100 <= SeniorStore.st_nps x <= 100)%Q)
    s.
Proof.
  intros df f s H; destruct (by_store_cases _ _ _ H) as (r0 & Ha & Hb).
  exists r0; split; [exact Ha|]; apply Forall_forall; intros x Hx.
  destruct (senior_store_in _ _ _ _ _ _ _ _ Hb Hx) as (Hx' & Hs & Hm & Hn & Ht).
  destruct (store_stats_in _ _ Hx') as (r & g & Hg & Hr & Ek & Etot & Esen & Enps & Erate).
  destruct (groupby_group _ _ _ _ Hg) as (_ & _ & _ & _ & Hall).
  destruct (groupby_spec (fun r => [Table.mteam r; Table.dealer r; Table.store r])
              (filter (fun r => existsb (Table.ustr_eqb (Table.tcrew_id r))
                                        (map SeniorGap.a_tcrew_id (SeniorGap.by_tcrew r0)))
                      (SeniorGap.scope_filter f df)))
    as (_ & _ & Hgs & _); destruct (Hgs _ _ Hg) as (Hgf & _ & _).
  pose proof (filter_length_le SeniorGap.is_senior g) as Hsl.
  assert (Hg0 : (0 < length g)%nat) by (destruct g; [destruct Hr|simpl; lia]).
  split; [rewrite Esen in Hs |- *; rewrite Etot; lia|].
  split; [rewrite Etot, Hgf, Ek; reflexivity|].
  split.
  { destruct (Hall r Hr) as (_ & Hin); apply filter_In in Hin as [Hin Hid].
    apply existsb_exists in Hid as (id & Hid & Eid); apply ustr_eqb_eq in Eid; subst id.
    apply in_map_iff in Hid as (a & Eid & Ha').
    exists r, a; repeat split; auto. }
  split; [exact Hm|split; [destruct (SeniorStore.target_of f) as [t cmp]; exact Hn|split; [exact Ht|]]].
  split; [rewrite Erate; apply ratio_bounds; assumption|rewrite Enps; apply calculate_nps_bounds].
Qed.

Lemma senior_store_rows_pass_filters_witness :
  SeniorStore.by_store MoreInputs.senior_pass_rows FS.empty_filters
    = inr (Some MoreInputs.senior_store_table) /\
  MoreInputs.senior_store_table <> [] /\
  exists r0, SeniorGap.analyze MoreInputs.senior_pass_rows FS.empty_filters = inr r0 /\
    Forall (fun x => (1 <= SeniorStore.st_senior x)%nat) MoreInputs.senior_store_table.
Proof.
  assert (H : SeniorStore.by_store MoreInputs.senior_pass_rows FS.empty_filters
              = inr (Some MoreInputs.senior_store_table)) by (vm_compute; reflexivity).
  split; [exact H|split; [vm_compute; discriminate|]].
  destruct (senior_store_rows_pass_filters _ _ _ H) as (r0 & Ha & Hall).
  exists r0; split; [exact Ha|].
  eapply Forall_impl; [|exact Hall]; intros x Hx; apply Hx.
Defined.

(** X19: the Senior Gap store table is ordered like the agent table, by
    senior proportion, highest first, and within equal proportions by NPS,
    lowest first, and lists each store (team, dealer, store) at most once. *)
Theorem senior_store_sorted_unique : forall df f s,
  SeniorStore.by_store df f = inr (Some s) ->
  Sorted (fun a b => (SeniorStore.st_senior_rate b < SeniorStore.st_senior_rate a)%Q \/
                     (SeniorStore.st_senior_rate a == SeniorStore.st_senior_rate b /\
                      SeniorStore.st_nps a <= SeniorStore.st_nps b)%Q) s /\
  NoDup (map SeniorStore.store_key s).
Proof.
  intros df f s H; destruct (by_store_cases _ _ _ H) as (r0 & _ & Hb).
  split; [exact (senior_store_sorted _ _ _ _ _ _ _ Hb)|exact (senior_store_nodup _ _ _ _ _ _ _ Hb)].
Qed.

Lemma senior_store_sorted_unique_witness :
  SeniorStore.by_store MoreInputs.senior_pass_rows FS.empty_filters
    = inr (Some MoreInputs.senior_store_table) /\
  NoDup (map SeniorStore.store_key MoreInputs.senior_store_table).
Proof.
  assert (H : SeniorStore.by_store MoreInputs.senior_pass_rows FS.empty_filters
              = inr (Some MoreInputs.senior_store_table)) by (vm_compute; reflexivity).
  split; [exact H|apply (senior_store_sorted_unique _ _ _ H)].
Defined.

(* ------------------------------------------------------------------ *)
(** ** The insight figures *)

Lemma succ_inject : forall n : nat, inject_Z (Z.of_nat (S n)) == inject_Z (Z.of_nat n) + 1.
Proof. intros n; rewrite Nat2Z.inj_succ, <- Z.add_1_r, inject_Z_plus; reflexivity. Qed.

Lemma sum_le_ : forall (l : list Q) c, Forall (fun x => x <= c)%Q l ->
  (fold_right Qplus 0 l <= inject_Z (Z.of_nat (length l)) * c)%Q.
Proof.
  intros l c H; induction H as [|x l Hx H IH]; simpl fold_right;
    [change (inject_Z (Z.of_nat (length (@nil Q)))) with 0%Q; lra|].
  cbn [length]; rewrite succ_inject; lra.
Qed.

Lemma sum_ge_ : forall (l : list Q) c, Forall (fun x => c <= x)%Q l ->
  (inject_Z (Z.of_nat (length l)) * c <= fold_right Qplus 0 l)%Q.
Proof.
  intros l c H; induction H as [|x l Hx H IH]; simpl fold_right;
    [change (inject_Z (Z.of_nat (length (@nil Q)))) with 0%Q; lra|].
  cbn [length]; rewrite succ_inject; lra.
Qed.

Lemma length_pos_Q : forall {A} (l : list A), l <> [] -> (0 < inject_Z (Z.of_nat (length l)))%Q.
Proof. intros A [|x l] H; [congruence|unfold Qlt; simpl; lia]. Qed.

Lemma mean_le_ : forall l c, l <> [] -> Forall (fun x => x <= c)%Q l -> (SeniorGap.mean l <= c)%Q.
Proof.
  intros l c Hne H; unfold SeniorGap.mean.
  apply Qle_shift_div_r; [apply length_pos_Q, Hne|].
  rewrite Qmult_comm; apply sum_le_, H.
Qed.

Lemma mean_ge_ : forall l c, l <> [] -> Forall (fun x => c <= x)%Q l -> (c <= SeniorGap.mean l)%Q.
Proof.
  intros l c Hne H; unfold SeniorGap.mean.
  apply Qle_shift_div_l; [apply length_pos_Q, Hne|].
  rewrite Qmult_comm; apply sum_ge_, H.
Qed.

Lemma mean_lt_ : forall l c, l <> [] -> Forall (fun x => x < c)%Q l -> (SeniorGap.mean l < c)%Q.
Proof.
  intros [|x l] c Hne H; [congruence|]; unfold SeniorGap.mean.
  apply Qlt_shift_div_r; [apply length_pos_Q, Hne|].
  inversion H as [|? ? Hx Hl]; subst.
  assert (Hs : (fold_right Qplus 0 l <= inject_Z (Z.of_nat (length l)) * c)%Q).
  { apply sum_le_; eapply Forall_impl; [|exact Hl]; intros y Hy; apply Qlt_le_weak, Hy. }
  simpl fold_right; cbn [length]; rewrite succ_inject; lra.
Qed.

Lemma mean_gt_ : forall l c, l <> [] -> Forall (fun x => c < x)%Q l -> (c < SeniorGap.mean l)%Q.
Proof.
  intros [|x l] c Hne H; [congruence|]; unfold SeniorGap.mean.
  apply Qlt_shift_div_l; [apply length_pos_Q, Hne|].
  inversion H as [|? ? Hx Hl]; subst.
  assert (Hs : (inject_Z (Z.of_nat (length l)) * c <= fold_right Qplus 0 l)%Q).
  { apply sum_ge_; eapply Forall_impl; [|exact Hl]; intros y Hy; apply Qlt_le_weak, Hy. }
  simpl fold_right; cbn [length]; rewrite succ_inject; lra.
Qed.

Lemma forall_map_in : forall {A B} (P : B -> Prop) (f : A -> B) l,
  (forall a, In a l -> P (f a)) -> Forall P (map f l).
Proof.
  intros A B P f l H; apply Forall_forall; intros y Hy.
  apply in_map_iff in Hy; destruct Hy as (a & <- & Ha); apply H, Ha.
Qed.

Lemma rate_nps_strongly_sorted : forall {A} (rate nps : A -> Q) l,
  Sorted (fun a b => (rate b < rate a)%Q \/ (rate a == rate b /\ nps a <= nps b)%Q) l ->
  StronglySorted (fun a b => (rate b < rate a)%Q \/ (rate a == rate b /\ nps a <= nps b)%Q) l.
Proof.
  intros A rate nps l H; apply Sorted_StronglySorted; [|exact H].
  intros x y z [Hxy|[Exy Nxy]] [Hyz|[Eyz Nyz]]; [left; lra|left; lra|left; lra|right; split; lra].
Qed.


Ltac filter_le :=
  match goal with
  | |- (length (if _ then ?x :: filter ?g ?r else filter ?g ?r) <= _)%nat =>
      exact (filter_length_le g (x :: r))
  | |- (length (filter ?g ?l) <= _)%nat => exact (filter_length_le g l)
  end.

Section SeniorInsights.
Import Table FS SeniorGap SeniorStore.

Lemma senior_analyze_sorted : forall df f r, analyze df f = inr r ->
  Sorted (fun a b => (a_senior_rate b < a_senior_rate a)%Q \/
                     (a_senior_rate a == a_senior_rate b /\ a_nps a <= a_nps b)%Q) (by_tcrew r).
Proof.
  intros df f r H.
  destruct (analyze_cases df f r H) as [-> | (r3 & r5 & H3 & H5 & ->)]; [constructor|].
  unfold sort_result.
  eapply Sorted_impl_; [intros a b Hab; exact (rate_nps_order _ _ _ _ Hab)|].
  apply sort_by_sorted; intros a b.
  exact (rate_nps_total (a_senior_rate a) (a_senior_rate b) (a_nps a) (a_nps b)).
Qed.

Lemma senior_rows_threshold : forall df f r a, analyze df f = inr r -> In a (by_tcrew r) ->
  match get (senior_threshold f) with
  | Some SBelowAvg => (a_senior_rate a < avg_senior_rate (scope_filter f df))%Q
  | Some (SCustom v) => exists c, float_of_digits v = inr c /\ (c <= a_senior_rate a)%Q
  | _ => (avg_senior_rate (scope_filter f df) <= a_senior_rate a)%Q
  end.
Proof.
  intros df f r a H Ha.
  destruct (analyze_cases df f r H) as [E | (r3 & r5 & H3 & H5 & E)]; rewrite E in Ha;
    [destruct Ha|].
  apply sort_by_in in Ha.
  destruct (step5_in _ _ _ _ H5 Ha) as (Ha4 & _).
  destruct (step4_in _ _ _ Ha4) as (Ha3 & _).
  destruct (after_step3_in _ _ _ _ H3 Ha3) as (_ & _ & _ & Ht); exact Ht.
Qed.

End SeniorInsights.

(** X20: the figures of the Senior Gap insights ([_generate_insights]):
    TOP 1 is an agent of the table with the highest senior proportion, and
    the lowest NPS among those sharing it; the agent count is the number of
    rows of the table; the counts of agents with a proportion of 30 or more
    and with a gap of 10 or more between NPS and senior NPS are at most the
    number of agents. *)
Theorem senior_insight_top : forall df f r rep,
  SeniorGap.analyze df f = inr r ->
  SeniorStore.insight_figures (SeniorGap.by_tcrew r) = Some rep ->
  In (SeniorStore.rp_top rep) (SeniorGap.by_tcrew r) /\
  SeniorStore.rp_count rep = length (SeniorGap.by_tcrew r) /\
  (forall a, In a (SeniorGap.by_tcrew r) ->
     (SeniorGap.a_senior_rate a <= SeniorGap.a_senior_rate (SeniorStore.rp_top rep))%Q /\
     (SeniorGap.a_senior_rate a == SeniorGap.a_senior_rate (SeniorStore.rp_top rep) ->
      SeniorGap.a_nps (SeniorStore.rp_top rep) <= SeniorGap.a_nps a)%Q) /\
  (SeniorStore.rp_high_senior rep <= SeniorStore.rp_count rep)%nat /\
  (SeniorStore.rp_large_gap rep <= SeniorStore.rp_count rep)%nat.
Proof.
  intros df f r rep H Hf.
  pose proof (rate_nps_strongly_sorted _ _ _ (senior_analyze_sorted _ _ _ H)) as HS.
  destruct (SeniorGap.by_tcrew r) as [|top rest] eqn:Eb; [discriminate|].
  injection Hf as <-; cbn [SeniorStore.rp_top SeniorStore.rp_count SeniorStore.rp_mean_rate
    SeniorStore.rp_high_senior SeniorStore.rp_large_gap].
  inversion HS as [|? ? _ Hfa]; subst.
  assert (Hall : forall a, In a (top :: rest) ->
     (SeniorGap.a_senior_rate a <= SeniorGap.a_senior_rate top)%Q /\
     (SeniorGap.a_senior_rate a == SeniorGap.a_senior_rate top ->
      SeniorGap.a_nps top <= SeniorGap.a_nps a)%Q).
  { intros a [<-|Ha]; [split; [apply Qle_refl|intros _; apply Qle_refl]|].
    rewrite Forall_forall in Hfa; destruct (Hfa a Ha) as [Hlt|[Heq Hle]];
      [split; [apply Qlt_le_weak, Hlt|intros E; lra]|split; [lra|intros _; exact Hle]]. }
  split; [left; reflexivity|split; [reflexivity|split; [exact Hall|]]].
  split; filter_le.
Qed.

Lemma senior_insight_top_witness :
  SeniorGap.analyze MoreInputs.senior_pass_rows FS.empty_filters = inr MoreInputs.senior_pass_result /\
  exists rep, SeniorStore.insight_figures (SeniorGap.by_tcrew MoreInputs.senior_pass_result) = Some rep /\
    In (SeniorStore.rp_top rep) (SeniorGap.by_tcrew MoreInputs.senior_pass_result).
Proof.
  assert (H : SeniorGap.analyze MoreInputs.senior_pass_rows FS.empty_filters
              = inr MoreInputs.senior_pass_result) by (vm_compute; reflexivity).
  split; [exact H|].
  destruct (SeniorStore.insight_figures (SeniorGap.by_tcrew MoreInputs.senior_pass_result)) as [rep|] eqn:E;
    [|vm_compute in E; discriminate].
  exists rep; split; [reflexivity|].
  exact (proj1 (senior_insight_top _ _ _ _ H E)).
Defined.



Section PeriodInsights.
Import Table FS PeriodComparison.


Lemma period_rows_sign : forall f l r0 j,
  min_filter f (target_filter f (trend_filter (get (trend f)) l)) = inr r0 ->
  In j (sort_result (get (trend f)) r0) ->
  match get (trend f) with
  | Some Decrease => (j_delta j < 0)%Q
  | Some Increase => (0 < j_delta j)%Q
  | None => True
  end.
Proof.
  intros f l r0 j Hmin Hj; apply sort_result_in in Hj.
  destruct (min_filter_in _ _ _ _ Hmin Hj) as (Hj1 & _ & _).
  destruct (target_filter_in _ _ _ Hj1) as (Hj2 & _).
  exact (proj2 (trend_filter_in _ _ _ Hj2)).
Qed.

End PeriodInsights.



(* ------------------------------------------------------------------ *)
(** ** The store breakdown of Period Comparison *)

Section PeriodStoreResult.
Import Table FS PeriodComparison PeriodStore.

Lemma store_agg_in : forall df s, In s (aggregate_by_store df) ->
  exists g, In (sstat_key s, g) (groupby (fun r => [mteam r; dealer r; store r]) df) /\
    ss_total s = length g /\ g <> [] /\ ss_nps s = Nps.calculate_nps (scores g).
Proof.
  intros df s H; unfold aggregate_by_store in H; apply in_map_iff in H as ([k g] & <- & H).
  destruct (groupby_group _ _ _ _ H) as (r & g' & -> & <- & _).
  exists (r :: g'); cbn -[Nps.calculate_nps length].
  split; [exact H|split; [reflexivity|split; [discriminate|reflexivity]]].
Qed.

Lemma store_agg_keys : forall df,
  map sstat_key (aggregate_by_store df) = map fst (groupby (fun r => [mteam r; dealer r; store r]) df).
Proof.
  intro df; unfold aggregate_by_store; rewrite map_map; apply map_ext_in.
  intros [k g] H; destruct (groupby_group _ _ _ _ H) as (r & g' & -> & <- & _); reflexivity.
Qed.

Lemma store_agg_nodup : forall df, NoDup (map sstat_key (aggregate_by_store df)).
Proof. intro df; rewrite store_agg_keys; apply nodup_groupby_keys. Qed.

Lemma merge_stores_mem : forall p1 p2 j, In j (merge_stores p1 p2) ->
  exists a b, In a p1 /\ In b p2 /\ sstat_key a = sstat_key b /\
    j = mkSjoined (ss_team a) (ss_dealer a) (ss_store a)
                  (ss_nps a) (ss_total a) (ss_nps b) (ss_total b) (ss_nps b - ss_nps a)%Q.
Proof.
  intros p1 p2 j H; unfold merge_stores in H.
  apply in_flat_map in H as [a [Ha Hj]].
  apply in_map_iff in Hj as [b [<- Hb]].
  apply filter_In in Hb as [Hb Hk]; apply key_eqb_eq in Hk.
  exists a, b; repeat split; auto.
Qed.

Lemma merge_stores_nodup : forall p1 p2,
  NoDup (map sstat_key p1) -> NoDup (map sstat_key p2) -> NoDup (map sj_key (merge_stores p1 p2)).
Proof.
  intros p1 p2 H1 H2; induction p1 as [|a p1 IH]; [constructor|].
  inversion H1 as [|? ? Ha Hp1]; subst.
  change (merge_stores (a :: p1) p2) with
    (map (fun b => mkSjoined (ss_team a) (ss_dealer a) (ss_store a)
                             (ss_nps a) (ss_total a) (ss_nps b) (ss_total b) (ss_nps b - ss_nps a)%Q)
         (filter (fun b => key_eqb (sstat_key a) (sstat_key b)) p2) ++ merge_stores p1 p2)%list.
  rewrite map_app; apply NoDup_app; [|apply IH, Hp1|].
  - assert (Hle : (length (filter (fun b => key_eqb (sstat_key a) (sstat_key b)) p2) <= 1)%nat).
    { apply (nodup_map_const sstat_key (sstat_key a)); [apply filter_nodup_map, H2|].
      intros b Hb; apply filter_In in Hb as [_ Hb]; apply key_eqb_eq in Hb; auto. }
    destruct (filter (fun b => key_eqb (sstat_key a) (sstat_key b)) p2) as [|b [|b' l]];
      simpl in *; [constructor|repeat constructor; auto|lia].
  - intros k Hk Hk'.
    apply in_map_iff in Hk as [j [<- Hj]]; apply in_map_iff in Hj as [b [<- _]].
    apply in_map_iff in Hk' as [j' [Hjj Hj']].
    destruct (merge_stores_mem _ _ _ Hj') as (a' & b' & Ha' & _ & _ & ->).
    assert (E : sstat_key a = sstat_key a') by first [exact Hjj|symmetry; exact Hjj].
    apply Ha; rewrite E; apply in_map, Ha'.
Qed.

Lemma store_analyze_in : forall d1 d2 f t r j, analyze_by_store d1 d2 f t = inr r -> In j r ->
  In j (merge_stores (aggregate_by_store d1) (aggregate_by_store d2)) /\
  match t with
  | Some Decrease => (sj_delta j < 0)%Q
  | Some Increase => (0 < sj_delta j)%Q
  | None => True
  end /\
  match get (nps_target f) with
  | Some tg => match get_or (nps_comparison f) Below with
               | Some Below => (sj_nps2 j < inject_Z tg)%Q
               | _ => (inject_Z tg <= sj_nps2 j)%Q
               end
  | None => True
  end /\
  (forall m1, min_for (min_responses_period1 f) f = Some m1 -> m1 <= Z.of_nat (sj_count1 j)) /\
  (forall m2, min_for (min_responses_period2 f) f = Some m2 -> m2 <= Z.of_nat (sj_count2 j)).
Proof.
  intros d1 d2 f t r j H Hj; unfold analyze_by_store in H.
  destruct (aggregate_by_store d1) as [|a1 p1] eqn:E1; [injection H as <-; destruct Hj|].
  destruct (aggregate_by_store d2) as [|a2 p2] eqn:E2; [injection H as <-; destruct Hj|].
  destruct (merge_stores (a1 :: p1) (a2 :: p2)) as [|m ms] eqn:Em; [injection H as <-; destruct Hj|].
  rewrite <- Em in H |- *; cbv zeta in H.
  destruct (min_for (min_responses_period1 f) f) as [m1|];
    destruct (min_for (min_responses_period2 f) f) as [m2|]; try discriminate.
  injection H as <-.
  destruct t as [[|]|]; apply sort_by_in in Hj; apply filter_In in Hj as [Hj Hfl];
    apply andb_prop in Hfl as [Hf1 Hf2]; apply Z.leb_le in Hf1; apply Z.leb_le in Hf2;
    (destruct (get (nps_target f)) as [tg|];
     [destruct (get_or (nps_comparison f) Below) as [[|]|]; apply filter_In in Hj as [Hj Htg]|]);
    try (match type of Hj with In _ (filter _ _) => apply filter_In in Hj as [Hj Htr] end);
    (split; [exact Hj|]);
    (split; [first [exact I|apply Qltb_iff; exact Htr]|]);
    (split; [first [exact I|apply Qltb_iff; exact Htg|apply Qle_bool_iff; exact Htg]|]);
    split; intros m' E; injection E as <-; assumption.
Qed.

End PeriodStoreResult.

(** X22: every row of the Period Comparison store table
    ([_analyze_by_store]) is a store (marketing team, dealer, store) with
    responses in both windows: its response counts and NPS values are
    those of the rows of that store in each window, its change is the
    second NPS minus the first, and it passes the trend, target and
    per-window response floor filters. *)
Theorem period_store_rows_pass_filters : forall d1 d2 f t r,
  PeriodStore.analyze_by_store d1 d2 f t = inr r ->
  forall j, In j r ->
  let g1 := filter (fun x => Table.key_eqb [Table.mteam x; Table.dealer x; Table.store x]
                                           (PeriodStore.sj_key j)) d1 in
  let g2 := filter (fun x => Table.key_eqb [Table.mteam x; Table.dealer x; Table.store x]
                                           (PeriodStore.sj_key j)) d2 in
  PeriodStore.sj_count1 j = length g1 /\ g1 <> [] /\
  PeriodStore.sj_nps1 j = Nps.calculate_nps (Table.scores g1) /\
  PeriodStore.sj_count2 j = length g2 /\ g2 <> [] /\
  PeriodStore.sj_nps2 j = Nps.calculate_nps (Table.scores g2) /\
  PeriodStore.sj_delta j = (PeriodStore.sj_nps2 j - PeriodStore.sj_nps1 j)%Q /\
  match t with
  | Some FS.Decrease => (PeriodStore.sj_delta j < 0)%Q
  | Some FS.Increase => (0 < PeriodStore.sj_delta j)%Q
  | None => True
  end /\
  match get (FS.nps_target f) with
  | Some tg => match get_or (FS.nps_comparison f) FS.Below with
               | Some FS.Below => (PeriodStore.sj_nps2 j < inject_Z tg)%Q
               | _ => (inject_Z tg <= PeriodStore.sj_nps2 j)%Q
               end
  | None => True
  end /\
  (forall m1, PeriodComparison.min_for (FS.min_responses_period1 f) f = Some m1 ->
     m1 <= Z.of_nat (PeriodStore.sj_count1 j)) /\
  (forall m2, PeriodComparison.min_for (FS.min_responses_period2 f) f = Some m2 ->
     m2 <= Z.of_nat (PeriodStore.sj_count2 j)).
Proof.
  intros d1 d2 f t r H j Hj.
  destruct (store_analyze_in _ _ _ _ _ _ H Hj) as (Hm & Hs & Ht & Hf1 & Hf2).
  destruct (merge_stores_mem _ _ _ Hm) as (a & b & Ha & Hb & Hk & ->).
  destruct (store_agg_in _ _ Ha) as (g1 & Hg1 & Ht1 & Hne1 & Hn1).
  destruct (store_agg_in _ _ Hb) as (g2 & Hg2 & Ht2 & Hne2 & Hn2).
  destruct (groupby_spec (fun r => [Table.mteam r; Table.dealer r; Table.store r]) d1)
    as (_ & _ & Hs1 & _).
  destruct (groupby_spec (fun r => [Table.mteam r; Table.dealer r; Table.store r]) d2)
    as (_ & _ & Hs2 & _).
  destruct (Hs1 _ _ Hg1) as (Eg1 & _ & _); destruct (Hs2 _ _ Hg2) as (Eg2 & _ & _).
  intros g1' g2'.
  assert (G1 : g1' = g1) by (subst g1'; rewrite Eg1; reflexivity).
  assert (G2 : g2' = g2) by (subst g2'; rewrite Eg2, <- Hk; reflexivity).
  clearbody g1' g2'; subst g1' g2'.
  cbn [PeriodStore.sj_count1 PeriodStore.sj_count2 PeriodStore.sj_nps1 PeriodStore.sj_nps2
       PeriodStore.sj_delta] in *.
  repeat split; first [assumption|reflexivity].
Qed.

Lemma period_store_rows_pass_filters_witness :
  PeriodStore.analyze_by_store MoreInputs.store_rows1 MoreInputs.store_rows2 Inputs.min1_filters None
    = inr MoreInputs.period_store_table /\
  MoreInputs.period_store_table <> [] /\
  Forall (fun j => PeriodStore.sj_delta j = (PeriodStore.sj_nps2 j - PeriodStore.sj_nps1 j)%Q)
    MoreInputs.period_store_table.
Proof.
  assert (H : PeriodStore.analyze_by_store MoreInputs.store_rows1 MoreInputs.store_rows2
                Inputs.min1_filters None = inr MoreInputs.period_store_table)
    by (vm_compute; reflexivity).
  split; [exact H|split; [vm_compute; discriminate|]].
  apply Forall_forall; intros j Hj.
  apply (period_store_rows_pass_filters _ _ _ _ _ H j Hj).
Defined.

(** X23: the Period Comparison store table is ordered by the change in
    NPS as the trend asks, and lists each store (marketing team, dealer,
    store) at most once. *)
Theorem period_store_sorted_unique : forall d1 d2 f t r,
  PeriodStore.analyze_by_store d1 d2 f t = inr r ->
  match t with
  | Some FS.Decrease => Sorted (fun a b => PeriodStore.sj_delta a <= PeriodStore.sj_delta b)%Q r
  | Some FS.Increase => Sorted (fun a b => PeriodStore.sj_delta b <= PeriodStore.sj_delta a)%Q r
  | None => Sorted (fun a b => PeriodComparison.Qabs_ (PeriodStore.sj_delta b)
                               <= PeriodComparison.Qabs_ (PeriodStore.sj_delta a))%Q r
  end /\ NoDup (map PeriodStore.sj_key r).
Proof.
  intros d1 d2 f t r H; unfold PeriodStore.analyze_by_store in H.
  destruct (PeriodStore.aggregate_by_store d1) as [|a1 p1] eqn:E1;
    [injection H as <-; split; [destruct t as [[|]|]|]; constructor|].
  destruct (PeriodStore.aggregate_by_store d2) as [|a2 p2] eqn:E2;
    [injection H as <-; split; [destruct t as [[|]|]|]; constructor|].
  destruct (PeriodStore.merge_stores (a1 :: p1) (a2 :: p2)) as [|m ms] eqn:Em;
    [injection H as <-; split; [destruct t as [[|]|]|]; constructor|].
  rewrite <- Em in H; cbv zeta in H.
  assert (Hn : NoDup (map PeriodStore.sj_key (PeriodStore.merge_stores (a1 :: p1) (a2 :: p2)))).
  { rewrite <- E1, <- E2; apply merge_stores_nodup; apply store_agg_nodup. }
  destruct (PeriodComparison.min_for (FS.min_responses_period1 f) f) as [m1|];
    destruct (PeriodComparison.min_for (FS.min_responses_period2 f) f) as [m2|]; try discriminate.
  injection H as <-.
  destruct t as [[|]|]; cbv beta iota; split;
    first [ eapply Sorted_impl_; [|apply sort_by_sorted; intros a b; apply Qle_bool_total];
            intros a b Hab; exact (proj1 (Qle_bool_iff _ _) Hab)
          | apply sort_by_nodup_map, filter_nodup_map;
            destruct (get (FS.nps_target f)) as [tg|];
            [destruct (get_or (FS.nps_comparison f) FS.Below) as [[|]|]; apply filter_nodup_map|];
            try apply filter_nodup_map; exact Hn ].
Qed.

Lemma period_store_sorted_unique_witness :
  PeriodStore.analyze_by_store MoreInputs.store_rows1 MoreInputs.store_rows2 Inputs.min1_filters None
    = inr MoreInputs.period_store_table /\
  NoDup (map PeriodStore.sj_key MoreInputs.period_store_table).
Proof.
  assert (H : PeriodStore.analyze_by_store MoreInputs.store_rows1 MoreInputs.store_rows2
                Inputs.min1_filters None = inr MoreInputs.period_store_table)
    by (vm_compute; reflexivity).
  split; [exact H|apply (period_store_sorted_unique _ _ _ _ _ H)].
Defined.

(* ------------------------------------------------------------------ *)
(** ** The analysis type and the trend of a question *)

Section ContainsFacts.
Import ParserX.

Lemma is_prefix_app : forall p s, is_prefix p s = true -> exists t, s = (p ++ t)%list.
Proof.
  induction p as [|x p IH]; intros [|y s] H; simpl in H; try discriminate.
  - exists []; reflexivity.
  - exists (y :: s); reflexivity.
  - apply andb_prop in H as [Hxy H]; apply N.eqb_eq in Hxy; subst y.
    destruct (IH s H) as [t ->]; exists t; reflexivity.
Qed.

Lemma is_prefix_self : forall p t, is_prefix p (p ++ t)%list = true.
Proof. induction p as [|x p IH]; intro t; simpl; [reflexivity|rewrite N.eqb_refl, IH; reflexivity]. Qed.

Lemma contains_app : forall w h, contains w h = true <-> exists a b, h = (a ++ w ++ b)%list.
Proof.
  intros w h; split.
  - induction h as [|c h IH]; intro H; simpl in H; apply orb_prop in H as [H|H].
    + destruct (is_prefix_app _ _ H) as [t ->]; exists [], t; reflexivity.
    + discriminate.
    + destruct (is_prefix_app _ _ H) as [t ->]; exists [], t; reflexivity.
    + destruct (IH H) as (a & b & ->); exists (c :: a), b; reflexivity.
  - intros (a & b & ->); induction a as [|c a IH]; simpl.
    + destruct w as [|x w]; [destruct b; reflexivity|simpl].
      rewrite N.eqb_refl, is_prefix_self; reflexivity.
    + rewrite IH, orb_true_r; reflexivity.
Qed.

End ContainsFacts.

Section LowerHangul.
Import ParserX ParserKind.

(** [str.lower()] leaves the Hangul syllables (U+AC00 to U+D7A3) as they
    are, never maps another character to one, and drops no character. *)
Variable lower_char : N -> ustr.
Hypothesis lower_hangul : forall c, (44032 <= c <= 55203)%N -> lower_char c = [c].
Hypothesis lower_into_hangul : forall c d, In d (lower_char c) -> (44032 <= d <= 55203)%N ->
  (44032 <= c <= 55203)%N.
Hypothesis lower_nonempty : forall c, lower_char c <> [].

Lemma lower_prefix : forall w q b, Forall (fun c => (44032 <= c <= 55203)%N) w ->
  lower_with lower_char q = (w ++ b)%list -> exists b', q = (w ++ b')%list.
Proof.
  induction w as [|x w IH]; intros q b Hw H; [exists q; reflexivity|].
  inversion Hw as [|? ? Hx Hw']; subst.
  destruct q as [|c q]; [discriminate|].
  unfold lower_with in H; simpl in H.
  destruct (lower_char c) as [|y ys] eqn:Ec; [exfalso; apply (lower_nonempty c), Ec|].
  simpl in H; injection H as <- H.
  assert (Hc : (44032 <= c <= 55203)%N) by (apply (lower_into_hangul c y); [rewrite Ec; left|]; auto).
  rewrite (lower_hangul c Hc) in Ec; injection Ec as -> <-.
  destruct (IH q b Hw' H) as [b' ->]; exists b'; reflexivity.
Qed.

Lemma lower_infix : forall w q a b, w <> [] -> Forall (fun c => (44032 <= c <= 55203)%N) w ->
  lower_with lower_char q = (a ++ w ++ b)%list -> exists a' b', q = (a' ++ w ++ b')%list.
Proof.
  intros w q; induction q as [|c q IH]; intros a b Hne Hw H.
  - destruct a, w; simpl in H; congruence.
  - unfold lower_with in H; simpl in H; fold (lower_with lower_char q) in H.
    apply app_eq_app in H as [l [[Ec Hl]|[Ea Hl]]].
    + destruct l as [|y l].
      * destruct (IH [] b Hne Hw (eq_sym Hl)) as (a' & b' & ->); exists (c :: a'), b'; reflexivity.
      * destruct w as [|x w]; [congruence|].
        inversion Hw as [|? ? Hx Hw']; subst.
        simpl in Hl; injection Hl as <- Hl.
        assert (Hc : (44032 <= c <= 55203)%N).
        { apply (lower_into_hangul c x); [rewrite Ec; apply in_or_app; right; left; reflexivity|exact Hx]. }
        rewrite (lower_hangul c Hc) in Ec.
        destruct a as [|a0 a]; simpl in Ec; [|injection Ec as _ Ec; destruct a; discriminate].
        injection Ec as -> <-.
        destruct (lower_prefix w q b Hw' (eq_sym Hl)) as [b' ->].
        exists [], b'; reflexivity.
    + destruct (IH l b Hne Hw Hl) as (a' & b' & ->).
      exists (c :: a'), b'; reflexivity.
Qed.

Lemma lower_contains : forall w q, w <> [] -> Forall (fun c => (44032 <= c <= 55203)%N) w ->
  contains w (lower_with lower_char q) = true -> contains w q = true.
Proof.
  intros w q Hne Hw H; apply contains_app in H as (a & b & H).
  apply contains_app; exact (lower_infix w q a b Hne Hw H).
Qed.

End LowerHangul.

Lemma ascii_lower_hangul : forall c, (44032 <= c <= 55203)%N -> ParserKind.ascii_lower c = [c].
Proof.
  intros c Hc; unfold ParserKind.ascii_lower.
  replace (N.leb c 90) with false by (symmetry; apply N.leb_gt; lia).
  rewrite andb_false_r; reflexivity.
Qed.

Lemma ascii_lower_into_hangul : forall c d, In d (ParserKind.ascii_lower c) ->
  (44032 <= d <= 55203)%N -> (44032 <= c <= 55203)%N.
Proof.
  intros c d Hd Hh; unfold ParserKind.ascii_lower in Hd.
  destruct (N.leb 65 c && N.leb c 90) eqn:E; destruct Hd as [<-|[]]; [|exact Hh].
  apply andb_prop in E as [_ E]; apply N.leb_le in E; lia.
Qed.

Lemma ascii_lower_nonempty : forall c, ParserKind.ascii_lower c <> [].
Proof. intro c; unfold ParserKind.ascii_lower; destruct (_ && _); discriminate. Qed.

(** X24: a question that [_detect_analysis_type] (run on the lower-cased
    question) classifies as a period comparison always gets a trend from
    [_detect_trend] (run on the question as typed): the rule asks for
    '상승' or '하락', which lower-casing does not create. *)
Theorem period_type_has_trend : forall (lower_char : N -> ustr),
  (forall c, (44032 <= c <= 55203)%N -> lower_char c = [c]) ->
  (forall c d, In d (lower_char c) -> (44032 <= d <= 55203)%N -> (44032 <= c <= 55203)%N) ->
  (forall c, lower_char c <> []) ->
  forall q, ParserKind.detect_analysis_type (ParserKind.lower_with lower_char q) = FS.PeriodComparison ->
  ParserKind.detect_trend q <> None.
Proof.
  intros lc H1 H2 H3 q H.
  unfold ParserKind.detect_analysis_type in H; cbv zeta in H.
  repeat (match type of H with context [if ?b then _ else _] => destruct b eqn:? end);
    try discriminate.
  match goal with Hx : (_ && (_ || _)) = true |- _ => apply andb_prop in Hx as [_ E] end.
  assert (Hq : ParserX.contains ParserKind.SANGSEUNG q = true \/ ParserX.contains ParserKind.HARAK q = true).
  { apply orb_prop in E as [E|E]; [left|right];
      (eapply lower_contains; [exact H1|exact H2|exact H3|discriminate| |exact E]);
      repeat constructor; vm_compute; discriminate. }
  unfold ParserKind.detect_trend.
  destruct Hq as [Hq|Hq]; rewrite Hq; rewrite ?orb_true_l, ?orb_true_r;
    repeat (match goal with |- context [if ?b then _ else _] => destruct b end); discriminate.
Qed.

Lemma period_type_has_trend_witness :
  ParserKind.detect_analysis_type (ParserKind.lower_with ParserKind.ascii_lower MoreInputs.q_period_drop)
    = FS.PeriodComparison /\
  ParserKind.detect_trend MoreInputs.q_period_drop <> None.
Proof.
  assert (H : ParserKind.detect_analysis_type
                (ParserKind.lower_with ParserKind.ascii_lower MoreInputs.q_period_drop)
              = FS.PeriodComparison) by (vm_compute; reflexivity).
  split; [exact H|].
  exact (period_type_has_trend ParserKind.ascii_lower ascii_lower_hangul ascii_lower_into_hangul
           ascii_lower_nonempty MoreInputs.q_period_drop H).
Defined.

(* ------------------------------------------------------------------ *)
(** ** The per-store agent detail of Simple Filter *)

Lemma perm_filter : forall {A} (p : A -> bool) l l',
  Permutation l l' -> Permutation (filter p l) (filter p l').
Proof.
  intros A p l l' H; induction H as [| x l l' H IH | x y l | l l' l'' H1 IH1 H2 IH2]; simpl.
  - constructor.
  - destruct (p x); [constructor|]; exact IH.
  - destruct (p x), (p y); first [apply perm_swap | apply Permutation_refl].
  - exact (Permutation_trans IH1 IH2).
Qed.

Lemma sum_perm : forall l l' : list nat, Permutation l l' -> fold_right plus 0%nat l = fold_right plus 0%nat l'.
Proof. intros l l' H; induction H; simpl; lia. Qed.

Section StoreDetail.
Import Table SimpleDetail.

Lemma count_valid_app : forall l1 l2, count_valid (l1 ++ l2) = (count_valid l1 + count_valid l2)%nat.
Proof. intros l1 l2; unfold count_valid; rewrite filter_app, length_app; reflexivity. Qed.

Lemma count_valid_perm : forall l l', Permutation l l' -> count_valid l = count_valid l'.
Proof. intros l l' H; unfold count_valid; apply Permutation_length, perm_filter, H. Qed.

Lemma unique_from_in : forall seen l x, In x (unique_from seen l) -> In x l /\ ~ In x seen.
Proof.
  intros seen l; revert seen; induction l as [|y l IH]; intros seen x H; simpl in H; [destruct H|].
  destruct (existsb (ustr_eqb y) seen) eqn:E.
  - destruct (IH _ _ H) as [H1 H2]; split; [right; exact H1|exact H2].
  - destruct H as [<-|H].
    + split; [left; reflexivity|]; intro Hin.
      assert (Ht : existsb (ustr_eqb y) seen = true).
      { apply existsb_exists; exists y; split; [exact Hin|apply ustr_eqb_eq; reflexivity]. }
      congruence.
    + destruct (IH _ _ H) as [H1 H2]; split; [right; exact H1|intro Hs; apply H2; right; exact Hs].
Qed.

Lemma unique_from_nodup : forall seen l, NoDup (unique_from seen l).
Proof.
  intros seen l; revert seen; induction l as [|y l IH]; intro seen; simpl; [constructor|].
  destruct (existsb (ustr_eqb y) seen); [apply IH|constructor; [|apply IH]].
  intro H; apply unique_from_in in H as [_ H]; apply H; left; reflexivity.
Qed.

Lemma filter_const : forall {A} (p : A -> bool) l b, (forall x, In x l -> p x = b) ->
  filter p l = if b then l else [].
Proof.
  intros A p l b H; induction l as [|x l IH]; simpl; [destruct b; reflexivity|].
  rewrite (H x (or_introl eq_refl)), IH by (intros y Hy; apply H; right; exact Hy).
  destruct b; reflexivity.
Qed.

(** Within a group of [groupby(['매장명', '담당자'])] every row has the
    store of the key. *)
Lemma filter_store_flat : forall s (G : list (list ustr * list row)),
  (forall k g, In (k, g) G -> forall x, In x g -> store x = hd [] k) ->
  filter (fun r => ustr_eqb (store r) s) (flat_map snd G) =
  flat_map snd (filter (fun kg => ustr_eqb (hd [] (fst kg)) s) G).
Proof.
  intros s G H; induction G as [|[k g] G IH]; simpl; [reflexivity|].
  rewrite filter_app, IH by (intros k' g' Hk; apply H; right; exact Hk).
  rewrite (filter_const _ g (ustr_eqb (hd [] k) s)).
  - destruct (ustr_eqb (hd [] k) s); reflexivity.
  - intros x Hx; rewrite (H k g (or_introl eq_refl) x Hx); reflexivity.
Qed.

Lemma sum_filter_map : forall (F : list ustr * list row -> detail_row) G s,
  (forall k g, In (k, g) G -> d_store (F (k, g)) = hd [] k /\ d_count (F (k, g)) = count_valid g) ->
  fold_right plus 0%nat (map d_count (filter (fun x => ustr_eqb (d_store x) s) (map F G))) =
  count_valid (flat_map snd (filter (fun kg => ustr_eqb (hd [] (fst kg)) s) G)).
Proof.
  intros F G s H; induction G as [|[k g] G IH]; simpl; [reflexivity|].
  destruct (H k g (or_introl eq_refl)) as [Hs Hc]; rewrite Hs.
  destruct (ustr_eqb (hd [] k) s); simpl;
    rewrite IH by (intros k' g' Hk; apply H; right; exact Hk);
    [rewrite count_valid_app, Hc|]; reflexivity.
Qed.

Lemma group_store_rows : forall df k g x,
  In (k, g) (groupby (fun r => [store r; tcrew r]) df) -> In x g -> store x = hd [] k.
Proof.
  intros df k g x H Hx; destruct (groupby_group _ _ _ _ H) as (r & g' & -> & <- & Hall).
  destruct (Hall x Hx) as [Hk _]; injection Hk as -> _; reflexivity.
Qed.

Lemma store_detail_in : forall df s rows, In (s, rows) (store_tcrew_detail df) ->
  exists grouped,
    rows = sort_by (fun a b => le_nan (d_nps a) (d_nps b))
                   (filter (fun x => ustr_eqb (d_store x) s) grouped) /\
    In s (map d_store grouped) /\
    NoDup (map (fun x => [d_store x; d_tcrew x]) grouped) /\
    (forall x, In x grouped ->
       (forall v, d_share x = Some v -> (0 <= v <= 100)%Q)) /\
    fold_right plus 0%nat (map d_count (filter (fun x => ustr_eqb (d_store x) s) grouped)) =
      count_valid (filter (fun r => ustr_eqb (store r) s) df).
Proof.
  intros df s rows H; unfold store_tcrew_detail in H; cbv zeta in H.
  apply in_map_iff in H as (s' & E & Hs); injection E as <- <-.
  set (G := groupby (fun r => [store r; tcrew r]) df) in *.
  match type of Hs with In _ (unique_from [] (map d_store ?gr)) => set (grouped := gr) in * end.
  exists grouped; split; [reflexivity|].
  split; [exact (proj1 (unique_from_in _ _ _ Hs))|].
  split; [|split].
  - subst grouped; rewrite map_map.
    replace (map _ G) with (map fst G); [apply nodup_groupby_keys|].
    apply map_ext_in; intros [k g] Hk.
    destruct (groupby_group _ _ _ _ Hk) as (r & g' & -> & <- & _); reflexivity.
  - intros x Hx v Hv; subst grouped; apply in_map_iff in Hx as ([k g] & <- & Hk).
    destruct (groupby_spec (fun r => [store r; tcrew r]) df) as (_ & _ & Hsp & _).
    destruct (Hsp k g Hk) as (Eg & _ & _).
    destruct (groupby_group _ _ _ _ Hk) as (r & g' & Eg' & <- & _).
    simpl in Hv.
    apply (share_bounds (count_valid g) (count_valid (filter (fun r0 => ustr_eqb (store r0) (store r)) df))).
    + rewrite Eg; apply count_valid_filter_mono.
      intros y Hy; apply key_eqb_eq in Hy; injection Hy as -> _; apply ustr_eqb_eq; reflexivity.
    + exact Hv.
  - subst grouped; rewrite (sum_filter_map _ G).
    + rewrite <- filter_store_flat by (intros k g Hk x Hx; exact (group_store_rows df k g x Hk Hx)).
      apply count_valid_perm, perm_filter.
      destruct (groupby_spec (fun r => [store r; tcrew r]) df) as (_ & _ & _ & Hp); exact Hp.
    + intros k g Hk; destruct (groupby_group _ _ _ _ Hk) as (r & g' & -> & <- & _).
      split; reflexivity.
Qed.

End StoreDetail.

(** X25: the agent detail of each store in Simple Filter
    ([_get_store_tcrew_detail]) lists agents of that store only, is never
    empty, has response shares between 0 and 100, and its response counts
    add up to the store's count of scores ([store_total]). *)
Theorem store_detail_partition : forall df s rows,
  In (s, rows) (SimpleDetail.store_tcrew_detail df) ->
  rows <> [] /\
  (forall x, In x rows -> SimpleDetail.d_store x = s /\
     (forall v, SimpleDetail.d_share x = Some v -> (0 <= v <= 100)%Q)) /\
  fold_right plus 0%nat (map SimpleDetail.d_count rows) =
    Table.count_valid (filter (fun r => Table.ustr_eqb (Table.store r) s) df).
Proof.
  intros df s rows H.
  destruct (store_detail_in df s rows H) as (grouped & -> & Hs & _ & Hsh & Hsum).
  split; [|split].
  - apply in_map_iff in Hs as (x & Ex & Hx).
    assert (Hin : In x (Table.sort_by (fun a b => Table.le_nan (SimpleDetail.d_nps a) (SimpleDetail.d_nps b))
                          (filter (fun x => Table.ustr_eqb (SimpleDetail.d_store x) s) grouped))).
    { apply sort_by_in, filter_In; split; [exact Hx|apply ustr_eqb_eq, Ex]. }
    intro E; rewrite E in Hin; destruct Hin.
  - intros x Hx; apply sort_by_in, filter_In in Hx as [Hx Hxs].
    split; [apply ustr_eqb_eq, Hxs|apply Hsh, Hx].
  - rewrite <- Hsum; apply sum_perm, Permutation_map, sort_by_perm.
Qed.

Lemma store_detail_partition_witness :
  MoreInputs.detail_table <> [] /\
  Forall (fun '(s, rows) =>
            fold_right plus 0%nat (map SimpleDetail.d_count rows) =
            Table.count_valid (filter (fun r => Table.ustr_eqb (Table.store r) s) MoreInputs.detail_rows))
         MoreInputs.detail_table.
Proof.
  split; [vm_compute; discriminate|].
  apply Forall_forall; intros [s rows] H.
  exact (proj2 (proj2 (store_detail_partition MoreInputs.detail_rows s rows H))).
Defined.

(** X26: the agent detail of Simple Filter has each store once, and within
    a store each agent once, ordered by NPS ascending (NaN last). *)
Theorem store_detail_order : forall df,
  NoDup (map fst (SimpleDetail.store_tcrew_detail df)) /\
  forall s rows, In (s, rows) (SimpleDetail.store_tcrew_detail df) ->
    NoDup (map SimpleDetail.d_tcrew rows) /\
    Sorted (fun a b => Table.le_nan (SimpleDetail.d_nps a) (SimpleDetail.d_nps b) = true) rows.
Proof.
  intro df; split.
  - unfold SimpleDetail.store_tcrew_detail; cbv zeta; rewrite map_map; cbn [fst].
    rewrite map_id; apply unique_from_nodup.
  - intros s rows H.
    destruct (store_detail_in df s rows H) as (grouped & -> & _ & Hn & _ & _).
    split.
    + apply sort_by_nodup_map.
      apply (nodup_map_coarser (fun x => [SimpleDetail.d_store x; SimpleDetail.d_tcrew x])).
      * intros a b Ha Hb E; apply filter_In in Ha as [_ Ha]; apply filter_In in Hb as [_ Hb].
        apply ustr_eqb_eq in Ha; apply ustr_eqb_eq in Hb; rewrite Ha, Hb, E; reflexivity.
      * apply filter_nodup_map, Hn.
    + apply sort_by_sorted; intros a b; apply le_nan_total.
Qed.

Lemma store_detail_order_witness :
  NoDup (map fst MoreInputs.detail_table) /\
  Forall (fun '(s, rows) => NoDup (map SimpleDetail.d_tcrew rows)) MoreInputs.detail_table.
Proof.
  split; [exact (proj1 (store_detail_order MoreInputs.detail_rows))|].
  apply Forall_forall; intros [s rows] H.
  exact (proj1 (proj2 (store_detail_order MoreInputs.detail_rows) s rows H)).
Defined.
